(** * A (mu, lambda) evolution strategy with self-adaptive step size

    Shallow embedding of [final/evol_strat.py] and of the fitness evaluators
    [final/himmelblau.py], [final/rosenbrock.py] and [final/maxones.py].

    Conventions of the embedding.
    - Python [int] is [Z]. A Python [float] is a real number [R]: the
      operators [+], [-], [*] and [/] are exact (no rounding; infinities and
      NaN do not exist). The two functions of the C library that the code
      calls on floats, [pow] (through [**]) and [exp] (through [math.exp]),
      keep the range of doubles: a result too large for a double raises
      [OverflowError], a result too small for a double is [0.0]
      ([libm_result]). Sums, differences and products are not bounded:
      where a statement relates a computed value to a mathematical one,
      the hypotheses [no_overflow] and [no_underflow] say that the values
      involved are in the range of doubles.
    - A Python exception is a value [Raise e] of the type [result].
    - The generator [random.Random] is library code: it is an interface
      ([Random]) whose documented contract is the class [RandomSpec].
    - [print] appends a record to the list of telemetry lines of the run. *)

From Stdlib Require Import String Ascii.
From Stdlib Require Import ZArith List Reals Lra Lia Bool.
From Stdlib Require Import Permutation Sorted.
Import ListNotations.

Open Scope Z_scope.

(** ** Python values and primitives *)

Inductive exn : Type :=
| ValueError
| IndexError
| ZeroDivisionError
| OverflowError.

Inductive result (A : Type) : Type :=
| Ok (a : A)
| Raise (e : exn).

Arguments Ok {A} a.
Arguments Raise {A} e.

Definition bind {A B : Type} (c : result A) (k : A -> result B) : result B :=
  match c with
  | Ok a => k a
  | Raise e => Raise e
  end.

Notation "x <- c ;; k" := (bind c (fun x => k))
  (at level 61, c at next level, right associativity).

(** [len(l)] *)
Definition len {A : Type} (l : list A) : Z := Z.of_nat (length l).

(** [range(lo, hi)] *)
Definition range (lo hi : Z) : list Z :=
  map (fun k => lo + Z.of_nat k) (seq 0 (Z.to_nat (hi - lo))).

(** [l[:n]]: a negative bound counts from the end, and slicing never
    raises. *)
Definition slice_to {A : Type} (l : list A) (n : Z) : list A :=
  if 0 <=? n then firstn (Z.to_nat n) l
  else firstn (Z.to_nat (len l + n)) l.

(** [l[i]]: a negative index counts from the end; out of range raises
    [IndexError]. *)
Definition index {A : Type} (l : list A) (i : Z) : result A :=
  let j := if i <? 0 then len l + i else i in
  if (0 <=? j) && (j <? len l) then
    match nth_error l (Z.to_nat j) with
    | Some x => Ok x
    | None => Raise IndexError
    end
  else Raise IndexError.

(** [a > b] on floats. *)
Definition Rgtb (a b : R) : bool := if Rgt_dec a b then true else false.

(** [sum(xs)]: a left fold that starts at 0. *)
Definition sum (xs : list R) : R := fold_left Rplus xs 0%R.

(** [a / b] with a float result. *)
Definition truediv (a b : R) : result R :=
  if Req_dec_T b 0 then Raise ZeroDivisionError else Ok (a / b)%R.

(** [math.sqrt(x)] *)
Definition py_sqrt (x : R) : result R :=
  if Rlt_dec x 0 then Raise ValueError else Ok (sqrt x).

(** An exact result of [2^1024 - 2^970] or more rounds to a double that
    does not exist, and one of [2^-1075] or less rounds to zero. *)
Definition double_overflow : R := IZR (2 ^ 1024 - 2 ^ 970).
Definition double_underflow : R := (/ IZR (2 ^ 1075))%R.

(** What [pow] and [exp] hand to Python when the exact result is [r]:
    [OverflowError] when [r] is beyond the doubles, [0.0] when it is too
    small for one, and otherwise [r] (its rounding to the nearest double is
    idealised). *)
Definition libm_result (r : R) : result R :=
  if Rle_dec double_overflow (Rabs r) then Raise OverflowError
  else if Rle_dec (Rabs r) double_underflow then Ok 0%R
  else Ok r.

(** [math.exp(x)] *)
Definition py_exp (x : R) : result R := libm_result (exp x).

(** [x ** n] for a float [x] and a literal [n]. *)
Definition py_pow (x : R) (n : nat) : result R := libm_result (x ^ n).

(** [[f(x) for x in xs]]: elements are computed left to right and the first
    exception leaves the comprehension. *)
Fixpoint comprehension {A B : Type} (f : A -> result B) (xs : list A)
  : result (list B) :=
  match xs with
  | [] => Ok []
  | x :: rest =>
      y <- f x ;;
      ys <- comprehension f rest ;;
      Ok (y :: ys)
  end.

(** [for x in xs: s = body(x, s)] for a body that draws no random number. *)
Fixpoint for_each {A S : Type} (xs : list A) (body : A -> S -> result S)
  (s : S) : result S :=
  match xs with
  | [] => Ok s
  | x :: rest =>
      s' <- body x s ;;
      for_each rest body s'
  end.

(** [max(xs, key=key)]: the key of every element is computed once, in order;
    a later element replaces the current best only when its key is strictly
    greater, so the first of several maximal elements is returned. *)
Fixpoint max_from {A : Type} (key : A -> result R) (best : A) (best_key : R)
  (rest : list A) : result A :=
  match rest with
  | [] => Ok best
  | x :: rest' =>
      k <- key x ;;
      if Rgtb k best_key then max_from key x k rest'
      else max_from key best best_key rest'
  end.

Definition max_by {A : Type} (key : A -> result R) (xs : list A) : result A :=
  match xs with
  | [] => Raise ValueError
  | x :: rest =>
      k <- key x ;;
      max_from key x k rest
  end.

(** [max(xs)] *)
Definition py_max (xs : list R) : result R := max_by (fun x => Ok x) xs.

(** [xs.sort(key=key, reverse=True)]: the library's sort is stable, also in
    reverse; it is modelled by a stable insertion sort in descending key
    order. *)
Fixpoint insert_desc {A : Type} (key : A -> R) (x : A) (l : list A) : list A :=
  match l with
  | [] => [x]
  | y :: l' =>
      if Rgtb (key y) (key x) then y :: insert_desc key x l'
      else x :: y :: l'
  end.

Definition sort_desc {A : Type} (key : A -> R) (l : list A) : list A :=
  fold_right (insert_desc key) [] l.

(** [enumerate(xs)], as pairs (index, element). *)
Definition enumerate {A : Type} (xs : list A) : list (Z * A) :=
  combine (range 0 (len xs)) xs.

(** ** The random generator *)

Class Random (G : Type) : Type := {
  (** [rng.uniform(a, b)] *)
  uniform : R -> R -> G -> R * G;
  (** [rng.gauss(mu, sigma)] *)
  gauss : R -> R -> G -> R * G;
  (** [rng.sample(population, k)] *)
  sample : list Z -> Z -> G -> result (list Z * G)
}.

(** The documented contract of [sample]: [ValueError] when the sample is
    larger than the population or negative, and otherwise [k] elements
    taken from distinct positions of the population. *)
Class RandomSpec (G : Type) `{Random G} : Prop := {
  sample_raises : forall pop k g,
    k < 0 \/ len pop < k -> sample pop k g = Raise ValueError;
  sample_draws : forall pop k g,
    0 <= k <= len pop ->
    exists l g', sample pop k g = Ok (l, g') /\ len l = k /\
                 incl l pop /\ (NoDup pop -> NoDup l)
}.

(** Computations that draw from the generator: the state of the generator
    is threaded, an exception ends the computation. *)
Definition M (G A : Type) : Type := G -> result (A * G).

Definition ret {G A : Type} (a : A) : M G A := fun g => Ok (a, g).

Definition bindM {G A B : Type} (c : M G A) (k : A -> M G B) : M G B :=
  fun g =>
    match c g with
    | Ok (a, g') => k a g'
    | Raise e => Raise e
    end.

Definition lift {G A : Type} (c : result A) : M G A :=
  fun g =>
    match c with
    | Ok a => Ok (a, g)
    | Raise e => Raise e
    end.

Definition draw {G A : Type} (d : G -> A * G) : M G A := fun g => Ok (d g).

Notation "x <~ c ;; k" := (bindM c (fun x => k))
  (at level 61, c at next level, right associativity).

(** [for x in xs: s = body(x, s)] for a body that draws random numbers. *)
Fixpoint for_eachM {G A S : Type} (xs : list A) (body : A -> S -> M G S)
  (s : S) : M G S :=
  match xs with
  | [] => ret s
  | x :: rest =>
      s' <~ body x s ;;
      for_eachM rest body s'
  end.

(** ** Fitness evaluators ([final/fitness.py]) *)

(** The abstract method [Fitness.fitness]; the bitstring methods of the
    interface are not called by the evolution strategy. *)
Record Fitness : Type := { fitness : list R -> result R }.

(** [himmelblau.py], lines 4-7. The powers of
    [(x**2 + y - 11)**2 + (x + y**2 - 7)**2] are computed in Python's order,
    left to right. *)
Definition Himmelblau : Fitness := {|
  fitness := fun member =>
    x <- index member 0 ;;
    y <- index member 1 ;;
    x2 <- py_pow x 2 ;;
    first_square <- py_pow (x2 + y - 11) 2 ;;
    y2 <- py_pow y 2 ;;
    second_square <- py_pow (x + y2 - 7) 2 ;;
    let himmelblau_value := (first_square + second_square)%R in
    truediv 1 (1 + himmelblau_value)
|}.

(** [rosenbrock.py], lines 4-7: [(1 - x)**2 + 100 * (y - x**2)**2]. *)
Definition Rosenbrock : Fitness := {|
  fitness := fun member =>
    x <- index member 0 ;;
    y <- index member 1 ;;
    first_square <- py_pow (1 - x) 2 ;;
    x2 <- py_pow x 2 ;;
    second_square <- py_pow (y - x2) 2 ;;
    let rosenbrock_value := (first_square + 100 * second_square)%R in
    truediv 1 (1 + rosenbrock_value)
|}.

Definition MaxOnes : Fitness := {| fitness := fun _ => Ok 0%R |}.

(** ** The engine ([final/evol_strat.py]) *)

(** One parent or child: its genes followed by its step size sigma. *)
Definition individual : Type := list R.

(** What one generation prints, field by field. *)
Record telemetry : Type := {
  t_label : string;
  t_mu : Z;
  t_lambda : Z;
  t_tau : R;
  t_placeholder : R;
  t_generation : Z;
  t_evals : Z;
  t_best : R;
  t_mean : R;
  t_diversity : R
}.

(** The variables of the loop that live across generations. *)
Record run_state : Type := {
  population : list individual;
  cumulative_evals : Z
}.

(** What one execution of the loop body does to the loop. *)
Inductive outcome (G : Type) : Type :=
| Continue (line : telemetry) (st : run_state) (rng : G)
| Break (line : telemetry) (st : run_state) (rng : G)
| Abort (printed : list telemetry) (e : exn).

Arguments Continue {G} line st rng.
Arguments Break {G} line st rng.
Arguments Abort {G} printed e.

Section Engine.

Context {G : Type} `{Random G}.

(** Lines 5-14: [pop_size] members of [mem_size] uniform genes followed by
    the initial sigma. *)
Definition init_population (pop_size mem_size : Z) (mem_range : R * R)
  (sigma : R) : M G (list individual) :=
  for_eachM (range 0 pop_size) (fun _ population =>
    member <~ for_eachM (range 0 mem_size) (fun _ member =>
                gene <~ draw (uniform (fst mem_range) (snd mem_range)) ;;
                ret (member ++ [gene])) [] ;;
    ret (population ++ [member ++ [sigma]])) [].

Section Run.

Variable fitness_fn : Fitness.
Variables mu lambda_ mem_size : Z.
Variable mem_range : R * R.
Variables sigma tau : R.
Variable max_gens : Z.

(** Lines 21 and 44: the fitness of every member, from its genes. *)
Definition evaluate (members : list individual) : result (list R) :=
  comprehension (fun member => fitness fitness_fn (slice_to member mem_size))
    members.

(** Lines 27-28: the tournament. *)
Definition tournament (fitnesses : list R) : M G Z :=
  candidates <~ sample (range 0 mu) 2 ;;
  lift (max_by (fun i => index fitnesses i) candidates).

(** Lines 31-41: the child of a parent. *)
Definition mutate (parent : individual) : M G individual :=
  let genes := slice_to parent mem_size in
  sigma_val <~ lift (index parent mem_size) ;;
  child <~ for_eachM genes (fun gene child =>
             mutation <~ draw (gauss 0 sigma_val) ;;
             let mutated_gene := (gene + mutation)%R in
             ret (child ++ [mutated_gene])) [] ;;
  sigma_mutation <~ draw (gauss 0 1) ;;
  e <~ lift (py_exp (tau * sigma_mutation)) ;;
  let new_sigma := (sigma_val * e)%R in
  ret (child ++ [new_sigma]).

(** Lines 24-42: the offspring of a generation. *)
Definition make_offspring (parents : list individual) (fitnesses : list R)
  : M G (list individual) :=
  for_eachM (range 0 lambda_) (fun _ offspring =>
    parent_idx <~ tournament fitnesses ;;
    parent <~ lift (index parents parent_idx) ;;
    child <~ mutate parent ;;
    ret (offspring ++ [child])) [].

(** Line 52: the distance of parents [i] and [j] over their genes. *)
Definition distance (parents : list individual) (i j : Z) : result R :=
  squares <- comprehension (fun k =>
               pi <- index parents i ;;
               x <- index pi k ;;
               pj <- index parents j ;;
               y <- index pj k ;;
               py_pow (x - y) 2) (range 0 mem_size) ;;
  py_sqrt (sum squares).

(** Lines 49-54. *)
Definition diversity_of (parents : list individual) : result R :=
  for_each (range 0 mu) (fun i diversity =>
    for_each (range (i + 1) mu) (fun j diversity =>
      dist <- distance parents i j ;;
      Ok (if Rgtb dist diversity then dist else diversity)) diversity) 0%R.

(** Lines 61-65: truncation selection. *)
Definition select_best (offspring : list individual)
  (offspring_fitnesses : list R) : result (list individual) :=
  let indexed := map (fun p => (snd p, fst p)) (enumerate offspring_fitnesses) in
  let indexed := sort_desc (fun x : R * Z => fst x) indexed in
  let selected_indices := map snd (slice_to indexed mu) in
  comprehension (fun idx => index offspring idx) selected_indices.

(** Lines 21-55: one generation up to and including its [print]. It yields
    the offspring, their fitnesses, the evaluation count, the mean parent
    fitness and the line printed. *)
Definition breed_and_report (generation_number : Z) (st : run_state)
  : M G (list individual * list R * Z * R * telemetry) :=
  fitnesses <~ lift (evaluate (population st)) ;;
  let evals := cumulative_evals st + mu in
  offspring <~ make_offspring (population st) fitnesses ;;
  offspring_fitnesses <~ lift (evaluate offspring) ;;
  let evals := evals + lambda_ in
  max_fitness <~ lift (py_max fitnesses) ;;
  average <~ lift (truediv (sum fitnesses) (IZR mu)) ;;
  diversity <~ lift (diversity_of (population st)) ;;
  ret (offspring, offspring_fitnesses, evals, average,
       {| t_label := "Himmelblau ES"%string; t_mu := mu; t_lambda := lambda_;
          t_tau := tau; t_placeholder := 0%R;
          t_generation := generation_number; t_evals := evals;
          t_best := max_fitness; t_mean := average;
          t_diversity := diversity |}).

(** Lines 21-66: the body of the loop over the generations. An exception
    before the [print] leaves no line, one after it leaves the line. *)
Definition generation (generation_number : Z) (st : run_state) (rng : G)
  : outcome G :=
  match breed_and_report generation_number st rng with
  | Raise e => Abort [] e
  | Ok (offspring, offspring_fitnesses, evals, average, line, rng') =>
      if Rgtb average 0.99 then
        Break line {| population := population st;
                      cumulative_evals := evals |} rng'
      else
        match select_best offspring offspring_fitnesses with
        | Raise e => Abort [line] e
        | Ok new_population =>
            Continue line {| population := new_population;
                             cumulative_evals := evals |} rng'
        end
  end.

(** Line 20: the loop over the generation numbers. It yields the lines
    printed and either the state at the end of the loop or the exception
    that left it. *)
Fixpoint generations (numbers : list Z) (st : run_state) (rng : G)
  : list telemetry * result (run_state * G) :=
  match numbers with
  | [] => ([], Ok (st, rng))
  | generation_number :: rest =>
      match generation generation_number st rng with
      | Continue line st' rng' =>
          let (lines, r) := generations rest st' rng' in (line :: lines, r)
      | Break line st' rng' => ([line], Ok (st', rng'))
      | Abort printed e => (printed, Raise e)
      end
  end.

(** The state at the top of the first generation, if initialisation
    succeeds (it always does). *)
Definition start (rng : G) : result (run_state * G) :=
  p <- init_population mu mem_size mem_range sigma rng ;;
  Ok ({| population := fst p; cumulative_evals := 0 |}, snd p).

(** Lines 16-68: the lines printed, and the population returned or the
    exception raised. *)
Definition evolution_strategy (rng : G)
  : list telemetry * result (list individual) :=
  match start rng with
  | Raise e => ([], Raise e)
  | Ok (st, rng1) =>
      let (lines, r) := generations (range 1 (max_gens + 1)) st rng1 in
      (lines, st' <- r ;; Ok (population (fst st')))
  end.

End Run.

End Engine.

(** ** A scripted generator

    A stand-in for [random.Random] whose draws are read from a tape: the
    unit draws feed [uniform] and [gauss] (with the library's formulas
    [a + (b - a) * u] and [mu + z * sigma]), the picks rotate the population
    that [sample] takes its first [k] elements from. *)

Record tape : Type := { units : list R; picks : list nat }.

Definition next_unit (t : tape) : R * tape :=
  match units t with
  | [] => (0%R, t)
  | u :: us => (u, {| units := us; picks := picks t |})
  end.

Definition rotate {A : Type} (n : nat) (l : list A) : list A :=
  skipn (n mod length l) l ++ firstn (n mod length l) l.

Definition tape_sample (pop : list Z) (k : Z) (t : tape)
  : result (list Z * tape) :=
  if (k <? 0) || (len pop <? k) then Raise ValueError
  else
    match picks t with
    | [] => Ok (firstn (Z.to_nat k) pop, t)
    | p :: ps =>
        Ok (firstn (Z.to_nat k) (rotate p pop),
            {| units := units t; picks := ps |})
    end.

#[export] Instance tape_random : Random tape := {
  uniform a b t := let (u, t') := next_unit t in ((a + (b - a) * u)%R, t');
  gauss m s t := let (z, t') := next_unit t in ((m + z * s)%R, t');
  sample := tape_sample
}.

(** ** Notions the properties are stated with *)

(** The generator after [k] successive calls [rng.gauss(0.0, s)]. *)
Definition after_gauss {G : Type} `{Random G} (s : R) (k : nat) (g : G) : G :=
  Nat.iter k (fun g' => snd (gauss 0 s g')) g.

(** The genes of an individual: everything before its sigma. *)
Definition genes_of (mem_size : Z) (member : individual) : list R :=
  slice_to member mem_size.

(** [child] is what mutation makes of [parent] when the generator is in
    state [g], and [g'] is the generator afterwards: gene [k] of the child is
    gene [k] of the parent plus the [k]-th draw of [gauss(0, sigma)], where
    sigma is the last entry of the parent; the last entry of the child is
    [sigma * e], where [e] is what [math.exp(tau * z)] returned for the one
    draw [z] of [gauss(0, 1)] that follows the gene draws. *)
Definition mutation_of {G : Type} `{Random G} (mem_size : Z) (tau : R)
  (parent child : individual) (g g' : G) : Prop :=
  exists sigma_val,
    index parent (-1) = Ok sigma_val /\
    len child = mem_size + 1 /\
    (forall k, 0 <= k < mem_size ->
       exists gene, index parent k = Ok gene /\
         index child k =
           Ok (gene + fst (gauss 0 sigma_val
                             (after_gauss sigma_val (Z.to_nat k) g)))%R) /\
    let gN := after_gauss sigma_val (Z.to_nat mem_size) g in
    (exists e, py_exp (tau * fst (gauss 0 1 gN)) = Ok e /\
               index child mem_size = Ok (sigma_val * e)%R) /\
    index child (-1) = index child mem_size /\
    g' = snd (gauss 0 1 gN).

(** [child] was bred from [parents] as the loop body of lines 25-42 does:
    a tournament picks [parent_idx], and the child is the mutation of the
    parent at that index. *)
Definition bred_from {G : Type} `{Random G} (mu mem_size : Z) (tau : R)
  (parents : list individual) (fitnesses : list R) (child : individual)
  : Prop :=
  exists parent_idx parent g0 g1 g2,
    tournament mu fitnesses g0 = Ok (parent_idx, g1) /\
    index parents parent_idx = Ok parent /\
    mutation_of mem_size tau parent child g1 g2.


(** The Euclidean distance of two gene vectors. *)
Definition euclid (u v : list R) : R :=
  sqrt (fold_right Rplus 0%R
          (map (fun p => ((fst p - snd p) ^ 2)%R) (combine u v))).

(** No square of line 52 is lost to underflow for the gene vectors [u] and
    [v]: at every position the two genes are equal, or far enough apart for
    the square of their difference to be a positive double. *)
Definition no_underflow (u v : list R) : Prop :=
  forall k, nth k u 0%R = nth k v 0%R
            \/ (double_underflow < (nth k u 0 - nth k v 0) ^ 2)%R.

(** The sum of the squares of line 52 stays in the range of doubles for the
    gene vectors [u] and [v]; then no square overflows either. *)
Definition no_overflow (u v : list R) : Prop :=
  (fold_right Rplus 0 (map (fun p => (fst p - snd p) ^ 2) (combine u v))
   < double_overflow)%R.

(** Offspring [i] is ranked before offspring [j]: its fitness is strictly
    greater, or the fitnesses are equal and [i] was bred earlier. *)
Definition ranked_before (fitnesses : list R) (i j : Z) : Prop :=
  exists fi fj,
    index fitnesses i = Ok fi /\ index fitnesses j = Ok fj /\
    ((fi > fj)%R \/ (fi = fj /\ i < j)).

(** The same order on the (fitness, position) pairs that are sorted. *)
Definition pair_before (a b : R * Z) : Prop :=
  (fst a > fst b)%R \/ (fst a = fst b /\ snd a < snd b).

(** A population of [size] members, each of [mem_size] genes and a sigma. *)
Definition well_formed (size mem_size : Z) (members : list individual) : Prop :=
  len members = size /\ Forall (fun m => len m = mem_size + 1) members.

(** The contract of a fitness evaluator: a value for every gene vector of
    [mem_size] entries. *)
Definition total_on (fitness_fn : Fitness) (mem_size : Z) : Prop :=
  forall v, len v = mem_size -> exists f, fitness fitness_fn v = Ok f.

(** A computation that may raise: it returns a value that satisfies [Q], or
    it raises an exception that satisfies [E]. *)
Definition unless {A : Type} (E : exn -> Prop) (c : result A) (Q : A -> Prop)
  : Prop :=
  match c with
  | Ok a => Q a
  | Raise e => E e
  end.

(** The exception of a float result that is out of range. *)
Definition overflow (e : exn) : Prop := e = OverflowError.

(** What the evaluators on floats keep of the contract: for a gene vector
    of [mem_size] entries they return a value unless a float result is out
    of range. *)
Definition total_unless_overflow (fitness_fn : Fitness) (mem_size : Z)
  : Prop :=
  forall v, len v = mem_size -> unless overflow (fitness fitness_fn v) (fun _ => True).

(** The state and the generator at the top of generation [n] of the run
    that starts from the generator [rng0]: the loop body is about to be
    executed for the generation number [n]. *)
Inductive at_top {G : Type} `{Random G} (fitness_fn : Fitness)
  (mu lambda_ mem_size : Z) (mem_range : R * R) (sigma tau : R)
  (max_gens : Z) (rng0 : G) : Z -> run_state -> G -> Prop :=
| top_first st rng :
    start mu mem_size mem_range sigma rng0 = Ok (st, rng) ->
    1 <= max_gens ->
    at_top fitness_fn mu lambda_ mem_size mem_range sigma tau max_gens rng0
      1 st rng
| top_next n st rng line st' rng' :
    at_top fitness_fn mu lambda_ mem_size mem_range sigma tau max_gens rng0
      n st rng ->
    generation fitness_fn mu lambda_ mem_size tau n st rng
      = Continue line st' rng' ->
    n < max_gens ->
    at_top fitness_fn mu lambda_ mem_size mem_range sigma tau max_gens rng0
      (n + 1) st' rng'.

(** The hyperparameters the specification calls valid. *)
Definition valid_hyperparameters (mu lambda_ mem_size : Z)
  (mem_range : R * R) (tau : R) (max_gens : Z) : Prop :=
  0 < mu /\ 0 < lambda_ /\ 0 < mem_size /\ 0 < max_gens /\
  (fst mem_range < snd mem_range)%R /\ (0 < tau)%R.

(** ** Concrete inputs *)

(** A tape whose unit draws are all 0 and whose samples are not rotated. *)
Definition zero_tape : tape := {| units := []; picks := [] |}.

(** A tape that initialises two members at Himmelblau's optimum (3, 2) for
    the gene range (-10, 10). *)
Definition optimum_tape : tape :=
  {| units := [0.65; 0.6; 0.65; 0.6]%R; picks := [] |}.


(** Two parents of one gene whose genes differ by [2^-600]. *)
Definition close_parents : list individual :=
  [[/ 2 ^ 600; 0.5]; [0; 0.5]]%R.

(** A tape with draws that differ from one another. *)
Definition mixed_tape : tape :=
  {| units := [0.5; 0.25; 1; -1; 2; 0.5]%R; picks := [1%nat; 0%nat] |}.

(** ** Notions the further properties are stated with *)

(** The generator after [k] successive calls [rng.uniform(lo, hi)]. *)
Definition after_uniform {G : Type} `{Random G} (lo hi : R) (k : nat) (g : G)
  : G :=
  Nat.iter k (fun g' => snd (uniform lo hi g')) g.

(** The [k]-th of the successive draws [rng.uniform(lo, hi)] made from the
    generator [g], counting from 0. *)
Definition uniform_draw {G : Type} `{Random G} (lo hi : R) (g : G) (k : nat)
  : R :=
  fst (uniform lo hi (after_uniform lo hi k g)).

(** A tape whose unit draws all lie in the unit interval, as the draws of
    [random()] do. *)
Definition unit_tape (t : tape) : Prop :=
  Forall (fun u => (0 <= u <= 1)%R) (units t).

(** ** The bit-string methods of the evaluators

    A Python [str] is a list of characters. [int(s, 2)] is library code: it
    is an interface ([BinaryInt]) with the part of its contract that the
    methods rely on ([BinaryIntSpec]): the empty string is refused, and a
    non-empty string of binary digits has its binary value. *)

(** [l[n:]]: a negative bound counts from the end. *)
Definition slice_from {A : Type} (l : list A) (n : Z) : list A :=
  if 0 <=? n then skipn (Z.to_nat n) l
  else skipn (Z.to_nat (len l + n)) l.

Definition is_bit (c : ascii) : Prop := c = "0"%char \/ c = "1"%char.

(** The value of a string of binary digits, most significant first. *)
Definition bits_value (s : list ascii) : Z :=
  fold_left (fun acc c => 2 * acc + (if Ascii.eqb c "1" then 1 else 0)) s 0.

Class BinaryInt : Type := {
  (** [int(s, 2)] *)
  int_base2 : list ascii -> result Z
}.

Class BinaryIntSpec `{BinaryInt} : Prop := {
  int_base2_empty : int_base2 [] = Raise ValueError;
  int_base2_bits : forall s,
    s <> [] -> Forall is_bit s -> int_base2 s = Ok (bits_value s)
}.

(** A parser that accepts binary digits only; it keeps the contract. *)
#[export] Instance digits_only : BinaryInt := {
  int_base2 s :=
    match s with
    | [] => Raise ValueError
    | _ =>
        if forallb (fun c => Ascii.eqb c "0" || Ascii.eqb c "1") s
        then Ok (bits_value s) else Raise ValueError
    end
}.

Section BitStrings.

Context `{BinaryInt}.

(** [Himmelblau.decode_bitstring] ([himmelblau.py], lines 14-25). *)
Definition Himmelblau_decode_bitstring (bitstring : list ascii)
  : result (R * R) :=
  if negb (len bitstring mod 2 =? 0) then Raise ValueError
  else
    let half := len bitstring / 2 in
    let x_bits := slice_to bitstring half in
    let y_bits := slice_from bitstring half in
    x <- int_base2 x_bits ;;
    y <- int_base2 y_bits ;;
    let max_val := 2 ^ len x_bits - 1 in
    qx <- truediv (IZR x) (IZR max_val) ;;
    let x := (qx * 20 - 10)%R in
    qy <- truediv (IZR y) (IZR max_val) ;;
    let y := (qy * 20 - 10)%R in
    Ok (x, y).

(** [Himmelblau.fitness_bitstring] ([himmelblau.py], lines 9-12). *)
Definition Himmelblau_fitness_bitstring (bitstring : list ascii) : result R :=
  p <- Himmelblau_decode_bitstring bitstring ;;
  let x := fst p in
  let y := snd p in
  x2 <- py_pow x 2 ;;
  first_square <- py_pow (x2 + y - 11) 2 ;;
  y2 <- py_pow y 2 ;;
  second_square <- py_pow (x + y2 - 7) 2 ;;
  let himmelblau_value := (first_square + second_square)%R in
  truediv 1 (1 + himmelblau_value).

(** [Rosenbrock.decode_bitstring] ([rosenbrock.py], lines 14-25). *)
Definition Rosenbrock_decode_bitstring (bitstring : list ascii)
  : result (R * R) :=
  if negb (len bitstring mod 2 =? 0) then Raise ValueError
  else
    let half := len bitstring / 2 in
    let x_bits := slice_to bitstring half in
    let y_bits := slice_from bitstring half in
    x <- int_base2 x_bits ;;
    y <- int_base2 y_bits ;;
    let max_val := 2 ^ len x_bits - 1 in
    qx <- truediv (IZR x) (IZR max_val) ;;
    let x := (qx * 4 - 2)%R in
    qy <- truediv (IZR y) (IZR max_val) ;;
    let y := (qy * 4 - 2)%R in
    Ok (x, y).

(** [Rosenbrock.fitness_bitstring] ([rosenbrock.py], lines 9-12). *)
Definition Rosenbrock_fitness_bitstring (bitstring : list ascii) : result R :=
  p <- Rosenbrock_decode_bitstring bitstring ;;
  let x := fst p in
  let y := snd p in
  first_square <- py_pow (1 - x) 2 ;;
  x2 <- py_pow x 2 ;;
  second_square <- py_pow (y - x2) 2 ;;
  let rosenbrock_value := (first_square + 100 * second_square)%R in
  truediv 1 (1 + rosenbrock_value).

End BitStrings.

(** [MaxOnes.fitness_bitstring] ([maxones.py], lines 7-9): the sum of a 1
    for every character that is ['1'], divided by the length. *)
Definition MaxOnes_fitness_bitstring (bitstring : list ascii) : result R :=
  let ones :=
    fold_left Z.add
      (map (fun _ => 1) (filter (fun c => Ascii.eqb c "1") bitstring)) 0 in
  truediv (IZR ones) (IZR (len bitstring)).

(** [MaxOnes.decode_bitstring] ([maxones.py], lines 11-12). *)
Definition MaxOnes_decode_bitstring (bitstring : list ascii) : R * R :=
  (0%R, 0%R).

(** ** The driver ([main.py])

    [main] runs the engine on the Himmelblau evaluator with fixed
    hyperparameters and a generator seeded with 5000 (the argument [rng] is
    that generator), then prints one line per member of the final
    population with its fitness. It yields the telemetry lines, the member
    lines printed, and how it ended. *)
Fixpoint print_members (members : list individual)
  : list (individual * R) * result unit :=
  match members with
  | [] => ([], Ok tt)
  | member :: rest =>
      match fitness Himmelblau (slice_to member 2) with
      | Raise e => ([], Raise e)
      | Ok f =>
          let (printed, r) := print_members rest in ((member, f) :: printed, r)
      end
  end.

Definition main {G : Type} `{Random G} (rng : G)
  : list telemetry * list (individual * R) * result unit :=
  match evolution_strategy Himmelblau 15 100 2 (-10, 10)%R 0.1%R 0.1%R 1000 rng
  with
  | (lines, Raise e) => (lines, [], Raise e)
  | (lines, Ok final_es_pop) =>
      let (printed, r) := print_members final_es_pop in (lines, printed, r)
  end.

(** * Properties *)

(** ** Comparisons *)

Lemma Rgtb_true (a b : R) : (a > b)%R -> Rgtb a b = true.
Proof. intros Hab. unfold Rgtb. destruct (Rgt_dec a b); [reflexivity | contradiction]. Qed.

Lemma Rgtb_false (a b : R) : (a <= b)%R -> Rgtb a b = false.
Proof. intros Hab. unfold Rgtb. destruct (Rgt_dec a b); [lra | reflexivity]. Qed.

Lemma Rgtb_spec (a b : R) : reflect (a > b)%R (Rgtb a b).
Proof. unfold Rgtb. destruct (Rgt_dec a b); constructor; assumption. Qed.

(** ** Results of the C library *)

Lemma double_underflow_pos : (0 < double_underflow)%R.
Proof.
  unfold double_underflow. apply Rinv_0_lt_compat. apply IZR_lt. reflexivity.
Qed.

Lemma double_underflow_small : (double_underflow < / 1000000000000)%R.
Proof.
  unfold double_underflow.
  apply Rinv_lt_contravar.
  - apply Rmult_lt_0_compat; [lra | apply IZR_lt; reflexivity].
  - apply IZR_lt. reflexivity.
Qed.

Lemma double_overflow_big : (1000000000000 < double_overflow)%R.
Proof. unfold double_overflow. apply IZR_lt. reflexivity. Qed.

(** The three results of a library call with a non-negative exact value. *)
Lemma libm_result_cases (r : R) :
  (0 <= r)%R ->
  (libm_result r = Raise OverflowError /\ (double_overflow <= r)%R)
  \/ (libm_result r = Ok 0%R /\ (r <= double_underflow)%R)
  \/ (libm_result r = Ok r /\ (double_underflow < r < double_overflow)%R).
Proof.
  intros Hr. unfold libm_result. rewrite (Rabs_pos_eq r Hr).
  destruct (Rle_dec double_overflow r) as [Hover |]; [left; split; auto |].
  destruct (Rle_dec r double_underflow) as [Hunder |]; right;
    [left; split; auto | right; split; [reflexivity | lra]].
Qed.

Lemma libm_result_unless (r : R) :
  (0 <= r)%R ->
  unless overflow (libm_result r)
    (fun v => (0 <= v <= r)%R /\ (v = r \/ (v = 0%R /\ (r <= double_underflow)%R))).
Proof.
  intros Hr.
  destruct (libm_result_cases r Hr) as [[-> _] | [[-> Hu] | [-> _]]]; cbn.
  - reflexivity.
  - split; [lra | right; split; [reflexivity | exact Hu]].
  - split; [lra | left; reflexivity].
Qed.

Lemma libm_result_zero (r : R) : r = 0%R -> libm_result r = Ok 0%R.
Proof.
  intros ->. pose proof double_underflow_pos. pose proof double_overflow_big.
  destruct (libm_result_cases 0) as [[_ Ho] | [[Hz _] | [_ Hm]]]; try lra.
  exact Hz.
Qed.

(** A result of moderate size is neither too large nor too small. *)
Lemma libm_result_exact (r : R) :
  (/ 1000000000000 <= r <= 1000000000000)%R -> libm_result r = Ok r.
Proof.
  intros Hr. pose proof double_underflow_small. pose proof double_overflow_big.
  assert (Hinv0 : (0 < / 1000000000000)%R) by (apply Rinv_0_lt_compat; lra).
  destruct (libm_result_cases r) as [[_ Ho] | [[_ Hu] | [He _]]]; try lra.
  exact He.
Qed.

(** [x ** 2] is a square that fits a double, 0 when the square is too small
    for one, or [OverflowError]. *)
Lemma py_pow_square (x : R) :
  unless overflow (py_pow x 2)
    (fun v => (0 <= v <= x ^ 2)%R /\
              (v = (x ^ 2)%R \/ (v = 0%R /\ (x ^ 2 <= double_underflow)%R))).
Proof. apply libm_result_unless. apply pow2_ge_0. Qed.

Lemma py_pow_nonneg (x v : R) : py_pow x 2 = Ok v -> (0 <= v)%R.
Proof.
  intros Hv. pose proof (py_pow_square x) as Hsq. rewrite Hv in Hsq.
  apply Hsq.
Qed.

(** [math.exp(x)] is an exponential that fits a double, 0 when the
    exponential is too small for one, or [OverflowError]. *)
Lemma py_exp_value (x : R) :
  unless overflow (py_exp x)
    (fun e => (0 <= e <= exp x)%R /\
              (e = exp x \/ (e = 0%R /\ (exp x <= double_underflow)%R))).
Proof. apply libm_result_unless. left. apply exp_pos. Qed.

Lemma exp_nat (n : nat) : exp (INR n) = (exp 1 ^ n)%R.
Proof.
  induction n as [| n IH]; [cbn; apply exp_0 |].
  rewrite S_INR, exp_plus, IH. cbn [pow]. ring.
Qed.

Lemma exp_at_least (n : nat) : (2 ^ n <= exp (INR n))%R.
Proof.
  rewrite exp_nat. apply pow_incr. split; [lra |].
  pose proof (exp_ineq1_le 1). lra.
Qed.

Lemma exp_monotone (x y : R) : (x <= y)%R -> (exp x <= exp y)%R.
Proof.
  intros [Hlt | ->]; [left; apply exp_increasing, Hlt | right; reflexivity].
Qed.

(** [math.exp] on a small argument, on a large one and on a large negative
    one. *)
Lemma py_exp_small (x : R) : (-1 <= x <= 1)%R -> py_exp x = Ok (exp x).
Proof.
  intros Hx. apply libm_result_exact.
  pose proof (exp_monotone x 1 ltac:(lra)) as Hup.
  pose proof (exp_monotone (Ropp 1) x ltac:(lra)) as Hdown.
  pose proof exp_le_3. rewrite exp_Ropp in Hdown.
  assert (Hinv : (/ 3 <= / exp 1)%R).
  { apply Rinv_le_contravar; [apply exp_pos | assumption]. }
  lra.
Qed.

Lemma py_exp_overflow (x : R) : (1024 <= x)%R -> py_exp x = Raise OverflowError.
Proof.
  intros Hx.
  assert (Hbig : (double_overflow <= exp x)%R).
  { pose proof (exp_monotone 1024 x Hx) as Hm.
    pose proof (exp_at_least 1024) as Hp.
    replace (INR 1024) with 1024%R in Hp by (rewrite INR_IZR_INZ; reflexivity).
    assert (Hc : (double_overflow <= 2 ^ 1024)%R).
    { unfold double_overflow. rewrite pow_IZR. apply IZR_le.
      apply Z.leb_le. vm_compute. reflexivity. }
    lra. }
  pose proof double_underflow_small. pose proof double_overflow_big.
  destruct (libm_result_cases (exp x)) as [[He _] | [[_ Hu] | [_ Hm]]];
    [left; apply exp_pos | exact He | |]; lra.
Qed.

Lemma py_exp_underflow (x : R) : (x <= -1100)%R -> py_exp x = Ok 0%R.
Proof.
  intros Hx.
  assert (Hsmall : (exp x <= double_underflow)%R).
  { pose proof (exp_monotone x (Ropp 1100) ltac:(lra)) as Hm.
    pose proof (exp_at_least 1100) as Hp.
    replace (INR 1100) with 1100%R in Hp by (rewrite INR_IZR_INZ; reflexivity).
    rewrite exp_Ropp in Hm.
    assert (Hc : (/ 2 ^ 1100 <= double_underflow)%R).
    { unfold double_underflow. apply Rinv_le_contravar.
      - apply IZR_lt. reflexivity.
      - rewrite pow_IZR. apply IZR_le. apply Z.leb_le. vm_compute. reflexivity. }
    assert (Hi : (/ exp 1100 <= / 2 ^ 1100)%R).
    { apply Rinv_le_contravar; [apply pow_lt; lra | exact Hp]. }
    lra. }
  pose proof double_overflow_big. pose proof double_underflow_small.
  assert (Hinv0 : (0 < / 1000000000000)%R) by (apply Rinv_0_lt_compat; lra).
  destruct (libm_result_cases (exp x)) as [[_ Ho] | [[Hz _] | [_ Hm]]];
    [left; apply exp_pos | | exact Hz |]; lra.
Qed.

(** ** Sequences *)

Lemma len_nil (A : Type) : len (@nil A) = 0.
Proof. reflexivity. Qed.

Lemma len_app (A : Type) (l1 l2 : list A) : len (l1 ++ l2) = len l1 + len l2.
Proof. unfold len. rewrite length_app. lia. Qed.

Lemma len_nonneg (A : Type) (l : list A) : 0 <= len l.
Proof. unfold len. lia. Qed.

Lemma len_range (lo hi : Z) : len (range lo hi) = Z.max 0 (hi - lo).
Proof. unfold len, range. rewrite length_map, length_seq. lia. Qed.

Lemma In_range (lo hi i : Z) : In i (range lo hi) <-> lo <= i < hi.
Proof.
  unfold range. rewrite in_map_iff. split.
  - intros [k [Hk Hin]]. apply in_seq in Hin. lia.
  - intros Hi. exists (Z.to_nat (i - lo)). split; [lia |].
    apply in_seq. lia.
Qed.

Lemma range_empty (lo hi : Z) : hi <= lo -> range lo hi = [].
Proof.
  intros Hle. unfold range. replace (Z.to_nat (hi - lo)) with 0%nat by lia.
  reflexivity.
Qed.

Lemma range_cons (lo hi : Z) : lo < hi -> range lo hi = lo :: range (lo + 1) hi.
Proof.
  intros Hlt. unfold range.
  replace (Z.to_nat (hi - lo)) with (S (Z.to_nat (hi - (lo + 1)))) by lia.
  cbn [seq map]. f_equal; [lia |].
  rewrite <- seq_shift, map_map. apply map_ext. intros k. lia.
Qed.

Lemma NoDup_range (lo hi : Z) : NoDup (range lo hi).
Proof.
  unfold range. apply Finite.Injective_map_NoDup; [| apply seq_NoDup].
  intros a b Hab. lia.
Qed.

Lemma nth_error_range (lo hi : Z) (k : nat) :
  (k < Z.to_nat (hi - lo))%nat -> nth_error (range lo hi) k = Some (lo + Z.of_nat k).
Proof.
  intros Hk. unfold range. rewrite nth_error_map, nth_error_seq.
  destruct (Nat.ltb_spec k (Z.to_nat (hi - lo))); [reflexivity | lia].
Qed.

Lemma index_nth (A : Type) (l : list A) (i : Z) :
  0 <= i < len l ->
  exists x, index l i = Ok x /\ nth_error l (Z.to_nat i) = Some x.
Proof.
  intros Hi. unfold index.
  destruct (Z.ltb_spec i 0); [lia |].
  destruct (Z.leb_spec 0 i); [| lia].
  destruct (Z.ltb_spec i (len l)); [| lia]. cbn [andb].
  destruct (nth_error l (Z.to_nat i)) as [x |] eqn:Hnth.
  - exists x. split; reflexivity.
  - apply nth_error_None in Hnth. unfold len in Hi. lia.
Qed.


Lemma nth_error_index (A : Type) (l : list A) (k : nat) (x : A) :
  nth_error l k = Some x -> index l (Z.of_nat k) = Ok x.
Proof.
  intros Hk.
  assert (Hlt : (k < length l)%nat) by (apply nth_error_Some; congruence).
  destruct (index_nth A l (Z.of_nat k)) as [y [Hy Hnth]];
    [unfold len; lia |].
  rewrite Nat2Z.id, Hk in Hnth. injection Hnth as <-. exact Hy.
Qed.

Lemma index_head (A : Type) (x : A) (l : list A) : index (x :: l) 0 = Ok x.
Proof.
  destruct (index_nth A (x :: l) 0) as [x' [Hx Hnth]].
  - unfold len. cbn [length]. lia.
  - cbn in Hnth. injection Hnth as <-. exact Hx.
Qed.

Lemma index_second (A : Type) (x y : A) (l : list A) :
  index (x :: y :: l) 1 = Ok y.
Proof.
  destruct (index_nth A (x :: y :: l) 1) as [y' [Hy Hnth]].
  - unfold len. cbn [length]. lia.
  - cbn in Hnth. injection Hnth as <-. exact Hy.
Qed.

Lemma index_In (A : Type) (l : list A) (i : Z) (x : A) :
  index l i = Ok x -> In x l.
Proof.
  unfold index. intros Hx.
  destruct ((0 <=? _) && (_ <? len l)); [| discriminate].
  destruct (nth_error l _) eqn:Hnth; [| discriminate].
  injection Hx as <-. eapply nth_error_In. eassumption.
Qed.


Lemma index_last (A : Type) (l : list A) (x : A) :
  index (l ++ [x]) (len l) = Ok x /\ index (l ++ [x]) (-1) = Ok x.
Proof.
  assert (Hnth : nth_error (l ++ [x]) (length l) = Some x).
  { rewrite nth_error_app2 by lia. rewrite Nat.sub_diag. reflexivity. }
  pose proof (len_nonneg A l) as Hl. unfold index. rewrite len_app.
  change (len [x]) with 1. split.
  - destruct (Z.ltb_spec (len l) 0); [lia |].
    destruct (Z.leb_spec 0 (len l)); [| lia].
    destruct (Z.ltb_spec (len l) (len l + 1)); [| lia]. cbn [andb].
    unfold len at 1. rewrite Nat2Z.id, Hnth. reflexivity.
  - cbn [Z.ltb Z.compare].
    destruct (Z.leb_spec 0 (len l + 1 + -1)); [| lia].
    destruct (Z.ltb_spec (len l + 1 + -1) (len l + 1)); [| lia]. cbn [andb].
    replace (Z.to_nat (len l + 1 + -1)) with (length l) by (unfold len; lia).
    rewrite Hnth. reflexivity.
Qed.

Lemma index_app_l (A : Type) (l1 l2 : list A) (i : Z) :
  0 <= i < len l1 -> index (l1 ++ l2) i = index l1 i.
Proof.
  intros Hi. pose proof (len_nonneg A l2) as Hl2. unfold index.
  rewrite len_app.
  destruct (Z.ltb_spec i 0); [lia |].
  destruct (Z.leb_spec 0 i); [| lia].
  destruct (Z.ltb_spec i (len l1 + len l2)); [| lia].
  destruct (Z.ltb_spec i (len l1)); [| lia]. cbn [andb].
  rewrite nth_error_app1 by (unfold len in Hi; lia). reflexivity.
Qed.


Lemma len_slice_to (A : Type) (l : list A) (n : Z) :
  0 <= n -> len (slice_to l n) = Z.min n (len l).
Proof.
  intros Hn. unfold slice_to. destruct (Z.leb_spec 0 n); [| lia].
  unfold len. rewrite length_firstn. lia.
Qed.

Lemma slice_to_firstn (A : Type) (l : list A) (n : Z) :
  0 <= n -> slice_to l n = firstn (Z.to_nat n) l.
Proof.
  intros Hn. unfold slice_to. destruct (Z.leb_spec 0 n); [reflexivity | lia].
Qed.

(** ** Exceptions and loops *)

Lemma bind_Ok (A B : Type) (c : result A) (k : A -> result B) (b : B) :
  bind c k = Ok b -> exists a, c = Ok a /\ k a = Ok b.
Proof. destruct c as [a | e]; cbn; [eauto | discriminate]. Qed.

Lemma bindM_Ok (G A B : Type) (c : M G A) (k : A -> M G B) (g : G) (r : B * G) :
  bindM c k g = Ok r -> exists a g1, c g = Ok (a, g1) /\ k a g1 = Ok r.
Proof.
  unfold bindM. destruct (c g) as [[a g1] | e]; [eauto | discriminate].
Qed.

Lemma lift_Ok (G A : Type) (c : result A) (g : G) (r : A * G) :
  lift c g = Ok r -> c = Ok (fst r) /\ snd r = g.
Proof.
  unfold lift. destruct c as [a | e]; [| discriminate].
  intros [= <-]. split; reflexivity.
Qed.

(** Inversion of a successful sequence of binds. *)
Ltac invert_ok :=
  repeat match goal with
    | Hb : bindM _ _ _ = Ok _ |- _ =>
        let a := fresh "a" in let g := fresh "g" in
        let Ha := fresh "Hstep" in
        apply bindM_Ok in Hb; destruct Hb as [a [g [Ha Hb]]]
    | Hb : bind _ _ = Ok _ |- _ =>
        let a := fresh "a" in let Ha := fresh "Hstep" in
        apply bind_Ok in Hb; destruct Hb as [a [Ha Hb]]
    | Hb : lift _ _ = Ok _ |- _ =>
        apply lift_Ok in Hb; cbn [fst snd] in Hb; destruct Hb as [Hb ?]; subst
    | Hb : ret _ _ = Ok _ |- _ => unfold ret in Hb; injection Hb as ? ?; subst
    | Hb : draw _ _ = Ok _ |- _ => unfold draw in Hb; injection Hb as ?; subst
    | Hb : Ok _ = Ok _ |- _ => injection Hb as ?; subst
    end.

(** The loop rule: an invariant on the part of the sequence already
    iterated over, kept by a body that does not raise, gives a loop that
    does not raise and ends in the invariant on the whole sequence. *)
Lemma for_eachM_rule (G A S : Type) (P : list A -> S -> G -> Prop)
  (body : A -> S -> M G S) (xs : list A) :
  (forall pre x post s g, xs = pre ++ x :: post -> P pre s g ->
     exists s' g', body x s g = Ok (s', g') /\ P (pre ++ [x]) s' g') ->
  forall s g, P [] s g ->
    exists s' g', for_eachM xs body s g = Ok (s', g') /\ P xs s' g'.
Proof.
  intros Hbody.
  assert (Hgen : forall rest pre, xs = pre ++ rest -> forall s g, P pre s g ->
            exists s' g', for_eachM rest body s g = Ok (s', g') /\ P xs s' g').
  { induction rest as [| x rest IH]; intros pre Hxs s g HP.
    - rewrite app_nil_r in Hxs. subst pre. exists s, g.
      split; [reflexivity | exact HP].
    - destruct (Hbody pre x rest s g Hxs HP) as [s1 [g1 [Hs1 HP1]]].
      cbn [for_eachM]. unfold bindM at 1. rewrite Hs1.
      apply (IH (pre ++ [x])); [| exact HP1].
      rewrite <- app_assoc. exact Hxs. }
  intros s g HP. apply (Hgen xs []); [reflexivity | exact HP].
Qed.

(** The same rule for a loop that is known to have ended normally. *)
Lemma for_eachM_post (G A S : Type) (P : list A -> S -> G -> Prop)
  (body : A -> S -> M G S) (xs : list A) :
  (forall pre x post s g s' g', xs = pre ++ x :: post -> P pre s g ->
     body x s g = Ok (s', g') -> P (pre ++ [x]) s' g') ->
  forall s g s' g', P [] s g -> for_eachM xs body s g = Ok (s', g') -> P xs s' g'.
Proof.
  intros Hbody.
  assert (Hgen : forall rest pre, xs = pre ++ rest -> forall s g s' g',
            P pre s g -> for_eachM rest body s g = Ok (s', g') -> P xs s' g').
  { induction rest as [| x rest IH]; intros pre Hxs s g s' g' HP Hrun.
    - rewrite app_nil_r in Hxs. subst pre. cbn in Hrun. unfold ret in Hrun.
      injection Hrun as <- <-. exact HP.
    - cbn [for_eachM] in Hrun. apply bindM_Ok in Hrun.
      destruct Hrun as [s1 [g1 [Hs1 Hrun]]].
      apply (IH (pre ++ [x])) with (s := s1) (g := g1); [| | exact Hrun].
      + rewrite <- app_assoc. exact Hxs.
      + eapply Hbody; eassumption. }
  intros s g s' g' HP. apply (Hgen xs []); [reflexivity | exact HP].
Qed.

(** Computations that may raise. *)
Lemma unless_Ok (A : Type) (E : exn -> Prop) (c : result A) (Q : A -> Prop)
  (a : A) :
  unless E c Q -> c = Ok a -> Q a.
Proof. intros Hc ->. exact Hc. Qed.

Lemma unless_weaken (A : Type) (E E' : exn -> Prop) (c : result A)
  (Q Q' : A -> Prop) :
  (forall a, Q a -> Q' a) -> (forall e, E e -> E' e) ->
  unless E c Q -> unless E' c Q'.
Proof. intros HQ HE. destruct c as [a | e]; cbn; auto. Qed.

Lemma unless_bind (A B : Type) (E : exn -> Prop) (c : result A)
  (k : A -> result B) (Q : A -> Prop) (Q' : B -> Prop) :
  unless E c Q -> (forall a, Q a -> unless E (k a) Q') ->
  unless E (bind c k) Q'.
Proof. destruct c as [a | e]; cbn; auto. Qed.

Lemma unless_bindM (G A B : Type) (E : exn -> Prop) (c : M G A)
  (k : A -> M G B) (g : G) (Q : A * G -> Prop) (Q' : B * G -> Prop) :
  unless E (c g) Q -> (forall a g1, Q (a, g1) -> unless E (k a g1) Q') ->
  unless E (bindM c k g) Q'.
Proof.
  unfold bindM. destruct (c g) as [[a g1] | e]; cbn; auto.
Qed.

Lemma unless_lift (G A : Type) (E : exn -> Prop) (c : result A) (g : G)
  (Q : A -> Prop) :
  unless E c Q -> unless E (lift c g) (fun r => Q (fst r) /\ snd r = g).
Proof. unfold lift. destruct c as [a | e]; cbn; auto. Qed.

(** The loop rules for a body that may raise. *)
Lemma for_each_unless (A S : Type) (E : exn -> Prop) (P : list A -> S -> Prop)
  (body : A -> S -> result S) (xs : list A) :
  (forall pre x post s, xs = pre ++ x :: post -> P pre s ->
     unless E (body x s) (P (pre ++ [x]))) ->
  forall s, P [] s -> unless E (for_each xs body s) (P xs).
Proof.
  intros Hbody.
  assert (Hgen : forall rest pre, xs = pre ++ rest -> forall s, P pre s ->
            unless E (for_each rest body s) (P xs)).
  { induction rest as [| x rest IH]; intros pre Hxs s HP.
    - rewrite app_nil_r in Hxs. subst pre. exact HP.
    - cbn [for_each]. eapply unless_bind; [eapply Hbody; eassumption |].
      intros s1 HP1. apply (IH (pre ++ [x])); [| exact HP1].
      rewrite <- app_assoc. exact Hxs. }
  intros s HP. apply (Hgen xs []); [reflexivity | exact HP].
Qed.

Lemma for_each_Ok (A S : Type) (body : A -> S -> result S) (xs : list A) :
  (forall x s, In x xs -> exists s', body x s = Ok s') ->
  forall s, exists s', for_each xs body s = Ok s'.
Proof.
  induction xs as [| x xs IH]; intros Hbody s; cbn [for_each].
  - exists s. reflexivity.
  - destruct (Hbody x s (or_introl eq_refl)) as [s1 ->]. cbn [bind].
    apply IH. intros x' s' Hin. apply Hbody. right. exact Hin.
Qed.

Lemma for_eachM_unless (G A S : Type) (E : exn -> Prop)
  (P : list A -> S -> G -> Prop) (body : A -> S -> M G S) (xs : list A) :
  (forall pre x post s g, xs = pre ++ x :: post -> P pre s g ->
     unless E (body x s g) (fun r => P (pre ++ [x]) (fst r) (snd r))) ->
  forall s g, P [] s g ->
    unless E (for_eachM xs body s g) (fun r => P xs (fst r) (snd r)).
Proof.
  intros Hbody.
  assert (Hgen : forall rest pre, xs = pre ++ rest -> forall s g, P pre s g ->
            unless E (for_eachM rest body s g) (fun r => P xs (fst r) (snd r))).
  { induction rest as [| x rest IH]; intros pre Hxs s g HP.
    - rewrite app_nil_r in Hxs. subst pre. exact HP.
    - cbn [for_eachM]. eapply unless_bindM; [eapply Hbody; eassumption |].
      intros s1 g1 HP1. apply (IH (pre ++ [x])); [| exact HP1].
      rewrite <- app_assoc. exact Hxs. }
  intros s g HP. apply (Hgen xs []); [reflexivity | exact HP].
Qed.

Lemma comprehension_unless (A B : Type) (E : exn -> Prop) (Q : A -> B -> Prop)
  (f : A -> result B) (xs : list A) :
  (forall x, In x xs -> unless E (f x) (Q x)) ->
  unless E (comprehension f xs) (Forall2 Q xs).
Proof.
  induction xs as [| x xs IH]; intros Hf; cbn [comprehension].
  - constructor.
  - eapply unless_bind; [apply Hf; left; reflexivity |].
    intros y Hy. eapply unless_bind.
    + apply IH. intros x' Hin. apply Hf. right. exact Hin.
    + intros ys Hys. constructor; assumption.
Qed.

Lemma comprehension_Ok (A B : Type) (Q : A -> B -> Prop) (f : A -> result B)
  (xs : list A) :
  (forall x, In x xs -> exists y, f x = Ok y /\ Q x y) ->
  exists ys, comprehension f xs = Ok ys /\ Forall2 Q xs ys.
Proof.
  induction xs as [| x xs IH]; intros Hf.
  - exists []. split; [reflexivity | constructor].
  - destruct (Hf x (or_introl eq_refl)) as [y [Hy HQ]].
    destruct IH as [ys [Hys HQs]].
    { intros x' Hin. apply Hf. right. exact Hin. }
    exists (y :: ys). cbn [comprehension]. rewrite Hy, Hys.
    split; [reflexivity | constructor; assumption].
Qed.

Lemma comprehension_inv (A B : Type) (f : A -> result B) (xs : list A)
  (ys : list B) :
  comprehension f xs = Ok ys -> Forall2 (fun x y => f x = Ok y) xs ys.
Proof.
  revert ys. induction xs as [| x xs IH]; intros ys Hc.
  - injection Hc as <-. constructor.
  - cbn [comprehension] in Hc. invert_ok. constructor; [assumption |].
    apply IH. assumption.
Qed.

Lemma Forall2_len (A B : Type) (Q : A -> B -> Prop) (xs : list A) (ys : list B) :
  Forall2 Q xs ys -> len ys = len xs.
Proof. intros HQ. unfold len. apply Forall2_length in HQ. lia. Qed.


(** ** The scripted generator keeps the contract of [sample] *)

Lemma rotate_perm (A : Type) (n : nat) (l : list A) : Permutation (rotate n l) l.
Proof.
  unfold rotate. rewrite Permutation_app_comm, firstn_skipn. reflexivity.
Qed.

Lemma firstn_incl (A : Type) (n : nat) (l : list A) : incl (firstn n l) l.
Proof.
  intros x Hin. rewrite <- (firstn_skipn n l). apply in_or_app. left. exact Hin.
Qed.

Lemma firstn_NoDup (A : Type) (n : nat) (l : list A) : NoDup l -> NoDup (firstn n l).
Proof.
  intros Hl. rewrite <- (firstn_skipn n l) in Hl.
  apply NoDup_app_remove_r in Hl. exact Hl.
Qed.

#[export] Instance tape_spec : RandomSpec tape.
Proof.
  split.
  - intros pop k g Hk. cbn. unfold tape_sample.
    destruct (Z.ltb_spec k 0); [reflexivity |].
    destruct (Z.ltb_spec (len pop) k); [reflexivity | lia].
  - intros pop k g Hk. cbn. unfold tape_sample.
    destruct (Z.ltb_spec k 0); [lia |].
    destruct (Z.ltb_spec (len pop) k); [lia |]. cbn [orb].
    destruct (picks g) as [| p ps].
    + eexists _, _. split; [reflexivity |]. split; [| split].
      * unfold len in *. rewrite length_firstn. lia.
      * apply firstn_incl.
      * apply firstn_NoDup.
    + eexists _, _. split; [reflexivity |]. split; [| split].
      * unfold len in *. rewrite length_firstn.
        rewrite (Permutation_length (rotate_perm Z p pop)). lia.
      * intros x Hin. apply firstn_incl in Hin.
        eapply Permutation_in; [apply rotate_perm | exact Hin].
      * intros Hnd. apply firstn_NoDup.
        eapply Permutation_NoDup; [symmetry; apply rotate_perm | exact Hnd].
Qed.

(** ** Mutation *)

Section Mutation.

Context {G : Type} `{Random G}.
Variables (mem_size : Z) (tau : R).

Lemma after_gauss_S (s : R) (k : nat) (g : G) :
  after_gauss s (S k) g = snd (gauss 0 s (after_gauss s k g)).
Proof. reflexivity. Qed.

(** An individual of [mem_size + 1] entries is its genes followed by its
    sigma. *)
Lemma individual_split (member : individual) :
  0 <= mem_size -> len member = mem_size + 1 ->
  exists sigma_val, member = genes_of mem_size member ++ [sigma_val] /\
                    len (genes_of mem_size member) = mem_size.
Proof.
  intros HN Hlen. unfold genes_of. rewrite slice_to_firstn by exact HN.
  pose proof (firstn_skipn (Z.to_nat mem_size) member) as Hsplit.
  assert (Hrest : length (skipn (Z.to_nat mem_size) member) = 1%nat).
  { rewrite length_skipn. unfold len in Hlen. lia. }
  destruct (skipn (Z.to_nat mem_size) member) as [| s [| s' rest]];
    try discriminate.
  exists s. split; [symmetry; exact Hsplit |].
  unfold len in *. rewrite length_firstn. lia.
Qed.

(** The loop over the genes (lines 34-37). *)
Lemma mutate_genes (sigma_val : R) (genes : list R) (g : G) :
  exists child g',
    for_eachM genes (fun gene child =>
        mutation <~ draw (gauss 0 sigma_val) ;;
        ret (child ++ [(gene + mutation)%R])) [] g = Ok (child, g') /\
    length child = length genes /\
    g' = after_gauss sigma_val (length genes) g /\
    forall k gene, nth_error genes k = Some gene ->
      nth_error child k =
        Some (gene + fst (gauss 0 sigma_val (after_gauss sigma_val k g)))%R.
Proof.
  apply (for_eachM_rule G R (list R)
    (fun pre child g' =>
       length child = length pre /\
       g' = after_gauss sigma_val (length pre) g /\
       forall k gene, nth_error pre k = Some gene ->
         nth_error child k =
           Some (gene + fst (gauss 0 sigma_val (after_gauss sigma_val k g)))%R)).
  - intros pre x post child g1 _ [Hlen [Hg1 Hnth]].
    unfold bindM, draw, ret.
    destruct (gauss 0 sigma_val g1) as [z g2] eqn:Hz.
    eexists _, _. split; [reflexivity |].
    rewrite !length_app. cbn [length]. split; [lia |]. split.
    + rewrite Nat.add_1_r, after_gauss_S, <- Hg1, Hz. reflexivity.
    + intros k gene Hk.
      destruct (Nat.lt_ge_cases k (length pre)) as [Hlt | Hge].
      * rewrite nth_error_app1 in Hk by exact Hlt.
        rewrite nth_error_app1 by lia. apply Hnth. exact Hk.
      * rewrite nth_error_app2 in Hk by exact Hge.
        destruct (k - length pre)%nat as [| d] eqn:Hd;
          [| destruct d; discriminate].
        injection Hk as <-. assert (k = length pre) as -> by lia.
        rewrite nth_error_app2 by lia. rewrite Hlen, Nat.sub_diag, <- Hg1, Hz.
        reflexivity.
  - split; [reflexivity |]. split; [reflexivity |].
    intros k gene Hk. destruct k; discriminate.
Qed.

(** Lines 31-41, for a parent of [mem_size + 1] entries: what mutation
    returns is the mutation of the parent, and the only exception it raises
    is the [OverflowError] of [math.exp]. *)
Lemma mutate_spec (parent : individual) (g : G) :
  0 <= mem_size -> len parent = mem_size + 1 ->
  unless overflow (mutate mem_size tau parent g)
    (fun r => mutation_of mem_size tau parent (fst r) g (snd r)).
Proof.
  intros HN Hlen.
  destruct (individual_split parent HN Hlen) as [sigma_val [Hparent Hgenes]].
  unfold genes_of in *. set (genes := slice_to parent mem_size) in *.
  assert (Hsigma : index parent mem_size = Ok sigma_val
                   /\ index parent (-1) = Ok sigma_val).
  { rewrite Hparent, <- Hgenes. apply index_last. }
  destruct (mutate_genes sigma_val genes g)
    as [child [g1 [Hloop [Hclen [Hg1 Hchild]]]]].
  assert (Hlenc : len child = mem_size) by (unfold len in *; lia).
  destruct (gauss 0 1 g1) as [z g2] eqn:Hz.
  assert (Hrun : mutate mem_size tau parent g
                 = (e <- py_exp (tau * z) ;;
                    Ok (child ++ [(sigma_val * e)%R], g2))).
  { unfold mutate. fold genes. unfold bindM at 1. unfold lift at 1.
    rewrite (proj1 Hsigma). unfold bindM at 1. rewrite Hloop.
    unfold bindM at 1. unfold draw. rewrite Hz. unfold bindM, lift, ret.
    destruct (py_exp (tau * z)); reflexivity. }
  rewrite Hrun. pose proof (py_exp_value (tau * z)) as He.
  destruct (py_exp (tau * z)) as [e | err] eqn:Hexp; cbn [bind unless] in *;
    [| exact He].
  cbn [fst snd].
  assert (Hlast := index_last R child (sigma_val * e)%R).
  rewrite Hlenc in Hlast.
  exists sigma_val. split; [apply Hsigma |]. split.
  { rewrite len_app, Hlenc. reflexivity. }
  assert (Hlen_g : Z.to_nat mem_size = length genes) by (unfold len in *; lia).
  split; [| cbn zeta; rewrite Hlen_g, <- Hg1, Hz; cbn [fst snd]; repeat split].
  - intros k Hk.
    destruct (index_nth R genes k) as [gene [Hidx Hnth]]; [lia |].
    exists gene. split.
    + rewrite Hparent, index_app_l by lia. exact Hidx.
    + rewrite index_app_l by lia.
      destruct (index_nth R child k) as [c [Hc Hcn]]; [lia |].
      rewrite (Hchild _ _ Hnth) in Hcn. injection Hcn as <-. exact Hc.
  - exists e. split; [exact Hexp | apply Hlast].
  - rewrite (proj1 Hlast), (proj2 Hlast). reflexivity.
Qed.

End Mutation.

(** ** Tournament and offspring *)

Section Offspring.

Context {G : Type} `{RandomSpec G}.
Variables (mu lambda_ mem_size : Z) (tau : R).

(** A sample of two from [range(mu)] is two distinct indices below [mu]. *)
Lemma sample_two (g : G) :
  2 <= mu ->
  exists a b g', sample (range 0 mu) 2 g = Ok ([a; b], g') /\
                 a <> b /\ 0 <= a < mu /\ 0 <= b < mu.
Proof.
  intros Hmu.
  destruct (sample_draws (range 0 mu) 2 g) as [l [g' [Hs [Hl [Hincl Hnd]]]]].
  { rewrite len_range. lia. }
  specialize (Hnd (NoDup_range 0 mu)).
  destruct l as [| a [| b [| c l]]];
    try (unfold len in Hl; cbn [length] in Hl; lia).
  exists a, b, g'. split; [exact Hs |]. split.
  - inversion Hnd as [| ? ? Hnotin _]. intros ->. apply Hnotin. left. reflexivity.
  - split; apply In_range; apply Hincl; cbn; auto.
Qed.

(** The mutation of a well-formed parent, for a mutation that has
    returned. *)
Lemma mutate_inv (parent child : individual) (g g' : G) :
  0 <= mem_size -> len parent = mem_size + 1 ->
  mutate mem_size tau parent g = Ok (child, g') ->
  mutation_of mem_size tau parent child g g'.
Proof.
  intros HN Hlen Hm.
  apply (unless_Ok _ _ _ _ _ (mutate_spec mem_size tau parent g HN Hlen) Hm).
Qed.

Lemma mutation_len (parent child : individual) (g g' : G) :
  mutation_of mem_size tau parent child g g' -> len child = mem_size + 1.
Proof. intros [s [_ [Hlen _]]]. exact Hlen. Qed.

(** The tournament of lines 27-28 among [mu] evaluated parents. *)
Lemma tournament_ok (fitnesses : list R) (g : G) :
  2 <= mu -> len fitnesses = mu ->
  exists a b fa fb g',
    sample (range 0 mu) 2 g = Ok ([a; b], g') /\
    a <> b /\ 0 <= a < mu /\ 0 <= b < mu /\
    index fitnesses a = Ok fa /\ index fitnesses b = Ok fb /\
    tournament mu fitnesses g = Ok (if Rgtb fb fa then b else a, g').
Proof.
  intros Hmu Hlen.
  destruct (sample_two g Hmu) as [a [b [g' [Hs [Hab [Ha Hb]]]]]].
  destruct (index_nth R fitnesses a) as [fa [Hfa _]]; [lia |].
  destruct (index_nth R fitnesses b) as [fb [Hfb _]]; [lia |].
  exists a, b, fa, fb, g'. repeat (split; [assumption |]).
  unfold tournament, bindM. rewrite Hs. unfold lift, max_by.
  rewrite Hfa. cbn [bind max_from]. rewrite Hfb. cbn [bind].
  destruct (Rgtb fb fa); reflexivity.
Qed.

(** Lines 25-42 on [mu >= 2] well-formed parents with their fitnesses:
    they breed [lambda_] well-formed children, and the only exception they
    raise is the [OverflowError] of [math.exp]. *)
Lemma make_offspring_ok (parents : list individual) (fitnesses : list R) (g : G) :
  2 <= mu -> 0 <= mem_size ->
  len parents = mu -> len fitnesses = mu ->
  Forall (fun p => len p = mem_size + 1) parents ->
  unless overflow (make_offspring mu lambda_ mem_size tau parents fitnesses g)
    (fun r => len (fst r) = Z.max 0 lambda_ /\
              Forall (fun c => len c = mem_size + 1) (fst r)).
Proof.
  intros Hmu HN Hpar Hfit Hwf. unfold make_offspring.
  eapply unless_weaken; [| intros e He; exact He |].
  2: apply (for_eachM_unless G Z (list individual) overflow
      (fun pre offspring _ =>
         len offspring = len pre /\
         Forall (fun c => len c = mem_size + 1) offspring)).
  - cbn beta. intros r [Hlen Hall]. split; [| exact Hall].
    rewrite Hlen, len_range. lia.
  - intros pre x post offspring g0 _ [Hlen Hall].
    destruct (tournament_ok fitnesses g0 Hmu Hfit)
      as [a [b [fa [fb [g1 [_ [_ [Ha [Hb [_ [_ Ht]]]]]]]]]]].
    set (w := if Rgtb fb fa then b else a) in Ht.
    assert (Hw : 0 <= w < len parents).
    { rewrite Hpar. unfold w. destruct (Rgtb fb fa); assumption. }
    destruct (index_nth _ parents w Hw) as [parent [Hidx _]].
    assert (Hplen : len parent = mem_size + 1).
    { apply index_In in Hidx. rewrite Forall_forall in Hwf. apply Hwf, Hidx. }
    unfold bindM at 1. rewrite Ht. unfold bindM at 1, lift. rewrite Hidx.
    eapply unless_bindM; [apply (mutate_spec mem_size tau parent g1 HN Hplen) |].
    intros child g2 Hspec. cbn [fst snd] in Hspec. cbn.
    rewrite !len_app, Hlen. split; [reflexivity |].
    apply Forall_app. split; [exact Hall |].
    constructor; [| constructor]. eapply mutation_len, Hspec.
  - split; [reflexivity | constructor].
Qed.

(** Every child of a generation that produced its offspring was bred from
    a parent by tournament and mutation. *)
Lemma make_offspring_bred (parents : list individual) (fitnesses : list R)
  (g g' : G) (offspring : list individual) :
  0 <= mem_size ->
  Forall (fun p => len p = mem_size + 1) parents ->
  make_offspring mu lambda_ mem_size tau parents fitnesses g
    = Ok (offspring, g') ->
  len offspring = Z.max 0 lambda_ /\
  Forall (bred_from mu mem_size tau parents fitnesses) offspring.
Proof.
  intros HN Hwf Hrun. unfold make_offspring in Hrun.
  apply (for_eachM_post G Z (list individual)
    (fun pre offspring _ =>
       len offspring = len pre /\
       Forall (bred_from mu mem_size tau parents fitnesses) offspring))
    in Hrun.
  - destruct Hrun as [Hlen Hall]. split; [| exact Hall].
    rewrite Hlen, len_range. lia.
  - intros pre x post offspring0 g0 offspring1 g1 _ [Hlen Hall] Hbody.
    invert_ok. rewrite !len_app, Hlen. split; [reflexivity |].
    apply Forall_app. split; [exact Hall |].
    constructor; [| constructor].
    match goal with
    | Ht : tournament _ _ _ = Ok (?i, ?ga), Hi : index parents ?i = Ok ?p,
      Hm : mutate _ _ ?p ?ga = Ok (?c, ?gb) |- _ =>
        exists i, p, g0, ga, gb; split; [exact Ht |]; split; [exact Hi |];
        apply mutate_inv; [exact HN | | exact Hm];
        apply index_In in Hi; rewrite Forall_forall in Hwf; apply Hwf, Hi
    end.
  - split; [reflexivity | constructor].
Qed.


End Offspring.

(** ** Diversity *)

Lemma sum_fold_right (xs : list R) : sum xs = fold_right Rplus 0%R xs.
Proof.
  unfold sum.
  assert (Hgen : forall a, fold_left Rplus xs a = (a + fold_right Rplus 0 xs)%R).
  { induction xs as [| x xs IH]; intros a; cbn [fold_left fold_right].
    - lra.
    - rewrite IH. lra. }
  rewrite Hgen. lra.
Qed.

Lemma squares_nonneg (u v : list R) :
  (0 <= fold_right Rplus 0
          (map (fun p => (fst p - snd p) ^ 2) (combine u v)))%R.
Proof.
  induction (combine u v) as [| p l IH]; cbn [map fold_right]; [lra |].
  pose proof (pow2_ge_0 (fst p - snd p)). lra.
Qed.

Lemma euclid_nonneg (u v : list R) : (0 <= euclid u v)%R.
Proof. apply sqrt_pos. Qed.

Lemma euclid_zero (u v : list R) :
  length u = length v -> (euclid u v = 0%R <-> u = v).
Proof.
  intros Hlen. unfold euclid. split.
  - intros Hz. apply sqrt_eq_0 in Hz; [| apply squares_nonneg].
    revert v Hlen Hz. induction u as [| a u IH]; intros [| b v] Hlen Hz;
      try discriminate; [reflexivity |].
    cbn [combine map fold_right fst snd] in Hz.
    pose proof (squares_nonneg u v) as Hrest.
    pose proof (pow2_ge_0 (a - b)) as Hsq.
    assert (Hab : ((a - b) ^ 2 = 0)%R) by lra.
    assert (a = b) by nra. subst b. f_equal. apply IH.
    + injection Hlen as Hlen. exact Hlen.
    + lra.
  - intros <-. clear Hlen.
    replace (fold_right Rplus 0%R
               (map (fun p => ((fst p - snd p) ^ 2)%R) (combine u u)))
      with 0%R; [apply sqrt_0 |].
    induction u as [| a u IH]; [reflexivity |].
    cbn [combine map fold_right fst snd]. rewrite <- IH. lra.
Qed.

Lemma squares_by_position (u v : list R) :
  length u = length v ->
  map (fun k => ((nth k u 0 - nth k v 0) ^ 2)%R) (seq 0 (length u))
  = map (fun p => ((fst p - snd p) ^ 2)%R) (combine u v).
Proof.
  revert v. induction u as [| a u IH]; intros [| b v] Hlen; try discriminate;
    [reflexivity |].
  cbn [length seq map combine fst snd nth]. f_equal.
  rewrite <- seq_shift, map_map. cbn [nth]. apply IH.
  injection Hlen as Hlen. exact Hlen.
Qed.

Lemma term_le_sum (A : Type) (h : A -> R) (ks : list A) (k : A) :
  (forall k', 0 <= h k')%R -> In k ks ->
  (h k <= fold_right Rplus 0 (map h ks))%R.
Proof.
  intros Hpos. induction ks as [| k' ks IH]; intros Hin; [destruct Hin |].
  cbn [map fold_right].
  assert (Hrest : (0 <= fold_right Rplus 0 (map h ks))%R).
  { clear IH Hin. induction ks as [| a ks IH]; cbn [map fold_right]; [lra |].
    pose proof (Hpos a). lra. }
  destruct Hin as [-> | Hin]; [lra |].
  specialize (IH Hin). pose proof (Hpos k'). lra.
Qed.

(** The squares that line 52 sums, against the exact squares. *)
Lemma squares_sum (A : Type) (h : A -> R) (ks : list A) (ys : list R) :
  Forall2 (fun k y => (0 <= y <= h k)%R /\
                      (y = h k \/ (y = 0%R /\ (h k <= double_underflow)%R)))
    ks ys ->
  (0 <= fold_right Rplus 0 ys <= fold_right Rplus 0 (map h ks))%R /\
  ((forall k, In k ks -> h k = 0%R) -> fold_right Rplus 0%R ys = 0%R) /\
  ((forall k, In k ks -> h k = 0%R \/ (double_underflow < h k)%R) ->
   ys = map h ks).
Proof.
  induction 1 as [| k y ks ys [Hy Hval] _ [IHsum [IHzero IHexact]]];
    cbn [fold_right map].
  - split; [lra |]. split; reflexivity.
  - split; [lra |]. split.
    + intros Hall. rewrite IHzero by (intros k' Hk'; apply Hall; right; exact Hk').
      specialize (Hall k (or_introl eq_refl)). lra.
    + intros Hall. rewrite IHexact by (intros k' Hk'; apply Hall; right; exact Hk').
      f_equal. destruct Hval as [-> | [-> Hsmall]]; [reflexivity |].
      destruct (Hall k (or_introl eq_refl)) as [-> | Hbig]; [reflexivity | lra].
Qed.

Section Diversity.

Variables (mu mem_size : Z).

(** A gene read by index is the gene at that position of the gene
    vector. *)
Lemma gene_at (member : individual) (k : Z) :
  0 <= k < mem_size -> len member = mem_size + 1 ->
  index member k = Ok (nth (Z.to_nat k) (genes_of mem_size member) 0%R).
Proof.
  intros Hk Hlen.
  destruct (index_nth R member k) as [x [Hx Hnth]]; [lia |].
  rewrite Hx. f_equal. symmetry. apply nth_error_nth.
  unfold genes_of. rewrite slice_to_firstn by lia. rewrite nth_error_firstn.
  destruct (Nat.ltb_spec (Z.to_nat k) (Z.to_nat mem_size)); [exact Hnth | lia].
Qed.

Lemma len_genes (member : individual) :
  0 <= mem_size -> len member = mem_size + 1 ->
  length (genes_of mem_size member) = Z.to_nat mem_size.
Proof.
  intros HN Hlen. unfold genes_of. rewrite slice_to_firstn by lia.
  rewrite length_firstn. unfold len in Hlen. lia.
Qed.

(** The squares of line 52, taken position by position, are the squares of
    the Euclidean distance. *)
Lemma squares_over_genes (pi pj : individual) :
  0 <= mem_size -> len pi = mem_size + 1 -> len pj = mem_size + 1 ->
  fold_right Rplus 0%R
    (map (fun k : Z =>
            ((nth (Z.to_nat k) (genes_of mem_size pi) 0
              - nth (Z.to_nat k) (genes_of mem_size pj) 0) ^ 2)%R)
       (range 0 mem_size))
  = fold_right Rplus 0%R
      (map (fun p => ((fst p - snd p) ^ 2)%R)
         (combine (genes_of mem_size pi) (genes_of mem_size pj))).
Proof.
  intros HN Hpi Hpj. f_equal.
  rewrite <- squares_by_position
    by (rewrite !len_genes by assumption; reflexivity).
  rewrite (len_genes pi HN Hpi). unfold range.
  rewrite Z.sub_0_r, map_map. apply map_ext. intros k.
  rewrite Z.add_0_l, Nat2Z.id. reflexivity.
Qed.

(** Line 52 on two well-formed parents: the distance it computes is at
    least 0, it is 0 for equal gene vectors, and it is the Euclidean
    distance when no square underflows. The only exception is the
    [OverflowError] of [**]. *)
Lemma distance_ok (parents : list individual) (i j : Z) (pi pj : individual) :
  0 <= mem_size ->
  index parents i = Ok pi -> index parents j = Ok pj ->
  len pi = mem_size + 1 -> len pj = mem_size + 1 ->
  unless overflow (distance mem_size parents i j)
    (fun d =>
       (0 <= d)%R /\
       (genes_of mem_size pi = genes_of mem_size pj -> d = 0%R) /\
       (no_underflow (genes_of mem_size pi) (genes_of mem_size pj) ->
        d = euclid (genes_of mem_size pi) (genes_of mem_size pj))).
Proof.
  intros HN Hi Hj Hpi Hpj. unfold distance.
  pose proof (squares_over_genes pi pj HN Hpi Hpj) as Hexactsum.
  set (gi := genes_of mem_size pi) in *. set (gj := genes_of mem_size pj) in *.
  set (h := fun k : Z =>
         ((nth (Z.to_nat k) gi 0 - nth (Z.to_nat k) gj 0) ^ 2)%R) in *.
  eapply unless_bind.
  - apply (comprehension_unless Z R overflow
      (fun k y => (0 <= y <= h k)%R /\
                  (y = h k \/ (y = 0%R /\ (h k <= double_underflow)%R)))).
    intros k Hk. apply In_range in Hk.
    rewrite Hi, Hj. cbn [bind]. rewrite (gene_at pi k) by lia. cbn [bind].
    rewrite (gene_at pj k) by lia. cbn [bind]. apply py_pow_square.
  - intros squares Hsq. apply squares_sum in Hsq.
    destruct Hsq as [Hsum [Hzero Hexact]].
    unfold py_sqrt. rewrite sum_fold_right.
    destruct (Rlt_dec _ 0) as [Hneg |]; [lra |]. cbn [unless].
    split; [| split].
    + apply sqrt_pos.
    + intros Hsame. rewrite Hzero; [apply sqrt_0 |].
      intros k _. unfold h. rewrite Hsame. lra.
    + intros Hfar. rewrite Hexact.
      * unfold euclid. rewrite Hexactsum. reflexivity.
      * intros k _. unfold h.
        destruct (Hfar (Z.to_nat k)) as [-> | Hbig]; [left; lra | right; exact Hbig].
Qed.

(** Line 52 raises nothing when the sum of the squares is in the range of
    doubles. *)
Lemma distance_computed (parents : list individual) (i j : Z)
  (pi pj : individual) :
  0 <= mem_size ->
  index parents i = Ok pi -> index parents j = Ok pj ->
  len pi = mem_size + 1 -> len pj = mem_size + 1 ->
  no_overflow (genes_of mem_size pi) (genes_of mem_size pj) ->
  exists d, distance mem_size parents i j = Ok d.
Proof.
  intros HN Hi Hj Hpi Hpj Hfit. unfold distance, no_overflow in *.
  rewrite <- (squares_over_genes pi pj HN Hpi Hpj) in Hfit.
  set (h := fun k : Z =>
         ((nth (Z.to_nat k) (genes_of mem_size pi) 0
           - nth (Z.to_nat k) (genes_of mem_size pj) 0) ^ 2)%R) in *.
  destruct (comprehension_Ok Z R (fun _ y => (0 <= y)%R)
              (fun k =>
                 pi <- index parents i ;;
                 x <- index pi k ;;
                 pj <- index parents j ;;
                 y <- index pj k ;;
                 py_pow (x - y) 2) (range 0 mem_size))
    as [squares [-> Hsq]].
  { intros k Hk. pose proof (proj1 (In_range _ _ _) Hk) as Hkb.
    rewrite Hi, Hj. cbn [bind]. rewrite (gene_at pi k) by lia. cbn [bind].
    rewrite (gene_at pj k) by lia. cbn [bind]. fold (h k).
    assert (Hterm : (0 <= h k < double_overflow)%R).
    { split; [apply pow2_ge_0 |].
      eapply Rle_lt_trans; [| exact Hfit].
      apply (term_le_sum Z h); [intros k'; apply pow2_ge_0 | exact Hk]. }
    change (py_pow _ 2) with (libm_result (h k)).
    destruct (libm_result_cases (h k) (proj1 Hterm))
      as [[_ Hover] | [[Hres _] | [Hres _]]]; [lra | |]; rewrite Hres.
    - exists 0%R. split; [reflexivity | lra].
    - exists (h k). split; [reflexivity | lra]. }
  cbn [bind]. unfold py_sqrt.
  destruct (Rlt_dec (sum squares) 0) as [Hneg |]; [| eexists; reflexivity].
  exfalso. rewrite sum_fold_right in Hneg.
  assert (Hpos : (0 <= fold_right Rplus 0 squares)%R).
  { clear - Hsq. revert Hsq. generalize (range 0 mem_size). intros ks Hsq.
    induction Hsq as [| k y ks ys Hy _ IH]; cbn [fold_right]; lra. }
  lra.
Qed.

End Diversity.

Section DiversityLoops.

Variables (mu mem_size : Z) (parents : list individual).
Hypothesis mem_size_nonneg : 0 <= mem_size.
Hypothesis parents_len : len parents = mu.
Hypothesis parents_wf : Forall (fun p => len p = mem_size + 1) parents.

(** The distance that line 52 computes for the parents at positions [i] and
    [j], when it computes one. *)
Let dist_at (i j : Z) : R :=
  match distance mem_size parents i j with
  | Ok d => d
  | Raise _ => 0%R
  end.

Lemma parent_at (i : Z) :
  0 <= i < mu ->
  index parents i = Ok (nth (Z.to_nat i) parents []) /\
  len (nth (Z.to_nat i) parents []) = mem_size + 1.
Proof.
  intros Hi. destruct (index_nth _ parents i) as [p [Hp Hnth]]; [lia |].
  rewrite (nth_error_nth _ _ _ Hnth). split; [exact Hp |].
  apply index_In in Hp. rewrite Forall_forall in parents_wf.
  apply parents_wf, Hp.
Qed.

Lemma distance_at (i j : Z) :
  0 <= i < mu -> 0 <= j < mu ->
  unless overflow (distance mem_size parents i j)
    (fun d => distance mem_size parents i j = Ok d /\ d = dist_at i j /\
              (0 <= d)%R).
Proof.
  intros Hi Hj. destruct (parent_at i Hi) as [Hpi Hli].
  destruct (parent_at j Hj) as [Hpj Hlj].
  pose proof (distance_ok mem_size parents i j _ _ mem_size_nonneg
                Hpi Hpj Hli Hlj) as Hd.
  unfold dist_at. destruct (distance mem_size parents i j) as [d | e];
    cbn [unless] in *; [| exact Hd].
  split; [reflexivity |]. split; [reflexivity | apply Hd].
Qed.

(** Lines 51-54 for one [i]: the running maximum only grows, it bounds the
    distance to every later parent, and it is the value it started from or
    one of these distances. *)
Lemma inner_loop (i : Z) (d0 : R) :
  0 <= i < mu ->
  unless overflow
    (for_each (range (i + 1) mu) (fun j diversity =>
       dist <- distance mem_size parents i j ;;
       Ok (if Rgtb dist diversity then dist else diversity)) d0)
    (fun d =>
       (d0 <= d)%R /\
       (forall j, i < j < mu ->
          distance mem_size parents i j = Ok (dist_at i j) /\
          (0 <= dist_at i j <= d)%R) /\
       (d = d0 \/ exists j, i < j < mu /\ d = dist_at i j)).
Proof.
  intros Hi.
  eapply unless_weaken; [| intros e He; exact He |].
  2: apply (for_each_unless Z R overflow
      (fun pre d =>
         (d0 <= d)%R /\
         (forall j, In j pre ->
            distance mem_size parents i j = Ok (dist_at i j) /\
            (0 <= dist_at i j <= d)%R) /\
         (d = d0 \/ exists j, i < j < mu /\ d = dist_at i j))).
  - cbn beta. intros d [Hge [Hall Hatt]]. split; [exact Hge |].
    split; [| exact Hatt]. intros j Hj. apply Hall, In_range. lia.
  - intros pre j post d Hxs [Hge [Hall Hatt]].
    assert (Hj : i + 1 <= j < mu).
    { apply In_range. rewrite Hxs. apply in_or_app. right. left. reflexivity. }
    eapply unless_bind; [apply (distance_at i j); lia |].
    intros dist [Hdist [-> Hpos]]. cbn [unless].
    destruct (Rgtb_spec (dist_at i j) d) as [Hgt | Hle].
    + split; [lra |]. split.
      * intros j' Hin. apply in_app_or in Hin. destruct Hin as [Hin | [<- | []]].
        -- destruct (Hall j' Hin) as [Hd' Hb]. split; [exact Hd' | lra].
        -- split; [exact Hdist | lra].
      * right. exists j. split; [lia | reflexivity].
    + split; [exact Hge |]. split; [| exact Hatt].
      intros j' Hin. apply in_app_or in Hin. destruct Hin as [Hin | [<- | []]].
      * apply Hall, Hin.
      * split; [exact Hdist | lra].
  - split; [lra |]. split; [intros j [] | left; reflexivity].
Qed.

(** Lines 49-54. *)
Lemma outer_loop :
  unless overflow (diversity_of mu mem_size parents)
    (fun d =>
       (0 <= d)%R /\
       (forall i j, 0 <= i < j -> j < mu ->
          distance mem_size parents i j = Ok (dist_at i j) /\
          (0 <= dist_at i j <= d)%R) /\
       (d = 0%R \/ exists i j, 0 <= i < j /\ j < mu /\ d = dist_at i j)).
Proof.
  unfold diversity_of.
  eapply unless_weaken; [| intros e He; exact He |].
  2: apply (for_each_unless Z R overflow
      (fun pre d =>
         (0 <= d)%R /\
         (forall i j, In i pre -> i < j < mu ->
            distance mem_size parents i j = Ok (dist_at i j) /\
            (0 <= dist_at i j <= d)%R) /\
         (d = 0%R \/ exists i j, 0 <= i < j /\ j < mu /\ d = dist_at i j))).
  - cbn beta. intros d [Hge [Hall Hatt]]. split; [exact Hge |].
    split; [| exact Hatt]. intros i j Hi Hj. apply Hall; [| lia].
    apply In_range. lia.
  - intros pre i post d Hxs [Hge [Hall Hatt]].
    assert (Hi : 0 <= i < mu).
    { apply In_range. rewrite Hxs. apply in_or_app. right. left. reflexivity. }
    eapply unless_weaken; [| intros e He; exact He | apply (inner_loop i d Hi)].
    cbn beta. intros d' [Hge' [Hall' Hatt']]. split; [lra |]. split.
    + intros i' j Hin Hj. apply in_app_or in Hin.
      destruct Hin as [Hin | [<- | []]].
      * destruct (Hall i' j Hin Hj) as [Hd Hb]. split; [exact Hd | lra].
      * apply Hall', Hj.
    + destruct Hatt' as [-> | [j [Hj ->]]]; [exact Hatt |].
      right. exists i, j. repeat split; lia.
  - split; [lra |]. split; [intros i j [] | left; reflexivity].
Qed.

(** Lines 49-54 on a well-formed population: the diversity is the largest
    of the distances that line 52 computes for the pairs of parents, 0 when
    there are fewer than two parents and when all gene vectors are equal.
    The only exception is the [OverflowError] of [**]. *)
Lemma diversity_max :
  unless overflow (diversity_of mu mem_size parents)
    (fun d =>
       (0 <= d)%R /\
       (forall i j, 0 <= i < j -> j < mu ->
          exists dist, distance mem_size parents i j = Ok dist /\
                       (0 <= dist <= d)%R) /\
       (2 <= mu -> exists i j,
          0 <= i < j /\ j < mu /\ distance mem_size parents i j = Ok d) /\
       (mu < 2 -> d = 0%R) /\
       ((forall p q, In p parents -> In q parents ->
           genes_of mem_size p = genes_of mem_size q) -> d = 0%R)).
Proof.
  eapply unless_weaken; [| intros e He; exact He | apply outer_loop].
  cbn beta. intros d [Hge [Hall Hatt]].
  split; [exact Hge |]. split; [| split; [| split]].
  - intros i j Hi Hj. exists (dist_at i j). apply Hall; assumption.
  - intros Hmu. destruct Hatt as [-> | [i [j [Hi [Hj ->]]]]].
    + exists 0, 1. split; [lia |]. split; [lia |].
      destruct (Hall 0 1) as [Hd Hb]; [lia | lia |].
      rewrite Hd. f_equal. lra.
    + exists i, j. split; [exact Hi |]. split; [exact Hj |].
      apply Hall; assumption.
  - intros Hmu. destruct Hatt as [-> | [i [j [Hi [Hj _]]]]]; [reflexivity | lia].
  - intros Hsame. destruct Hatt as [-> | [i [j [Hi [Hj ->]]]]]; [reflexivity |].
    destruct (parent_at i) as [Hpi Hli]; [lia |].
    destruct (parent_at j) as [Hpj Hlj]; [lia |].
    destruct (Hall i j Hi Hj) as [Hd _].
    pose proof (distance_ok mem_size parents i j _ _ mem_size_nonneg
                  Hpi Hpj Hli Hlj) as Hok.
    rewrite Hd in Hok. cbn [unless] in Hok. apply Hok.
    apply Hsame; eapply index_In; eassumption.
Qed.

(** Lines 49-54 raise nothing when line 52 raises nothing. *)
Lemma diversity_computed :
  (forall i j, 0 <= i < j -> j < mu ->
     exists dist, distance mem_size parents i j = Ok dist) ->
  exists d, diversity_of mu mem_size parents = Ok d.
Proof.
  intros Hall. unfold diversity_of. apply for_each_Ok.
  intros i d Hi. apply In_range in Hi. apply for_each_Ok.
  intros j d' Hj. apply In_range in Hj.
  destruct (Hall i j) as [dist ->]; [lia | lia |].
  cbn [bind]. eexists. reflexivity.
Qed.

End DiversityLoops.

(** ** Truncation selection *)

Lemma insert_desc_perm (A : Type) (key : A -> R) (x : A) (l : list A) :
  Permutation (insert_desc key x l) (x :: l).
Proof.
  induction l as [| y l IH]; cbn [insert_desc]; [reflexivity |].
  destruct (Rgtb (key y) (key x)); [| reflexivity].
  rewrite IH. apply perm_swap.
Qed.

Lemma sort_desc_perm (A : Type) (key : A -> R) (l : list A) :
  Permutation (sort_desc key l) l.
Proof.
  induction l as [| x l IH]; [reflexivity |].
  unfold sort_desc in *. cbn [fold_right].
  rewrite insert_desc_perm. constructor. exact IH.
Qed.

Lemma insert_desc_sorted (x : R * Z) (l : list (R * Z)) :
  StronglySorted pair_before l ->
  Forall (fun y => snd x < snd y) l ->
  StronglySorted pair_before (insert_desc fst x l).
Proof.
  induction 1 as [| y l Hsorted IH Hy]; intros Hx; cbn [insert_desc].
  - repeat constructor.
  - inversion Hx as [| ? ? Hxy Hxl]; subst.
    destruct (Rgtb_spec (fst y) (fst x)) as [Hgt | Hle].
    + constructor; [apply IH, Hxl |].
      eapply Permutation_Forall; [symmetry; apply insert_desc_perm |].
      constructor; [left; exact Hgt | exact Hy].
    + assert (Hbefore : forall z, snd x < snd z -> (fst z <= fst x)%R ->
                pair_before x z).
      { intros z Hpos Hfit. unfold pair_before.
        destruct (Req_dec (fst x) (fst z)); [right; split; assumption | left; lra]. }
      constructor; [constructor; assumption |].
      constructor; [apply Hbefore; [exact Hxy | lra] |].
      rewrite Forall_forall in *. intros z Hz.
      specialize (Hy z Hz). specialize (Hxl z Hz).
      apply Hbefore; [exact Hxl |]. unfold pair_before in Hy. lra.
Qed.

(** A stable descending sort of pairs whose positions increase orders them
    by fitness first and by position among equal fitnesses. *)
Lemma sort_desc_sorted (l : list (R * Z)) :
  StronglySorted (fun a b => snd a < snd b) l ->
  StronglySorted pair_before (sort_desc fst l).
Proof.
  induction 1 as [| x l Hsorted IH Hx]; [constructor |].
  unfold sort_desc in *. cbn [fold_right].
  apply insert_desc_sorted; [exact IH |].
  eapply Permutation_Forall; [symmetry; apply (sort_desc_perm _ fst) | exact Hx].
Qed.

(** With all keys equal the sort changes nothing. *)
Lemma sort_desc_equal_keys (A : Type) (key : A -> R) (l : list A) :
  (forall a b, In a l -> In b l -> key a = key b) -> sort_desc key l = l.
Proof.
  induction l as [| x l IH]; intros Heq; [reflexivity |].
  unfold sort_desc in *. cbn [fold_right]. rewrite IH.
  - destruct l as [| y l]; [reflexivity |]. cbn [insert_desc].
    rewrite Rgtb_false; [reflexivity |].
    rewrite (Heq y x); [lra | right; left; reflexivity | left; reflexivity].
  - intros a b Ha Hb. apply Heq; right; assumption.
Qed.

Lemma StronglySorted_map (A B : Type) (RA : A -> A -> Prop)
  (RB : B -> B -> Prop) (f : A -> B) (l : list A) :
  (forall a b, In a l -> In b l -> RA a b -> RB (f a) (f b)) ->
  StronglySorted RA l -> StronglySorted RB (map f l).
Proof.
  intros Hf Hs. induction Hs as [| a l Hs IH Ha]; cbn [map]; constructor.
  - apply IH. intros x y Hx Hy. apply Hf; right; assumption.
  - rewrite Forall_forall in *. intros y Hy. apply in_map_iff in Hy.
    destruct Hy as [b [<- Hb]]. apply Hf; [left; reflexivity | right; exact Hb |].
    apply Ha, Hb.
Qed.

Lemma range_snoc (n : Z) : 0 <= n -> range 0 (n + 1) = range 0 n ++ [n].
Proof.
  intros Hn. unfold range. rewrite !Z.sub_0_r.
  replace (Z.to_nat (n + 1)) with (Z.to_nat n + 1)%nat by lia.
  rewrite seq_app, map_app. cbn [seq map]. f_equal. f_equal. lia.
Qed.

Lemma range_sorted (lo hi : Z) : StronglySorted Z.lt (range lo hi).
Proof.
  unfold range. generalize (Z.to_nat (hi - lo)) as n. intros n.
  assert (Hgen : forall start, StronglySorted Z.lt
            (map (fun k => lo + Z.of_nat k) (seq start n))).
  { induction n as [| n IH]; intros start; cbn [seq map]; constructor.
    - apply IH.
    - rewrite Forall_forall. intros y Hy. apply in_map_iff in Hy.
      destruct Hy as [k [<- Hk]]. apply in_seq in Hk. lia. }
  apply Hgen.
Qed.

Lemma comprehension_app (A B : Type) (f : A -> result B) (xs1 xs2 : list A)
  (ys1 ys2 : list B) :
  comprehension f xs1 = Ok ys1 -> comprehension f xs2 = Ok ys2 ->
  comprehension f (xs1 ++ xs2) = Ok (ys1 ++ ys2).
Proof.
  revert ys1. induction xs1 as [| x xs1 IH]; intros ys1 H1 H2.
  - injection H1 as <-. exact H2.
  - cbn [comprehension app] in *. invert_ok.
    match goal with Hx : f x = Ok _ |- _ => rewrite Hx end. cbn [bind].
    erewrite IH by eassumption. reflexivity.
Qed.

Lemma comprehension_ext (A B : Type) (f f' : A -> result B) (xs : list A) :
  (forall x, In x xs -> f x = f' x) -> comprehension f xs = comprehension f' xs.
Proof.
  induction xs as [| x xs IH]; intros Hf; [reflexivity |].
  cbn [comprehension]. rewrite Hf by (left; reflexivity).
  rewrite IH; [reflexivity |]. intros y Hy. apply Hf. right. exact Hy.
Qed.

Lemma comprehension_firstn (A B : Type) (f : A -> result B) (k : nat)
  (xs : list A) (ys : list B) :
  comprehension f xs = Ok ys ->
  comprehension f (firstn k xs) = Ok (firstn k ys).
Proof.
  revert k ys. induction xs as [| x xs IH]; intros k ys Hc.
  - injection Hc as <-. rewrite !firstn_nil. reflexivity.
  - cbn [comprehension] in Hc. invert_ok. destruct k; [reflexivity |].
    cbn [firstn comprehension].
    match goal with Hx : f x = Ok _ |- _ => rewrite Hx end. cbn [bind].
    erewrite IH by eassumption. reflexivity.
Qed.

(** Reading a list at all its positions in order gives the list. *)
Lemma index_all (A : Type) (l : list A) :
  comprehension (index l) (range 0 (len l)) = Ok l.
Proof.
  induction l as [| x l IH] using rev_ind; [reflexivity |].
  rewrite len_app. change (len [x]) with 1.
  rewrite range_snoc by apply len_nonneg.
  apply comprehension_app.
  - rewrite <- IH. apply comprehension_ext.
    intros i Hi. apply In_range in Hi. apply index_app_l. lia.
  - cbn [comprehension]. rewrite (proj1 (index_last A l x)). reflexivity.
Qed.

Lemma Forall2_combine_In (A B : Type) (Q : A -> B -> Prop) (xs : list A)
  (ys : list B) (x : A) (y : B) :
  Forall2 Q xs ys -> In (x, y) (combine xs ys) -> Q x y.
Proof.
  induction 1 as [| a b xs ys Hab _ IH]; cbn [combine]; intros Hin.
  - destruct Hin.
  - destruct Hin as [[= <- <-] | Hin]; [exact Hab | apply IH, Hin].
Qed.

Lemma map_fst_combine (A B : Type) (xs : list A) (ys : list B) :
  length xs = length ys -> map fst (combine xs ys) = xs.
Proof.
  revert ys. induction xs as [| x xs IH]; intros [| y ys] Hlen;
    try discriminate; [reflexivity |].
  cbn [combine map fst]. f_equal. apply IH. injection Hlen as Hlen. exact Hlen.
Qed.

Lemma StronglySorted_unmap (A B : Type) (RB : B -> B -> Prop) (f : A -> B)
  (l : list A) :
  StronglySorted RB (map f l) -> StronglySorted (fun a b => RB (f a) (f b)) l.
Proof.
  induction l as [| a l IH]; cbn [map]; intros Hs; [constructor |].
  apply StronglySorted_inv in Hs. destruct Hs as [Hs Ha].
  constructor; [apply IH, Hs |].
  rewrite Forall_forall in *. intros b Hb. apply Ha, in_map, Hb.
Qed.

Section Truncation.

Variables (mu : Z) (offspring : list individual) (fitnesses : list R).
Hypothesis fitnesses_len : len fitnesses = len offspring.

(** Line 61. *)
Let indexed : list (R * Z) :=
  map (fun p => (snd p, fst p)) (enumerate fitnesses).

Lemma indexed_positions : map snd indexed = range 0 (len fitnesses).
Proof.
  unfold indexed, enumerate. rewrite map_map. cbn [snd].
  change (fun x : Z * R => fst x) with (@fst Z R).
  apply map_fst_combine. pose proof (len_range 0 (len fitnesses)) as Hl.
  pose proof (len_nonneg _ fitnesses). unfold len in *. lia.
Qed.

Lemma indexed_fitness (f : R) (i : Z) :
  In (f, i) indexed -> index fitnesses i = Ok f /\ In f fitnesses.
Proof.
  unfold indexed, enumerate. intros Hin. apply in_map_iff in Hin.
  destruct Hin as [[i' f'] [[= <- <-] Hin]]. split.
  - eapply (Forall2_combine_In _ _ (fun i f => index fitnesses i = Ok f));
      [| exact Hin].
    apply comprehension_inv, index_all.
  - eapply in_combine_r, Hin.
Qed.

(** Lines 61-65: the ranking of the offspring is the permutation of their
    positions in which a fitter child comes first and, among children of
    equal fitness, the one bred earlier; the new population is the children
    at the first [mu] positions of the ranking, in that order. *)
Lemma select_best_ok :
  0 <= mu ->
  exists ranking new_population,
    select_best mu offspring fitnesses = Ok new_population /\
    Permutation ranking (range 0 (len offspring)) /\
    StronglySorted (ranked_before fitnesses) ranking /\
    Forall2 (fun idx member => index offspring idx = Ok member)
      (firstn (Z.to_nat mu) ranking) new_population /\
    len new_population = Z.min mu (len offspring) /\
    Forall (fun member => In member offspring) new_population.
Proof.
  intros Hmu. set (sorted := sort_desc (fun x : R * Z => fst x) indexed).
  assert (Hperm : Permutation sorted indexed) by apply sort_desc_perm.
  assert (Hranking : Permutation (map snd sorted) (range 0 (len offspring))).
  { rewrite <- fitnesses_len, <- indexed_positions.
    apply Permutation_map, Hperm. }
  destruct (comprehension_Ok Z individual
    (fun idx member => index offspring idx = Ok member)
    (fun idx => index offspring idx)
    (firstn (Z.to_nat mu) (map snd sorted))) as [new_population [Hc Hall]].
  { intros idx Hin. apply firstn_incl in Hin.
    apply (Permutation_in _ Hranking), In_range in Hin.
    destruct (index_nth _ offspring idx) as [m [Hm _]]; [lia |].
    exists m. split; exact Hm. }
  exists (map snd sorted), new_population. split; [| split; [| split; [| split; [| split]]]].
  - unfold select_best. fold indexed. fold sorted.
    rewrite slice_to_firstn by exact Hmu. rewrite <- firstn_map. exact Hc.
  - exact Hranking.
  - apply StronglySorted_map with (RA := pair_before).
    + intros [fa a] [fb b] Ha Hb Hab.
      apply (Permutation_in _ Hperm), indexed_fitness in Ha.
      apply (Permutation_in _ Hperm), indexed_fitness in Hb.
      exists fa, fb. split; [apply Ha |]. split; [apply Hb | exact Hab].
    + apply sort_desc_sorted, StronglySorted_unmap.
      rewrite indexed_positions. apply range_sorted.
  - exact Hall.
  - rewrite (Forall2_len _ _ _ _ _ Hall). unfold len. rewrite length_firstn.
    rewrite (Permutation_length Hranking).
    pose proof (len_range 0 (len offspring)) as Hl.
    pose proof (len_nonneg _ offspring). unfold len in *. lia.
  - clear Hc. induction Hall as [| idx m idxs ms Hm _ IH]; constructor.
    + eapply index_In, Hm.
    + exact IH.
Qed.

(** With all fitnesses equal, lines 61-65 keep the first [mu] children in
    the order they were bred in. *)
Lemma select_best_equal :
  0 <= mu ->
  (forall f f', In f fitnesses -> In f' fitnesses -> f = f') ->
  select_best mu offspring fitnesses = Ok (firstn (Z.to_nat mu) offspring).
Proof.
  intros Hmu Heq. unfold select_best. fold indexed.
  rewrite sort_desc_equal_keys.
  - rewrite slice_to_firstn by exact Hmu.
    rewrite <- firstn_map, indexed_positions, fitnesses_len.
    apply comprehension_firstn, index_all.
  - intros [fa a] [fb b] Ha Hb. cbn [fst].
    apply Heq; eapply indexed_fitness; eassumption.
Qed.

End Truncation.

(** ** One generation *)

Lemma truediv_ok (a b : R) : b <> 0%R -> truediv a b = Ok (a / b)%R.
Proof.
  intros Hb. unfold truediv. destruct (Req_dec_T b 0); [contradiction | reflexivity].
Qed.

Lemma max_from_ok (best : R) (rest : list R) :
  exists m, max_from (fun x => Ok x) best best rest = Ok m.
Proof.
  revert best. induction rest as [| x rest IH]; intros best; cbn [max_from bind].
  - exists best. reflexivity.
  - destruct (Rgtb x best); apply IH.
Qed.

Lemma py_max_ok (xs : list R) : 0 < len xs -> exists m, py_max xs = Ok m.
Proof.
  destruct xs as [| x xs]; [cbn; lia |]. intros _.
  unfold py_max, max_by. cbn [bind]. apply max_from_ok.
Qed.

Section Generation.

Context {G : Type} `{RandomSpec G}.
Variable fitness_fn : Fitness.
Variables (mu lambda_ mem_size : Z) (tau : R).

Lemma evaluate_len (members : list individual) (fitnesses : list R) :
  evaluate fitness_fn mem_size members = Ok fitnesses ->
  len fitnesses = len members.
Proof.
  intros He. apply comprehension_inv in He. eapply Forall2_len, He.
Qed.

Lemma evaluate_ok (members : list individual) :
  0 <= mem_size -> total_on fitness_fn mem_size ->
  Forall (fun m => len m = mem_size + 1) members ->
  exists fitnesses, evaluate fitness_fn mem_size members = Ok fitnesses.
Proof.
  intros HN Htotal Hwf.
  destruct (comprehension_Ok individual R (fun _ _ => True)
    (fun member => fitness fitness_fn (slice_to member mem_size)) members)
    as [fitnesses [He _]].
  - intros m Hm. rewrite Forall_forall in Hwf. specialize (Hwf m Hm).
    destruct (Htotal (slice_to m mem_size)) as [f Hf].
    + rewrite len_slice_to by exact HN. lia.
    + exists f. split; [exact Hf | exact I].
  - exists fitnesses. exact He.
Qed.

Lemma total_on_unless :
  total_on fitness_fn mem_size -> total_unless_overflow fitness_fn mem_size.
Proof. intros Htotal v Hv. destruct (Htotal v Hv) as [f ->]. exact I. Qed.

(** The evaluation of well-formed members by an evaluator that keeps its
    contract on floats. *)
Lemma evaluate_may (members : list individual) :
  0 <= mem_size -> total_unless_overflow fitness_fn mem_size ->
  Forall (fun m => len m = mem_size + 1) members ->
  unless overflow (evaluate fitness_fn mem_size members)
    (fun fitnesses => len fitnesses = len members).
Proof.
  intros HN Htotal Hwf.
  eapply unless_weaken; [| intros e He; exact He |].
  2: apply (comprehension_unless individual R overflow (fun _ _ => True)).
  - cbn beta. intros fitnesses Hall. eapply Forall2_len, Hall.
  - intros m Hm. rewrite Forall_forall in Hwf. specialize (Hwf m Hm).
    apply Htotal. rewrite len_slice_to by exact HN. lia.
Qed.

Lemma make_offspring_len (parents : list individual) (fitnesses : list R)
  (g g' : G) (offspring : list individual) :
  make_offspring mu lambda_ mem_size tau parents fitnesses g
    = Ok (offspring, g') ->
  len offspring = Z.max 0 lambda_.
Proof.
  intros Hrun. unfold make_offspring in Hrun.
  apply (for_eachM_post G Z (list individual)
    (fun pre offspring _ => len offspring = len pre)) in Hrun.
  - rewrite Hrun, len_range. lia.
  - intros pre x post o0 g0 o1 g1 _ Hlen Hbody. invert_ok.
    rewrite !len_app, Hlen. reflexivity.
  - reflexivity.
Qed.

(** What lines 21-55 computed when they reached the [print]. *)
Lemma breed_and_report_inv (n : Z) (st : run_state) (g g' : G)
  (offspring : list individual) (offspring_fitnesses : list R) (evals : Z)
  (average : R) (line : telemetry) :
  breed_and_report fitness_fn mu lambda_ mem_size tau n st g
    = Ok (offspring, offspring_fitnesses, evals, average, line, g') ->
  exists fitnesses max_fitness diversity,
    evaluate fitness_fn mem_size (population st) = Ok fitnesses /\
    make_offspring mu lambda_ mem_size tau (population st) fitnesses g
      = Ok (offspring, g') /\
    evaluate fitness_fn mem_size offspring = Ok offspring_fitnesses /\
    py_max fitnesses = Ok max_fitness /\
    truediv (sum fitnesses) (IZR mu) = Ok average /\
    diversity_of mu mem_size (population st) = Ok diversity /\
    evals = cumulative_evals st + mu + lambda_ /\
    line = {| t_label := "Himmelblau ES"%string; t_mu := mu;
              t_lambda := lambda_; t_tau := tau; t_placeholder := 0%R;
              t_generation := n; t_evals := evals; t_best := max_fitness;
              t_mean := average; t_diversity := diversity |}.
Proof.
  intros Hrun. unfold breed_and_report in Hrun. invert_ok.
  eexists _, _, _. repeat (split; [eassumption |]).
  split; reflexivity.
Qed.

(** Lines 21-55 on at least two well-formed parents, with an evaluator
    that keeps its contract on floats: they reach the [print], unless a
    float result is out of range. *)
Lemma breed_and_report_ok (n : Z) (st : run_state) (g : G) :
  2 <= mu -> 0 <= mem_size -> total_unless_overflow fitness_fn mem_size ->
  well_formed mu mem_size (population st) ->
  unless overflow (breed_and_report fitness_fn mu lambda_ mem_size tau n st g)
    (fun r =>
       match r with
       | (offspring, offspring_fitnesses, evals, average, line, g') =>
           well_formed (Z.max 0 lambda_) mem_size offspring /\
           len offspring_fitnesses = len offspring /\
           evals = cumulative_evals st + mu + lambda_
       end).
Proof.
  intros Hmu HN Htotal [Hlen Hwf]. unfold breed_and_report.
  eapply unless_bindM;
    [apply unless_lift, (evaluate_may (population st) HN Htotal Hwf) |].
  intros fitnesses g0 [Hfl Hg0]. cbn [fst snd] in Hfl, Hg0. subst g0.
  rewrite Hlen in Hfl.
  eapply unless_bindM;
    [apply (make_offspring_ok mu lambda_ mem_size tau (population st)
              fitnesses g Hmu HN Hlen Hfl Hwf) |].
  intros offspring g' [Hol Howf]. cbn [fst snd] in Hol, Howf.
  eapply unless_bindM;
    [apply unless_lift, (evaluate_may offspring HN Htotal Howf) |].
  intros offspring_fitnesses g1 [Hofl Hg1]. cbn [fst snd] in Hofl, Hg1. subst g1.
  destruct (py_max_ok fitnesses) as [max_fitness Hmax]; [lia |].
  unfold bindM at 1. unfold lift at 1. rewrite Hmax.
  unfold bindM at 1. unfold lift at 1.
  rewrite truediv_ok by (apply not_0_IZR; lia).
  eapply unless_bindM;
    [apply unless_lift,
       (diversity_max mu mem_size (population st) HN Hlen Hwf) |].
  intros diversity g2 [_ Hg2]. cbn [fst snd] in Hg2. subst g2. cbn.
  split; [split; assumption |]. split; [exact Hofl | reflexivity].
Qed.

(** The three ways the loop body can end, read backwards. *)
Lemma generation_Continue (n : Z) (st st' : run_state) (g g' : G)
  (line : telemetry) :
  generation fitness_fn mu lambda_ mem_size tau n st g = Continue line st' g' ->
  exists offspring offspring_fitnesses average,
    breed_and_report fitness_fn mu lambda_ mem_size tau n st g
      = Ok (offspring, offspring_fitnesses, cumulative_evals st', average,
            line, g') /\
    Rgtb average 0.99 = false /\
    select_best mu offspring offspring_fitnesses = Ok (population st').
Proof.
  unfold generation.
  destruct (breed_and_report _ _ _ _ _ _ _ _)
    as [[[[[[offspring offspring_fitnesses] evals] average] l] g1] | e];
    [| discriminate].
  destruct (Rgtb average 0.99) eqn:Hstop; [discriminate |].
  destruct (select_best _ _ _) as [new_population | e] eqn:Hsel; [| discriminate].
  intros [= <- <- <-]. exists offspring, offspring_fitnesses, average.
  repeat split; assumption.
Qed.

Lemma generation_Break (n : Z) (st st' : run_state) (g g' : G)
  (line : telemetry) :
  generation fitness_fn mu lambda_ mem_size tau n st g = Break line st' g' ->
  exists offspring offspring_fitnesses average,
    breed_and_report fitness_fn mu lambda_ mem_size tau n st g
      = Ok (offspring, offspring_fitnesses, cumulative_evals st', average,
            line, g') /\
    Rgtb average 0.99 = true /\
    population st' = population st.
Proof.
  unfold generation.
  destruct (breed_and_report _ _ _ _ _ _ _ _)
    as [[[[[[offspring offspring_fitnesses] evals] average] l] g1] | e];
    [| discriminate].
  destruct (Rgtb average 0.99) eqn:Hstop.
  - intros [= <- <- <-]. exists offspring, offspring_fitnesses, average.
    repeat split; try assumption.
  - destruct (select_best _ _ _); discriminate.
Qed.

(** The line a generation prints and the evaluation count it leaves. *)
Lemma generation_accounting (n : Z) (st st' : run_state) (g g' : G)
  (line : telemetry) :
  generation fitness_fn mu lambda_ mem_size tau n st g = Continue line st' g'
  \/ generation fitness_fn mu lambda_ mem_size tau n st g = Break line st' g' ->
  cumulative_evals st' = cumulative_evals st + mu + lambda_ /\
  t_evals line = cumulative_evals st' /\ t_generation line = n /\
  diversity_of mu mem_size (population st) = Ok (t_diversity line).
Proof.
  intros [Hgen | Hgen];
    [apply generation_Continue in Hgen | apply generation_Break in Hgen];
    destruct Hgen as [offspring [offspring_fitnesses [average [Hrep _]]]];
    apply breed_and_report_inv in Hrep;
    destruct Hrep as [fs [m [d [_ [_ [_ [_ [_ [Hd [He ->]]]]]]]]]];
    cbn; repeat split; assumption.
Qed.

End Generation.

(** ** The whole run *)

Section Run.

Context {G : Type} `{RandomSpec G}.
Variable fitness_fn : Fitness.
Variables (mu lambda_ mem_size : Z) (mem_range : R * R) (sigma tau : R).

(** Lines 5-14: initialisation does not raise and builds [pop_size] members
    of [mem_size] genes followed by sigma. *)
Lemma init_population_ok (pop_size : Z) (g : G) :
  exists members g',
    init_population pop_size mem_size mem_range sigma g = Ok (members, g') /\
    well_formed (Z.max 0 pop_size) (Z.max 0 mem_size) members /\
    Forall (fun m => index m (-1) = Ok sigma) members.
Proof.
  unfold init_population.
  destruct (for_eachM_rule G Z (list individual)
    (fun pre members _ =>
       len members = len pre /\
       Forall (fun m => len m = Z.max 0 mem_size + 1) members /\
       Forall (fun m => index m (-1) = Ok sigma) members)
    (fun _ members =>
       member <~ for_eachM (range 0 mem_size) (fun _ member =>
                   gene <~ draw (uniform (fst mem_range) (snd mem_range)) ;;
                   ret (member ++ [gene])) [] ;;
       ret (members ++ [member ++ [sigma]]))
    (range 0 pop_size)) with (s := @nil individual) (g := g)
    as [members [g' [Hrun [Hlen [Hwf Hsig]]]]].
  - intros pre x post members g0 _ [Hlen [Hwf Hsig]].
    destruct (for_eachM_rule G Z (list R)
      (fun pre member _ => len member = len pre)
      (fun _ member =>
         gene <~ draw (uniform (fst mem_range) (snd mem_range)) ;;
         ret (member ++ [gene]))
      (range 0 mem_size)) with (s := @nil R) (g := g0)
      as [member [g1 [Hmember Hml]]].
    + intros pre' x' post' member g1 _ Hml. unfold bindM, draw, ret.
      destruct (uniform _ _ g1) as [gene g2]. eexists _, _.
      split; [reflexivity |]. rewrite !len_app, Hml. reflexivity.
    + reflexivity.
    + eexists _, _. split.
      * unfold bindM at 1. rewrite Hmember. reflexivity.
      * rewrite !len_app, Hlen. split; [reflexivity |].
        split; apply Forall_app; (split; [assumption |]);
          (constructor; [| constructor]).
        -- rewrite len_app, Hml, len_range. change (len [sigma]) with 1. lia.
        -- apply index_last.
  - split; [reflexivity |]. split; constructor.
  - exists members, g'. split; [exact Hrun |]. split; [| exact Hsig].
    split; [| exact Hwf]. rewrite Hlen, len_range. lia.
Qed.

Lemma start_ok (g : G) :
  exists st g',
    start mu mem_size mem_range sigma g = Ok (st, g') /\
    cumulative_evals st = 0 /\
    well_formed (Z.max 0 mu) (Z.max 0 mem_size) (population st).
Proof.
  destruct (init_population_ok mu g) as [members [g' [Hinit [Hwf _]]]].
  eexists _, g'. unfold start. rewrite Hinit. cbn [bind fst snd].
  split; [reflexivity |]. split; [reflexivity | exact Hwf].
Qed.

(** Truncation after a generation that printed: the new population has
    [min(mu, max(0, lambda_))] members, all of them offspring. *)
Lemma generation_selects (n : Z) (st st' : run_state) (g g' : G)
  (line : telemetry) :
  0 <= mu ->
  generation fitness_fn mu lambda_ mem_size tau n st g = Continue line st' g' ->
  len (population st') = Z.min mu (Z.max 0 lambda_).
Proof.
  intros Hmu Hgen. apply generation_Continue in Hgen.
  destruct Hgen as [offspring [offspring_fitnesses [average [Hrep [_ Hsel]]]]].
  apply breed_and_report_inv in Hrep.
  destruct Hrep as [fs [m [d [_ [Ho [Heo _]]]]]].
  apply make_offspring_len in Ho. apply evaluate_len in Heo.
  destruct (select_best_ok mu offspring offspring_fitnesses Heo Hmu)
    as [ranking [new_population [Hsel' [_ [_ [_ [Hlen _]]]]]]].
  rewrite Hsel in Hsel'. injection Hsel' as <-. rewrite Hlen, Ho. reflexivity.
Qed.

(** The loop body on well-formed parents: it ends the loop and keeps the
    parents, or it goes on with a well-formed selection of the offspring;
    the only exception is [OverflowError], raised before anything is
    printed. *)
Lemma generation_ok (n : Z) (st : run_state) (g : G) :
  2 <= mu -> 0 <= mem_size -> total_unless_overflow fitness_fn mem_size ->
  well_formed mu mem_size (population st) ->
  (exists line st' g',
     generation fitness_fn mu lambda_ mem_size tau n st g = Break line st' g'
     /\ population st' = population st)
  \/ (exists line st' g',
        generation fitness_fn mu lambda_ mem_size tau n st g
          = Continue line st' g'
        /\ well_formed (Z.min mu (Z.max 0 lambda_)) mem_size (population st'))
  \/ generation fitness_fn mu lambda_ mem_size tau n st g
       = Abort [] OverflowError.
Proof.
  intros Hmu HN Htotal Hwf.
  pose proof (breed_and_report_ok fitness_fn mu lambda_ mem_size tau n st g
                Hmu HN Htotal Hwf) as Hrep.
  unfold generation.
  destruct (breed_and_report _ _ _ _ _ _ _ _)
    as [[[[[[offspring offspring_fitnesses] evals] average] line] g'] | e];
    cbn [unless] in Hrep.
  - destruct Hrep as [Howf [Hfl _]].
    destruct (Rgtb average 0.99).
    + left. eexists _, _, _. split; reflexivity.
    + right. left.
      destruct (select_best_ok mu offspring offspring_fitnesses Hfl)
        as [ranking [new_population [Hsel [_ [_ [_ [Hlen Hin]]]]]]]; [lia |].
      rewrite Hsel. eexists _, _, _. split; [reflexivity |].
      cbn [population]. destruct Howf as [Hol Howf]. split.
      * rewrite Hlen, Hol. reflexivity.
      * rewrite Forall_forall in *. intros m Hm. apply Howf, Hin, Hm.
  - right. right. rewrite Hrep. reflexivity.
Qed.

(** The loop on well-formed parents, with at least as many offspring as
    parents: it ends with well-formed parents, and the only exception is
    [OverflowError]. *)
Lemma generations_ok (numbers : list Z) (st : run_state) (g : G) :
  2 <= mu <= lambda_ -> 0 <= mem_size ->
  total_unless_overflow fitness_fn mem_size ->
  well_formed mu mem_size (population st) ->
  unless overflow
    (snd (generations fitness_fn mu lambda_ mem_size tau numbers st g))
    (fun r => well_formed mu mem_size (population (fst r))).
Proof.
  intros Hmu HN Htotal. revert st g.
  induction numbers as [| n rest IH]; intros st g Hwf; cbn [generations].
  - exact Hwf.
  - destruct (generation_ok n st g)
      as [[line [st1 [g1 [Hgen Hpop]]]]
         | [[line [st1 [g1 [Hgen Hwf1]]]] | Hgen]];
      try assumption; try lia; rewrite Hgen.
    + cbn. rewrite Hpop. exact Hwf.
    + replace (Z.min mu (Z.max 0 lambda_)) with mu in Hwf1 by lia.
      specialize (IH st1 g1 Hwf1).
      destruct (generations _ _ _ _ _ rest st1 g1). exact IH.
    + reflexivity.
Qed.

(** A run on at least two parents, at least as many offspring and an
    evaluator that keeps its contract on floats returns [mu] well-formed
    members, and the only exception is [OverflowError]. *)
Lemma run_ok (max_gens : Z) (rng : G) :
  2 <= mu <= lambda_ -> 0 <= mem_size ->
  total_unless_overflow fitness_fn mem_size ->
  unless overflow
    (snd (evolution_strategy fitness_fn mu lambda_ mem_size mem_range sigma tau
            max_gens rng))
    (well_formed mu mem_size).
Proof.
  intros Hmu HN Htotal.
  destruct (start_ok rng) as [st0 [g0 [Hstart [_ Hwf]]]].
  replace (Z.max 0 mu) with mu in Hwf by lia.
  replace (Z.max 0 mem_size) with mem_size in Hwf by lia.
  pose proof (generations_ok (range 1 (max_gens + 1)) st0 g0 Hmu HN Htotal Hwf)
    as Hrun.
  unfold evolution_strategy. rewrite Hstart.
  destruct (generations _ _ _ _ _ _ st0 g0) as [lines [[st' g'] | e]];
    cbn [fst snd bind unless] in *; exact Hrun.
Qed.

(** The lines of a run and its evaluation count: the [k]-th line carries
    the [k]-th generation number and [k] times [mu + lambda_] evaluations
    more than the run started with; no generation prints twice. *)
Lemma generations_accounting (numbers : list Z) (st : run_state) (g : G)
  (lines : list telemetry) (r : result (run_state * G)) :
  generations fitness_fn mu lambda_ mem_size tau numbers st g = (lines, r) ->
  (length lines <= length numbers)%nat /\
  (forall k line, nth_error lines k = Some line ->
     nth_error numbers k = Some (t_generation line) /\
     t_evals line = cumulative_evals st + (Z.of_nat k + 1) * (mu + lambda_)) /\
  (forall st' g', r = Ok (st', g') ->
     cumulative_evals st' = cumulative_evals st + len lines * (mu + lambda_)).
Proof.
  revert st g lines r.
  induction numbers as [| n rest IH]; intros st g lines r Hrun;
    cbn [generations] in Hrun.
  - injection Hrun as <- <-. split; [cbn; lia |]. split.
    + intros k line Hk. destruct k; discriminate.
    + intros st' g' [= <- <-]. cbn. lia.
  - destruct (generation fitness_fn mu lambda_ mem_size tau n st g)
      as [line st1 g1 | line st1 g1 | printed e] eqn:Hgen.
    + destruct (generations _ _ _ _ _ rest st1 g1) as [lines1 r1] eqn:Hrest.
      injection Hrun as <- <-.
      destruct (generation_accounting _ _ _ _ _ _ _ _ _ _ _ (or_introl Hgen))
        as [He [Hle [Hln _]]].
      destruct (IH _ _ _ _ Hrest) as [Hlen [Hlines Hfinal]].
      split; [cbn [length]; lia |]. split.
      * intros [| k] l Hk; cbn [nth_error] in *.
        -- injection Hk as <-. split; [f_equal; symmetry; exact Hln | lia].
        -- destruct (Hlines k l Hk) as [Hn Hev]. split; [exact Hn | lia].
      * intros st' g' Hr. rewrite (Hfinal _ _ Hr). unfold len. cbn [length]. lia.
    + injection Hrun as <- <-.
      destruct (generation_accounting _ _ _ _ _ _ _ _ _ _ _ (or_intror Hgen))
        as [He [Hle [Hln _]]].
      split; [cbn [length]; lia |]. split.
      * intros [| [| k]] l Hk; cbn [nth_error] in *; try discriminate.
        injection Hk as <-. split; [f_equal; symmetry; exact Hln | lia].
      * intros st' g' [= <- <-]. rewrite He. unfold len. cbn [length]. lia.
    + injection Hrun as <- <-. unfold generation in Hgen.
      destruct (breed_and_report _ _ _ _ _ _ _ _)
        as [[[[[[offspring offspring_fitnesses] evals] average] l] g1] | e']
        eqn:Hrep.
      * destruct (Rgtb average 0.99); [discriminate |].
        destruct (select_best _ _ _); [discriminate |].
        injection Hgen as <- <-.
        apply breed_and_report_inv in Hrep.
        destruct Hrep as [fs [m [d [_ [_ [_ [_ [_ [_ [He ->]]]]]]]]]].
        split; [cbn [length]; lia |]. split; [| discriminate].
        intros [| [| k]] l' Hk; cbn [nth_error] in *; try discriminate.
        injection Hk as <-. cbn [t_generation t_evals].
        split; [reflexivity | lia].
      * injection Hgen as <- <-. split; [cbn [length]; lia |].
        split; [| discriminate]. intros k l Hk. destruct k; discriminate.
Qed.

End Run.

(** ** Evaluation on concrete inputs *)

Lemma py_sqrt_zero (x : R) : x = 0%R -> py_sqrt x = Ok 0%R.
Proof.
  intros ->. unfold py_sqrt. destruct (Rlt_dec 0 0); [lra |].
  rewrite sqrt_0. reflexivity.
Qed.

Lemma py_sqrt_square (c x : R) : (0 <= c)%R -> x = (c * c)%R -> py_sqrt x = Ok c.
Proof.
  intros Hc ->. unfold py_sqrt. destruct (Rlt_dec (c * c) 0); [nra |].
  rewrite sqrt_square by exact Hc. reflexivity.
Qed.

(** Computes everything but the operations on real numbers, which are
    settled one at a time by linear arithmetic. *)
Ltac crunch :=
  cbv -[Rplus Rmult Rminus Ropp Rinv Rdiv IZR Rgtb truediv py_sqrt py_exp
        libm_result exp sqrt pow].

Ltac settle :=
  match goal with
  | |- context [Rgtb ?a ?b] =>
      first [ rewrite (Rgtb_false a b) by lra | rewrite (Rgtb_true a b) by lra ]
  | |- context [truediv ?a ?b] => rewrite (truediv_ok a b) by lra
  | |- context [py_sqrt ?a] =>
      first [ rewrite (py_sqrt_zero a) by lra
            | rewrite (py_sqrt_square 1 a) by lra
            | rewrite (py_sqrt_square 2 a) by lra ]
  | |- context [py_exp ?a] =>
      first [ rewrite (py_exp_small a) by lra
            | rewrite (py_exp_overflow a) by lra
            | rewrite (py_exp_underflow a) by lra ]
  | |- context [libm_result ?a] =>
      first [ rewrite (libm_result_zero a) by lra
            | rewrite (libm_result_exact a) by lra ]
  end.

Ltac run := crunch; repeat (settle; crunch).

(** * The claims *)

(** ** C1: mutation *)



(** ** C2: the size of the population *)

Section PopulationSize.

Context {G : Type} `{Random G}.
Variable fitness_fn : Fitness.
Variables (mu lambda_ mem_size : Z) (mem_range : R * R) (sigma tau : R).
Variable max_gens : Z.
Hypothesis enough_offspring : 0 <= mu <= lambda_.

Lemma continue_size (n : Z) (st st' : run_state) (g g' : G) (line : telemetry) :
  generation fitness_fn mu lambda_ mem_size tau n st g = Continue line st' g' ->
  len (population st') = mu.
Proof.
  intros Hgen. apply generation_selects in Hgen; lia.
Qed.

Lemma start_size (g g' : G) (st : run_state) :
  start mu mem_size mem_range sigma g = Ok (st, g') ->
  len (population st) = mu.
Proof.
  intros Hstart.
  destruct (start_ok mu mem_size mem_range sigma g)
    as [st1 [g1 [Hs [_ [Hlen _]]]]].
  rewrite Hstart in Hs. injection Hs as <- <-. lia.
Qed.

Lemma generations_size (numbers : list Z) (st st' : run_state) (g g' : G)
  (lines : list telemetry) :
  generations fitness_fn mu lambda_ mem_size tau numbers st g
    = (lines, Ok (st', g')) ->
  len (population st) = mu -> len (population st') = mu.
Proof.
  revert st g lines. induction numbers as [| n rest IH];
    intros st g lines Hrun Hlen; cbn [generations] in Hrun.
  - injection Hrun as _ <- _. exact Hlen.
  - destruct (generation fitness_fn mu lambda_ mem_size tau n st g)
      as [line st1 g1 | line st1 g1 | printed e] eqn:Hgen.
    + destruct (generations _ _ _ _ _ rest st1 g1) as [lines1 r1] eqn:Hrest.
      injection Hrun as _ ->. eapply IH; [exact Hrest |].
      eapply continue_size, Hgen.
    + injection Hrun as _ <- _.
      unfold generation in Hgen.
      destruct (breed_and_report _ _ _ _ _ _ _ _)
        as [[[[[[o f] ev] av] l] g2] | e]; [| discriminate].
      destruct (Rgtb av 0.99); [| destruct (select_best _ _ _); discriminate].
      injection Hgen as _ <- _. exact Hlen.
    + discriminate.
Qed.

(** C2 (amended). When there are at least as many offspring as parents
    ([mu <= lambda_]), the population has exactly [mu] members at the top of
    every generation, again after every truncation selection, and when the
    engine returns. *)
Theorem population_size_invariant (rng0 : G) :
  (forall n st g,
     at_top fitness_fn mu lambda_ mem_size mem_range sigma tau max_gens rng0
       n st g ->
     len (population st) = mu) /\
  (forall n st g line st' g',
     generation fitness_fn mu lambda_ mem_size tau n st g
       = Continue line st' g' ->
     len (population st') = mu) /\
  (forall lines members,
     evolution_strategy fitness_fn mu lambda_ mem_size mem_range sigma tau
       max_gens rng0 = (lines, Ok members) ->
     len members = mu).
Proof.
  split; [| split].
  - intros n st g Htop. induction Htop as [st g Hstart _ | n st g line st' g' _ _ Hgen _].
    + eapply start_size, Hstart.
    + eapply continue_size, Hgen.
  - intros n st g line st' g' Hgen. eapply continue_size, Hgen.
  - intros lines members Hrun. unfold evolution_strategy in Hrun.
    destruct (start mu mem_size mem_range sigma rng0) as [[st0 g0] | e] eqn:Hstart;
      [| discriminate].
    destruct (generations _ _ _ _ _ _ st0 g0) as [lines' [[st' g'] | e]] eqn:Hgens;
      [| discriminate].
    cbn [bind fst] in Hrun. injection Hrun as _ <-.
    eapply generations_size; [exact Hgens |]. eapply start_size, Hstart.
Qed.

End PopulationSize.

Lemma population_size_invariant_witness :
  exists st g,
    at_top MaxOnes 2 3 1 (-10, 10)%R 0.1%R 0.1%R 5 zero_tape 2 st g /\
    len (population st) = 2.
Proof.
  assert (Htop : exists st g,
            at_top MaxOnes 2 3 1 (-10, 10)%R 0.1%R 0.1%R 5 zero_tape 2 st g).
  { eexists _, _.
    eapply (top_next MaxOnes 2 3 1 (-10, 10)%R 0.1%R 0.1%R 5 zero_tape 1).
    - apply top_first; [reflexivity | lia].
    - run. reflexivity.
    - lia. }
  destruct Htop as [st [g Htop]]. exists st, g. split; [exact Htop |].
  refine (proj1 (population_size_invariant MaxOnes 2 3 1 (-10, 10)%R 0.1%R 0.1%R
                   5 _ zero_tape) 2 st g Htop).
  lia.
Defined.

(** The claim as stated fails when [lambda_ < mu]: with 2 parents and 1
    child per generation, the second generation starts from 1 parent. *)
Lemma population_size_counterexample :
  valid_hyperparameters 2 1 1 (-10, 10)%R 0.1%R 2 /\
  exists st g,
    at_top MaxOnes 2 1 1 (-10, 10)%R 0.1%R 0.1%R 2 zero_tape 2 st g /\
    len (population st) = 1 /\ len (population st) <> 2.
Proof.
  split.
  { unfold valid_hyperparameters. cbn [fst snd]. repeat split; first [lia | lra]. }
  eexists _, _. split.
  - eapply (top_next MaxOnes 2 1 1 (-10, 10)%R 0.1%R 0.1%R 2 zero_tape 1).
    + apply top_first; [reflexivity | lia].
    + run. reflexivity.
    + lia.
  - split; [reflexivity | discriminate].
Qed.

(** ** C3: truncation selection *)

(** C3. When a generation goes on to the next one, the offspring are ranked
    by a permutation of their positions in which a child of greater fitness
    comes first and, among children of equal fitness, the child bred earlier
    (the order of a stable descending sort); the next parents are the
    children at the first [mu] positions of the ranking. When all offspring
    have the same fitness, the next parents are the first [mu] children in
    the order they were bred in. *)
Theorem truncation_selection {G : Type} `{Random G} (fitness_fn : Fitness)
  (mu lambda_ mem_size : Z) (tau : R) (n : Z) (st st' : run_state) (g g' : G)
  (line : telemetry) :
  0 <= mu ->
  generation fitness_fn mu lambda_ mem_size tau n st g = Continue line st' g' ->
  exists fitnesses offspring offspring_fitnesses ranking,
    make_offspring mu lambda_ mem_size tau (population st) fitnesses g
      = Ok (offspring, g') /\
    evaluate fitness_fn mem_size offspring = Ok offspring_fitnesses /\
    Permutation ranking (range 0 (len offspring)) /\
    StronglySorted (ranked_before offspring_fitnesses) ranking /\
    Forall2 (fun idx member => index offspring idx = Ok member)
      (firstn (Z.to_nat mu) ranking) (population st') /\
    ((forall f f', In f offspring_fitnesses -> In f' offspring_fitnesses ->
        f = f') ->
     population st' = firstn (Z.to_nat mu) offspring).
Proof.
  intros Hmu Hgen. apply generation_Continue in Hgen.
  destruct Hgen as [offspring [offspring_fitnesses [average [Hrep [_ Hsel]]]]].
  apply breed_and_report_inv in Hrep.
  destruct Hrep as [fitnesses [m [d [_ [Ho [Heo _]]]]]].
  pose proof (evaluate_len _ _ _ _ Heo) as Hlen.
  destruct (select_best_ok mu offspring offspring_fitnesses Hlen Hmu)
    as [ranking [chosen [Hsel' [Hperm [Hsorted [Hall _]]]]]].
  rewrite Hsel in Hsel'. injection Hsel' as <-.
  exists fitnesses, offspring, offspring_fitnesses, ranking.
  repeat (split; [assumption |]).
  intros Heq.
  pose proof (select_best_equal mu offspring offspring_fitnesses Hlen Hmu Heq)
    as Hfirst.
  rewrite Hsel in Hfirst. injection Hfirst as ->. reflexivity.
Qed.

Lemma truncation_selection_witness :
  exists line st' g' fitnesses offspring offspring_fitnesses ranking,
    generation MaxOnes 2 3 1 0.1%R 1
      {| population := [[1; 0.5]; [2; 0.5]]%R; cumulative_evals := 0 |}
      mixed_tape = Continue line st' g' /\
    make_offspring 2 3 1 0.1%R [[1; 0.5]; [2; 0.5]]%R fitnesses mixed_tape
      = Ok (offspring, g') /\
    evaluate MaxOnes 1 offspring = Ok offspring_fitnesses /\
    Permutation ranking (range 0 (len offspring)) /\
    StronglySorted (ranked_before offspring_fitnesses) ranking /\
    Forall2 (fun idx member => index offspring idx = Ok member)
      (firstn (Z.to_nat 2) ranking) (population st') /\
    ((forall f f', In f offspring_fitnesses -> In f' offspring_fitnesses ->
        f = f') ->
     population st' = firstn (Z.to_nat 2) offspring).
Proof.
  assert (Hgen : exists line st' g',
            generation MaxOnes 2 3 1 0.1%R 1
              {| population := [[1; 0.5]; [2; 0.5]]%R; cumulative_evals := 0 |}
              mixed_tape = Continue line st' g').
  { eexists _, _, _. run. reflexivity. }
  destruct Hgen as [line [st' [g' Hgen]]].
  destruct (truncation_selection MaxOnes 2 3 1 0.1%R 1 _ st' mixed_tape g' line
              ltac:(lia) Hgen)
    as [fitnesses [offspring [offspring_fitnesses [ranking Hspec]]]].
  exists line, st', g', fitnesses, offspring, offspring_fitnesses, ranking.
  split; [exact Hgen | exact Hspec].
Defined.

(** ** C4: tournament selection *)

(** C4. Among [mu >= 2] evaluated parents, a tournament makes one call
    [sample(range(mu), 2)], which yields two distinct indices [a], [b] below
    [mu], and selects the index of strictly higher fitness; on equal
    fitnesses it selects [a], the first of the two sampled indices. *)
Theorem tournament_selection {G : Type} `{RandomSpec G} (mu : Z)
  (fitnesses : list R) (g : G) :
  2 <= mu -> len fitnesses = mu ->
  exists a b fa fb winner g',
    sample (range 0 mu) 2 g = Ok ([a; b], g') /\
    a <> b /\ 0 <= a < mu /\ 0 <= b < mu /\
    index fitnesses a = Ok fa /\ index fitnesses b = Ok fb /\
    tournament mu fitnesses g = Ok (winner, g') /\
    ((fa > fb)%R -> winner = a) /\
    ((fb > fa)%R -> winner = b) /\
    (fa = fb -> winner = a).
Proof.
  intros Hmu Hlen.
  destruct (tournament_ok mu fitnesses g Hmu Hlen)
    as [a [b [fa [fb [g' [Hs [Hab [Ha [Hb [Hfa [Hfb Ht]]]]]]]]]]].
  exists a, b, fa, fb, (if Rgtb fb fa then b else a), g'.
  repeat (split; [assumption |]).
  destruct (Rgtb_spec fb fa) as [Hgt | Hle]; repeat split; intros; try reflexivity; lra.
Qed.

Lemma tournament_selection_witness :
  exists a b fa fb winner g',
    sample (range 0 3) 2 mixed_tape = Ok ([a; b], g') /\
    a <> b /\ 0 <= a < 3 /\ 0 <= b < 3 /\
    index [0.25; 0.5; 0.5]%R a = Ok fa /\ index [0.25; 0.5; 0.5]%R b = Ok fb /\
    tournament 3 [0.25; 0.5; 0.5]%R mixed_tape = Ok (winner, g') /\
    ((fa > fb)%R -> winner = a) /\
    ((fb > fa)%R -> winner = b) /\
    (fa = fb -> winner = a).
Proof.
  apply (tournament_selection 3 [0.25; 0.5; 0.5]%R mixed_tape).
  - lia.
  - reflexivity.
Defined.

(** ** C5: termination *)

Section Termination.

Context {G : Type} `{RandomSpec G}.
Variable fitness_fn : Fitness.
Variables (mu lambda_ mem_size : Z) (mem_range : R * R) (sigma tau : R).
Variable max_gens : Z.

Lemma at_top_bounds (rng0 : G) (n : Z) (st : run_state) (g : G) :
  at_top fitness_fn mu lambda_ mem_size mem_range sigma tau max_gens rng0 n st g ->
  1 <= n <= max_gens.
Proof. induction 1; lia. Qed.

(** The states [at_top] are the states the loop of the run goes through:
    the run is the lines printed before generation [n] followed by the loop
    from generation [n] on. *)
Lemma run_from_top (rng0 : G) (n : Z) (st : run_state) (g : G) :
  at_top fitness_fn mu lambda_ mem_size mem_range sigma tau max_gens rng0 n st g ->
  exists printed,
    len printed = n - 1 /\
    evolution_strategy fitness_fn mu lambda_ mem_size mem_range sigma tau
      max_gens rng0
    = (printed ++ fst (generations fitness_fn mu lambda_ mem_size tau
                         (range n (max_gens + 1)) st g),
       st' <- snd (generations fitness_fn mu lambda_ mem_size tau
                     (range n (max_gens + 1)) st g) ;;
       Ok (population (fst st'))).
Proof.
  induction 1 as [st g Hstart _ | n st g line st' g' Htop IH Hgen Hn].
  - exists []. split; [reflexivity |]. unfold evolution_strategy.
    rewrite Hstart. destruct (generations _ _ _ _ _ _ st g). reflexivity.
  - destruct IH as [printed [Hlen Hrun]]. exists (printed ++ [line]).
    split; [rewrite len_app; change (len [line]) with 1; lia |].
    rewrite Hrun, (range_cons n) by lia. cbn [generations]. rewrite Hgen.
    destruct (generations _ _ _ _ _ _ st' g'). cbn [fst snd].
    rewrite <- app_assoc. reflexivity.
Qed.

(** An exception that leaves the loop is the exception of one of its
    generations. *)
Lemma generations_raise (rng0 : G) (numbers : list Z) :
  forall n st g lines e,
    numbers = range n (max_gens + 1) ->
    (n <= max_gens ->
     at_top fitness_fn mu lambda_ mem_size mem_range sigma tau max_gens rng0
       n st g) ->
    generations fitness_fn mu lambda_ mem_size tau numbers st g
      = (lines, Raise e) ->
    exists n' st' g' printed,
      at_top fitness_fn mu lambda_ mem_size mem_range sigma tau max_gens rng0
        n' st' g' /\
      generation fitness_fn mu lambda_ mem_size tau n' st' g' = Abort printed e.
Proof.
  induction numbers as [| x rest IH]; intros n st g lines e Hnum Htop Hrun;
    cbn [generations] in Hrun; [discriminate |].
  assert (Hn : n <= max_gens).
  { destruct (Z.le_gt_cases n max_gens) as [Hle | Hgt]; [exact Hle |].
    rewrite range_empty in Hnum by lia. discriminate. }
  rewrite (range_cons n) in Hnum by lia. injection Hnum as -> ->.
  specialize (Htop Hn).
  destruct (generation fitness_fn mu lambda_ mem_size tau n st g)
    as [line st1 g1 | line st1 g1 | printed e'] eqn:Hgen.
  - destruct (generations _ _ _ _ _ _ st1 g1) as [lines1 r1] eqn:Hrest.
    injection Hrun as _ ->.
    apply (IH (n + 1) st1 g1 lines1 e eq_refl); [| exact Hrest].
    intros Hle. eapply top_next; [exact Htop | exact Hgen | lia].
  - discriminate.
  - injection Hrun as _ <-. exists n, st, g, printed. split; assumption.
Qed.

(** The engine raises nothing of its own: initialisation always succeeds,
    and an exception that leaves a run is the exception of a generation. *)
Lemma raised_in_generation (rng0 : G) (lines : list telemetry) (e : exn) :
  evolution_strategy fitness_fn mu lambda_ mem_size mem_range sigma tau
    max_gens rng0 = (lines, Raise e) ->
  exists n st g printed,
    at_top fitness_fn mu lambda_ mem_size mem_range sigma tau max_gens rng0
      n st g /\
    generation fitness_fn mu lambda_ mem_size tau n st g = Abort printed e.
Proof.
  intros Hrun. unfold evolution_strategy in Hrun.
  destruct (start_ok mu mem_size mem_range sigma rng0)
    as [st0 [g0 [Hstart _]]].
  rewrite Hstart in Hrun.
  destruct (generations _ _ _ _ _ _ st0 g0) as [lines' [[st' g'] | e']] eqn:Hgens;
    cbn [bind] in Hrun; [discriminate |].
  injection Hrun as _ <-.
  apply (generations_raise rng0 (range 1 (max_gens + 1)) 1 st0 g0 lines' e'
           eq_refl); [| exact Hgens].
  intros Hle. apply top_first; [exact Hstart | exact Hle].
Qed.

(** A loop body that has reached its [print] with a mean above 0.99 ends
    the loop and leaves the parents in place. *)
Lemma generation_stops (n : Z) (st : run_state) (g g' : G)
  (offspring : list individual) (offspring_fitnesses : list R) (evals : Z)
  (average : R) (line : telemetry) :
  breed_and_report fitness_fn mu lambda_ mem_size tau n st g
    = Ok (offspring, offspring_fitnesses, evals, average, line, g') ->
  (average > 0.99)%R ->
  generation fitness_fn mu lambda_ mem_size tau n st g
  = Break line {| population := population st; cumulative_evals := evals |} g'.
Proof.
  intros Hrep Hmean. unfold generation.
  rewrite Hrep, Rgtb_true by exact Hmean. reflexivity.
Qed.

(** On at least two well-formed parents whose mean fitness exceeds 0.99,
    the loop body ends the loop, unless a float result is out of range. *)
Lemma generation_stops_unless (n : Z) (st : run_state) (g : G)
  (fitnesses : list R) (average : R) :
  2 <= mu -> 0 <= mem_size -> total_unless_overflow fitness_fn mem_size ->
  well_formed mu mem_size (population st) ->
  evaluate fitness_fn mem_size (population st) = Ok fitnesses ->
  truediv (sum fitnesses) (IZR mu) = Ok average ->
  (average > 0.99)%R ->
  (exists line evals g',
     generation fitness_fn mu lambda_ mem_size tau n st g
     = Break line {| population := population st; cumulative_evals := evals |}
         g')
  \/ generation fitness_fn mu lambda_ mem_size tau n st g
     = Abort [] OverflowError.
Proof.
  intros Hmu HN Htotal Hwf He Havg Hmean.
  pose proof (breed_and_report_ok fitness_fn mu lambda_ mem_size tau n st g
                Hmu HN Htotal Hwf) as Hok.
  destruct (breed_and_report fitness_fn mu lambda_ mem_size tau n st g)
    as [[[[[[offspring offspring_fitnesses] evals] average'] line] g'] | e]
    eqn:Hrep; cbn [unless] in Hok.
  - left. exists line, evals, g'.
    apply (generation_stops n st g g' offspring offspring_fitnesses evals
             average' line Hrep).
    apply breed_and_report_inv in Hrep.
    destruct Hrep as [fs [m [d [He' [_ [_ [_ [Hdiv _]]]]]]]].
    rewrite He in He'. injection He' as <-.
    rewrite Havg in Hdiv. injection Hdiv as <-. exact Hmean.
  - right. unfold generation. rewrite Hrep, Hok. reflexivity.
Qed.

(** The loop body ends the loop exactly when the mean it printed exceeds
    0.99, and then it leaves the parents in place. *)
Lemma generation_mean (n : Z) (st st' : run_state) (g g' : G) (line : telemetry) :
  (generation fitness_fn mu lambda_ mem_size tau n st g = Break line st' g' ->
   (t_mean line > 0.99)%R /\ population st' = population st) /\
  (generation fitness_fn mu lambda_ mem_size tau n st g = Continue line st' g' ->
   ~ (t_mean line > 0.99)%R).
Proof.
  split; intros Hgen;
    [apply generation_Break in Hgen | apply generation_Continue in Hgen];
    destruct Hgen as [offspring [offspring_fitnesses [average [Hrep [Hstop Hpop]]]]];
    apply breed_and_report_inv in Hrep;
    destruct Hrep as [fs [m [d [_ [_ [_ [_ [_ [_ [_ ->]]]]]]]]]];
    cbn [t_mean]; destruct (Rgtb_spec average 0.99); try discriminate.
  - split; assumption.
  - assumption.
Qed.

(** C5 (amended). If a generation of a run reaches its [print] (breeding
    and evaluating its offspring and computing its statistics raised
    nothing) and the mean fitness of its parents, which it prints, exceeds
    0.99, the engine returns exactly these parents, having printed one line
    per generation up to this one: the offspring of the generation are not
    promoted. On at least two well-formed parents, with an evaluator that
    keeps its contract on floats, a generation whose parents have a mean
    fitness (the sum of their fitnesses divided by [mu], as line 48 computes
    it) above 0.99 reaches its [print] unless a float result is out of
    range: the engine returns these parents or raises [OverflowError].
    Whatever the hyperparameters, a generation that prints ends the loop
    exactly when the mean it prints exceeds 0.99, and then the state it
    leaves holds the parents. And no run prints more than [max_gens] lines,
    each for a generation number between 1 and [max_gens]. *)
Theorem early_stop_and_bound (rng0 : G) :
  (forall n st g offspring offspring_fitnesses evals average line g',
     at_top fitness_fn mu lambda_ mem_size mem_range sigma tau max_gens rng0
       n st g ->
     breed_and_report fitness_fn mu lambda_ mem_size tau n st g
       = Ok (offspring, offspring_fitnesses, evals, average, line, g') ->
     (average > 0.99)%R ->
     (exists fitnesses,
        evaluate fitness_fn mem_size (population st) = Ok fitnesses /\
        truediv (sum fitnesses) (IZR mu) = Ok average) /\
     t_mean line = average /\
     snd (evolution_strategy fitness_fn mu lambda_ mem_size mem_range sigma tau
            max_gens rng0) = Ok (population st) /\
     len (fst (evolution_strategy fitness_fn mu lambda_ mem_size mem_range
                 sigma tau max_gens rng0)) = n /\
     index (fst (evolution_strategy fitness_fn mu lambda_ mem_size mem_range
                   sigma tau max_gens rng0)) (-1) = Ok line) /\
  (forall n st g fitnesses average,
     2 <= mu -> 0 <= mem_size -> total_unless_overflow fitness_fn mem_size ->
     at_top fitness_fn mu lambda_ mem_size mem_range sigma tau max_gens rng0
       n st g ->
     well_formed mu mem_size (population st) ->
     evaluate fitness_fn mem_size (population st) = Ok fitnesses ->
     truediv (sum fitnesses) (IZR mu) = Ok average ->
     (average > 0.99)%R ->
     (snd (evolution_strategy fitness_fn mu lambda_ mem_size mem_range sigma
             tau max_gens rng0) = Ok (population st) /\
      len (fst (evolution_strategy fitness_fn mu lambda_ mem_size mem_range
                  sigma tau max_gens rng0)) = n)
     \/ (snd (evolution_strategy fitness_fn mu lambda_ mem_size mem_range sigma
                tau max_gens rng0) = Raise OverflowError /\
         len (fst (evolution_strategy fitness_fn mu lambda_ mem_size mem_range
                     sigma tau max_gens rng0)) = n - 1)) /\
  (forall n st g line st' g',
     (generation fitness_fn mu lambda_ mem_size tau n st g = Break line st' g' ->
      (t_mean line > 0.99)%R /\ population st' = population st) /\
     (generation fitness_fn mu lambda_ mem_size tau n st g
        = Continue line st' g' ->
      ~ (t_mean line > 0.99)%R)) /\
  len (fst (evolution_strategy fitness_fn mu lambda_ mem_size mem_range sigma
              tau max_gens rng0)) <= Z.max 0 max_gens /\
  Forall (fun line => 1 <= t_generation line <= max_gens)
    (fst (evolution_strategy fitness_fn mu lambda_ mem_size mem_range sigma
            tau max_gens rng0)).
Proof.
  split; [| split].
  - intros n st g offspring offspring_fitnesses evals average line g'
      Htop Hrep Hmean.
    destruct (run_from_top rng0 n st g Htop) as [printed [Hlen Hrun]].
    pose proof (at_top_bounds rng0 n st g Htop) as Hn.
    rewrite (range_cons n) in Hrun by lia. cbn [generations] in Hrun.
    rewrite (generation_stops n st g g' offspring offspring_fitnesses evals
               average line Hrep Hmean) in Hrun.
    cbn [fst snd bind population] in Hrun. rewrite Hrun. cbn [fst snd].
    apply breed_and_report_inv in Hrep.
    destruct Hrep as [fs [m [d [He [_ [_ [_ [Hdiv [_ [_ ->]]]]]]]]]].
    split; [exists fs; split; assumption |].
    split; [reflexivity |]. split; [reflexivity |]. split.
    + rewrite len_app. change (len [_]) with 1. lia.
    + apply index_last.
  - intros n st g fitnesses average Hmu HN Htotal Htop Hwf He Havg Hmean.
    destruct (run_from_top rng0 n st g Htop) as [printed [Hlen Hrun]].
    pose proof (at_top_bounds rng0 n st g Htop) as Hn.
    rewrite (range_cons n) in Hrun by lia. cbn [generations] in Hrun.
    destruct (generation_stops_unless n st g fitnesses average Hmu HN Htotal
                Hwf He Havg Hmean) as [[line [evals [g' Hgen]]] | Hgen];
      rewrite Hgen in Hrun; cbn [fst snd bind population] in Hrun;
      rewrite Hrun; cbn [fst snd]; [left | right];
      (split; [reflexivity |]).
    + rewrite len_app. change (len [line]) with 1. lia.
    + rewrite app_nil_r. exact Hlen.
  - split; [intros n st g line st' g'; apply generation_mean |].
    unfold evolution_strategy.
    destruct (start mu mem_size mem_range sigma rng0) as [[st0 g0] | e];
      [| cbn [fst]; split; [rewrite len_nil; lia | constructor]].
    destruct (generations _ _ _ _ _ _ st0 g0) as [lines r] eqn:Hgens.
    cbn [fst].
    destruct (generations_accounting _ _ _ _ _ _ _ _ _ _ Hgens)
      as [Hlen [Hlines _]].
    split.
    + pose proof (len_range 1 (max_gens + 1)) as Hr. unfold len in *. lia.
    + rewrite Forall_forall. intros line Hin.
      destruct (In_nth_error _ _ Hin) as [k Hk].
      destruct (Hlines k line Hk) as [Hnum _].
      apply nth_error_In, In_range in Hnum. lia.
Qed.

End Termination.

(** The Himmelblau and Rosenbrock evaluators keep the contract on floats
    for two genes, and the MaxOnes evaluator is total. *)
Lemma himmelblau_total : total_unless_overflow Himmelblau 2.
Proof.
  intros v Hv.
  destruct v as [| x [| y [| z v]]];
    try (unfold len in Hv; cbn [length] in Hv; lia).
  unfold fitness, Himmelblau. rewrite index_head, index_second. cbn [bind].
  eapply unless_bind; [apply py_pow_square |]. intros x2 _.
  eapply unless_bind; [apply py_pow_square |]. intros a [[Ha _] _].
  eapply unless_bind; [apply py_pow_square |]. intros y2 _.
  eapply unless_bind; [apply py_pow_square |]. intros b [[Hb _] _].
  cbn zeta. rewrite truediv_ok by lra. exact I.
Qed.

Lemma rosenbrock_total : total_unless_overflow Rosenbrock 2.
Proof.
  intros v Hv.
  destruct v as [| x [| y [| z v]]];
    try (unfold len in Hv; cbn [length] in Hv; lia).
  unfold fitness, Rosenbrock. rewrite index_head, index_second. cbn [bind].
  eapply unless_bind; [apply py_pow_square |]. intros a [[Ha _] _].
  eapply unless_bind; [apply py_pow_square |]. intros x2 _.
  eapply unless_bind; [apply py_pow_square |]. intros b [[Hb _] _].
  cbn zeta. rewrite truediv_ok by lra. exact I.
Qed.

Lemma maxones_total (mem_size : Z) : total_on MaxOnes mem_size.
Proof. intros v _. exists 0%R. reflexivity. Qed.

Lemma early_stop_and_bound_witness :
  exists st g line,
    at_top Himmelblau 2 3 2 (-10, 10)%R 0.1%R 0.1%R 10 optimum_tape 1 st g /\
    (t_mean line > 0.99)%R /\
    snd (evolution_strategy Himmelblau 2 3 2 (-10, 10)%R 0.1%R 0.1%R 10
           optimum_tape) = Ok (population st) /\
    len (fst (evolution_strategy Himmelblau 2 3 2 (-10, 10)%R 0.1%R 0.1%R 10
                optimum_tape)) = 1 /\
    index (fst (evolution_strategy Himmelblau 2 3 2 (-10, 10)%R 0.1%R 0.1%R 10
                  optimum_tape)) (-1) = Ok line.
Proof.
  assert (Hstart : exists st g,
            start 2 2 (-10, 10)%R 0.1%R optimum_tape = Ok (st, g)).
  { eexists _, _. reflexivity. }
  destruct Hstart as [st [g Hstart]].
  assert (Htop : at_top Himmelblau 2 3 2 (-10, 10)%R 0.1%R 0.1%R 10
                   optimum_tape 1 st g).
  { apply top_first; [exact Hstart | lia]. }
  injection Hstart as <- <-.
  assert (Hrep : exists offspring offspring_fitnesses evals average line g',
            breed_and_report Himmelblau 2 3 2 0.1%R 1
              {| population :=
                   [[-10 + (10 - -10) * 0.65; -10 + (10 - -10) * 0.6; 0.1];
                    [-10 + (10 - -10) * 0.65; -10 + (10 - -10) * 0.6; 0.1]]%R;
                 cumulative_evals := 0 |} {| units := []; picks := [] |}
            = Ok (offspring, offspring_fitnesses, evals, average, line, g')
            /\ (average > 0.99)%R).
  { eexists _, _, _, _, _, _. split; [run; reflexivity | lra]. }
  destruct Hrep
    as [offspring [offspring_fitnesses [evals [average [line [g' [Hrep Hmean]]]]]]].
  eexists _, _, line. split; [exact Htop |].
  destruct (proj1 (early_stop_and_bound Himmelblau 2 3 2 (-10, 10)%R 0.1%R
                     0.1%R 10 optimum_tape)
              1 _ _ offspring offspring_fitnesses evals average line g'
              Htop Hrep Hmean) as [_ [Hline [Hpop [Hlen Hlast]]]].
  split; [rewrite Hline; exact Hmean |].
  split; [exact Hpop |]. split; [exact Hlen | exact Hlast].
Defined.

(** The claim as stated fails for a single parent: with one parent at
    Himmelblau's optimum the mean fitness of the parents is 1, and the
    engine does not return them: the tournament of the first child raises
    [ValueError] before the termination check. *)
Lemma early_stop_and_bound_counterexample :
  valid_hyperparameters 1 1 2 (-10, 10)%R 0.1%R 10 /\
  exists st g fitnesses average,
    at_top Himmelblau 1 1 2 (-10, 10)%R 0.1%R 0.1%R 10 optimum_tape 1 st g /\
    evaluate Himmelblau 2 (population st) = Ok fitnesses /\
    truediv (sum fitnesses) (IZR 1) = Ok average /\
    (average > 0.99)%R /\
    evolution_strategy Himmelblau 1 1 2 (-10, 10)%R 0.1%R 0.1%R 10 optimum_tape
    = ([], Raise ValueError).
Proof.
  split.
  { unfold valid_hyperparameters. cbn [fst snd]. repeat split; first [lia | lra]. }
  eexists _, _, _, _. split; [apply top_first; [reflexivity | lia] |].
  split; [run; reflexivity |]. split; [run; reflexivity |]. split.
  - lra.
  - run. reflexivity.
Qed.

(** ** C6: the evaluation count *)

(** C6 (amended). The evaluation count starts at 0 and grows by
    [mu + lambda_] in every generation that reaches its [print], the one
    that ends the loop early included (the offspring are bred and evaluated
    before the termination check): the [k]-th line printed carries the
    generation number [k] and the count [k * (mu + lambda_)], and when the
    loop ends normally the count is the number of lines printed times
    [mu + lambda_]. *)
Theorem evaluation_count {G : Type} `{Random G} (fitness_fn : Fitness)
  (mu lambda_ mem_size : Z) (mem_range : R * R) (sigma tau : R) (max_gens : Z)
  (rng0 g0 : G) (st0 : run_state) (lines : list telemetry)
  (r : result (run_state * G)) :
  start mu mem_size mem_range sigma rng0 = Ok (st0, g0) ->
  generations fitness_fn mu lambda_ mem_size tau (range 1 (max_gens + 1)) st0 g0
    = (lines, r) ->
  cumulative_evals st0 = 0 /\
  fst (evolution_strategy fitness_fn mu lambda_ mem_size mem_range sigma tau
         max_gens rng0) = lines /\
  (forall k line, nth_error lines k = Some line ->
     t_generation line = Z.of_nat k + 1 /\
     t_evals line = (Z.of_nat k + 1) * (mu + lambda_)) /\
  (forall st' g', r = Ok (st', g') ->
     cumulative_evals st' = len lines * (mu + lambda_)).
Proof.
  intros Hstart Hgens.
  assert (Hzero : cumulative_evals st0 = 0).
  { unfold start in Hstart. invert_ok. reflexivity. }
  destruct (generations_accounting _ _ _ _ _ _ _ _ _ _ Hgens)
    as [Hlen [Hlines Hfinal]].
  split; [exact Hzero |]. split; [| split].
  - unfold evolution_strategy. rewrite Hstart, Hgens. reflexivity.
  - intros k line Hk. destruct (Hlines k line Hk) as [Hnum Hev].
    split; [| lia].
    rewrite nth_error_range in Hnum.
    + assert (1 + Z.of_nat k = t_generation line) by congruence. lia.
    + assert (Hkl : (k < length lines)%nat) by (apply nth_error_Some; congruence).
      pose proof (len_range 1 (max_gens + 1)) as Hr. unfold len in Hr. lia.
  - intros st' g' Hr. rewrite (Hfinal st' g' Hr). lia.
Qed.

Lemma evaluation_count_witness :
  exists lines r,
    generations MaxOnes 2 3 1 0.1%R (range 1 (2 + 1))
      {| population := [[-10 + (10 - -10) * 0; 0.1]; [-10 + (10 - -10) * 0; 0.1]]%R;
         cumulative_evals := 0 |} zero_tape = (lines, r) /\
    fst (evolution_strategy MaxOnes 2 3 1 (-10, 10)%R 0.1%R 0.1%R 2 zero_tape)
      = lines /\
    (forall k line, nth_error lines k = Some line ->
       t_generation line = Z.of_nat k + 1 /\
       t_evals line = (Z.of_nat k + 1) * (2 + 3)) /\
    (forall st' g', r = Ok (st', g') ->
       cumulative_evals st' = len lines * (2 + 3)).
Proof.
  assert (Hgens : exists p,
            generations MaxOnes 2 3 1 0.1%R (range 1 (2 + 1))
              {| population := [[-10 + (10 - -10) * 0; 0.1];
                                [-10 + (10 - -10) * 0; 0.1]]%R;
                 cumulative_evals := 0 |} zero_tape = p).
  { eexists. reflexivity. }
  destruct Hgens as [[lines r] Hgens]. exists lines, r.
  split; [exact Hgens |].
  apply (evaluation_count MaxOnes 2 3 1 (-10, 10)%R 0.1%R 0.1%R 2 zero_tape
           zero_tape
           {| population := [[-10 + (10 - -10) * 0; 0.1];
                             [-10 + (10 - -10) * 0; 0.1]]%R;
              cumulative_evals := 0 |} lines r).
  - reflexivity.
  - exact Hgens.
Defined.

(** The claim as stated fails at an early stop: with 2 parents at
    Himmelblau's optimum and 3 children, the first generation ends the loop
    with 5 evaluations counted, not the 2 of the parents alone. *)
Lemma evaluation_count_counterexample :
  exists st0 g0 line st' g',
    start 2 2 (-10, 10)%R 0.1%R optimum_tape = Ok (st0, g0) /\
    generation Himmelblau 2 3 2 0.1%R 1 st0 g0 = Break line st' g' /\
    generations Himmelblau 2 3 2 0.1%R (range 1 (10 + 1)) st0 g0
      = ([line], Ok (st', g')) /\
    t_evals line = 5 /\ cumulative_evals st' = 5 /\
    cumulative_evals st' <> 0 * (2 + 3) + 2.
Proof.
  assert (Hbreak : exists line st' g',
            generation Himmelblau 2 3 2 0.1%R 1
              {| population :=
                   [[-10 + (10 - -10) * 0.65; -10 + (10 - -10) * 0.6; 0.1];
                    [-10 + (10 - -10) * 0.65; -10 + (10 - -10) * 0.6; 0.1]]%R;
                 cumulative_evals := 0 |} {| units := []; picks := [] |}
            = Break line st' g' /\ t_evals line = 5 /\ cumulative_evals st' = 5).
  { eexists _, _, _. split; [run; reflexivity |]. split; reflexivity. }
  destruct Hbreak as [line [st' [g' [Hbreak [Hline Hst]]]]].
  exists {| population :=
              [[-10 + (10 - -10) * 0.65; -10 + (10 - -10) * 0.6; 0.1];
               [-10 + (10 - -10) * 0.65; -10 + (10 - -10) * 0.6; 0.1]]%R;
            cumulative_evals := 0 |}, {| units := []; picks := [] |},
    line, st', g'.
  split; [reflexivity |]. split; [exact Hbreak |]. split.
  - rewrite (range_cons 1) by lia. cbn [generations]. rewrite Hbreak. reflexivity.
  - split; [exact Hline |]. split; [exact Hst | lia].
Qed.


(** ** C7: no operation fails *)




(** ** C8: malformed hyperparameters *)

(** [max(xs)] over no element. *)
Lemma generation_without_parents {G : Type} `{RandomSpec G}
  (fitness_fn : Fitness) (mu lambda_ mem_size : Z) (tau : R) (n evals : Z)
  (g : G) :
  mu <= 0 ->
  generation fitness_fn mu lambda_ mem_size tau n
    {| population := []; cumulative_evals := evals |} g = Abort [] ValueError.
Proof.
  intros Hmu. unfold generation, breed_and_report.
  cbn [population evaluate comprehension]. unfold bindM at 1. cbn [lift].
  unfold bindM at 1. unfold make_offspring.
  destruct (Z.lt_ge_cases 0 lambda_) as [Hpos | Hneg].
  - rewrite (range_cons 0) by lia. cbn [for_eachM].
    unfold bindM at 1. unfold bindM at 1. unfold tournament at 1.
    unfold bindM at 1. rewrite sample_raises; [reflexivity |].
    right. rewrite len_range. lia.
  - rewrite range_empty by lia. cbn [for_eachM]. unfold ret.
    unfold bindM at 1. cbn [lift evaluate comprehension].
    unfold bindM at 1. reflexivity.
Qed.

(** C8 (amended). The engine checks no hyperparameter and raises no error of
    its own: initialisation succeeds whatever the hyperparameters are, and
    an exception that leaves a run is the exception of an operation of one
    of its generations. With [max_gens <= 0] the engine returns the initial
    population and prints nothing, whatever the other hyperparameters are.
    The gene range, sigma and tau are never looked at: whatever they are (an
    inverted range and a non-positive tau included), a run with
    [2 <= mu <= lambda_], a non-negative gene count and an evaluator that
    keeps its contract on floats returns [mu] members or raises
    [OverflowError], as a run with valid hyperparameters does. With
    [mu <= 0] and at least one generation, the first generation raises
    [ValueError] ([sample] from an empty range or, without offspring, [max]
    of no fitness) before any line is printed. *)
Theorem no_validation {G : Type} `{RandomSpec G} (fitness_fn : Fitness)
  (mu lambda_ mem_size : Z) (mem_range : R * R) (sigma tau : R) (max_gens : Z)
  (rng : G) :
  (exists members rng',
     init_population mu mem_size mem_range sigma rng = Ok (members, rng')) /\
  (forall lines e,
     evolution_strategy fitness_fn mu lambda_ mem_size mem_range sigma tau
       max_gens rng = (lines, Raise e) ->
     exists n st g printed,
       at_top fitness_fn mu lambda_ mem_size mem_range sigma tau max_gens rng
         n st g /\
       generation fitness_fn mu lambda_ mem_size tau n st g = Abort printed e) /\
  (max_gens <= 0 ->
   exists members rng',
     init_population mu mem_size mem_range sigma rng = Ok (members, rng') /\
     evolution_strategy fitness_fn mu lambda_ mem_size mem_range sigma tau
       max_gens rng = ([], Ok members)) /\
  (2 <= mu <= lambda_ -> 0 <= mem_size ->
   total_unless_overflow fitness_fn mem_size ->
   (exists members,
      snd (evolution_strategy fitness_fn mu lambda_ mem_size mem_range sigma
             tau max_gens rng) = Ok members /\
      well_formed mu mem_size members)
   \/ snd (evolution_strategy fitness_fn mu lambda_ mem_size mem_range sigma
             tau max_gens rng) = Raise OverflowError) /\
  (mu <= 0 -> 1 <= max_gens ->
   evolution_strategy fitness_fn mu lambda_ mem_size mem_range sigma tau
     max_gens rng = ([], Raise ValueError)).
Proof.
  destruct (init_population_ok mem_size mem_range sigma mu rng)
    as [members [rng' [Hinit [[Hlen _] _]]]].
  split; [exists members, rng'; exact Hinit |].
  split; [intros lines e; apply raised_in_generation |].
  split; [| split].
  - intros Hgens. exists members, rng'. split; [exact Hinit |].
    unfold evolution_strategy, start.
    rewrite Hinit, range_empty by lia. reflexivity.
  - intros Hmu HN Htotal.
    pose proof (run_ok fitness_fn mu lambda_ mem_size mem_range sigma tau
                  max_gens rng Hmu HN Htotal) as Hrun.
    destruct (snd (evolution_strategy _ _ _ _ _ _ _ _ _)) as [ms | e];
      cbn [unless] in Hrun.
    + left. exists ms. split; [reflexivity | exact Hrun].
    + right. rewrite Hrun. reflexivity.
  - intros Hmu Hgens.
    assert (members = []) as ->.
    { destruct members; [reflexivity |]. unfold len in Hlen. cbn [length] in Hlen. lia. }
    unfold evolution_strategy, start. rewrite Hinit. cbn [bind fst snd].
    rewrite (range_cons 1) by lia. cbn [generations].
    rewrite generation_without_parents by exact Hmu. reflexivity.
Qed.

Lemma no_validation_witness :
  (exists members rng',
     init_population 15 2 (-10, 10)%R 0.1%R zero_tape = Ok (members, rng') /\
     evolution_strategy Himmelblau 15 100 2 (-10, 10)%R 0.1%R 0.1%R 0 zero_tape
     = ([], Ok members)) /\
  ((exists members,
      snd (evolution_strategy Himmelblau 15 100 2 (10, -10)%R 0.1%R (-0.1)%R
             1000 zero_tape) = Ok members /\
      well_formed 15 2 members)
   \/ snd (evolution_strategy Himmelblau 15 100 2 (10, -10)%R 0.1%R (-0.1)%R
             1000 zero_tape) = Raise OverflowError) /\
  evolution_strategy Himmelblau (-3) 100 2 (-10, 10)%R 0.1%R 0.1%R 1000 zero_tape
  = ([], Raise ValueError).
Proof.
  split; [| split].
  - apply (proj1 (proj2 (proj2 (no_validation Himmelblau 15 100 2 (-10, 10)%R
                                  0.1%R 0.1%R 0 zero_tape)))). lia.
  - apply (proj1 (proj2 (proj2 (proj2 (no_validation Himmelblau 15 100 2
                                         (10, -10)%R 0.1%R (-0.1)%R 1000
                                         zero_tape)))));
      [lia | lia | apply himmelblau_total].
  - apply (proj2 (proj2 (proj2 (proj2 (no_validation Himmelblau (-3) 100 2
                                         (-10, 10)%R 0.1%R 0.1%R 1000
                                         zero_tape))))); lia.
Defined.

(** The claim as stated fails: no generation at all, an inverted gene
    range or a negative tau raise nothing, and the engine returns
    normally. *)
Lemma no_validation_counterexample :
  (~ valid_hyperparameters 2 2 1 (-10, 10)%R 0.1%R 0 /\
   exists members,
     evolution_strategy MaxOnes 2 2 1 (-10, 10)%R 0.1%R 0.1%R 0 zero_tape
     = ([], Ok members)) /\
  (~ valid_hyperparameters 2 2 1 (10, -10)%R (-0.1)%R 1 /\
   exists lines members,
     evolution_strategy MaxOnes 2 2 1 (10, -10)%R 0.1%R (-0.1)%R 1 zero_tape
     = (lines, Ok members)).
Proof.
  split; split.
  - unfold valid_hyperparameters. lia.
  - eexists. reflexivity.
  - unfold valid_hyperparameters. cbn [fst snd]. lra.
  - eexists _, _. run. reflexivity.
Qed.

(** ** C9: diversity *)

(** C9 (amended). For [mu] well-formed parents, the diversity that a
    generation computes and prints is the largest of the distances that
    line 52 computes for the pairs of parents from their gene vectors only
    (sigma left out); it is at least 0, and it is 0 when all parents have the
    same gene vector. When a square overflows, [**] raises [OverflowError]
    and no diversity is computed. The distance of line 52 is the Euclidean
    distance of the two gene vectors when the sum of the squares is in the
    range of doubles and no square underflows. When this is so for every two
    parents, the diversity is computed, it is the largest Euclidean distance
    between two parents, and it is 0 exactly when all parents have the same
    gene vector. *)
Theorem diversity_reported {G : Type} `{Random G} (mu mem_size : Z)
  (parents : list individual) :
  0 <= mem_size ->
  well_formed mu mem_size parents ->
  (diversity_of mu mem_size parents = Raise OverflowError
   \/ exists d,
     diversity_of mu mem_size parents = Ok d /\
     (forall fitness_fn lambda_ tau n evals (g : G) line st' g',
        generation fitness_fn mu lambda_ mem_size tau n
          {| population := parents; cumulative_evals := evals |} g
          = Continue line st' g'
        \/ generation fitness_fn mu lambda_ mem_size tau n
             {| population := parents; cumulative_evals := evals |} g
           = Break line st' g' ->
        t_diversity line = d) /\
     (0 <= d)%R /\
     (forall i j pi pj, 0 <= i < j -> j < mu ->
        index parents i = Ok pi -> index parents j = Ok pj ->
        exists dist,
          distance mem_size parents i j = Ok dist /\
          (0 <= dist <= d)%R /\
          (no_overflow (genes_of mem_size pi) (genes_of mem_size pj) ->
           no_underflow (genes_of mem_size pi) (genes_of mem_size pj) ->
           dist = euclid (genes_of mem_size pi) (genes_of mem_size pj))) /\
     (2 <= mu -> exists i j,
        0 <= i < j /\ j < mu /\ distance mem_size parents i j = Ok d) /\
     ((forall p q, In p parents -> In q parents ->
         genes_of mem_size p = genes_of mem_size q) -> d = 0%R)) /\
  ((forall p q, In p parents -> In q parents ->
      no_overflow (genes_of mem_size p) (genes_of mem_size q) /\
      no_underflow (genes_of mem_size p) (genes_of mem_size q)) ->
   exists d,
     diversity_of mu mem_size parents = Ok d /\
     (forall i j pi pj, 0 <= i < j -> j < mu ->
        index parents i = Ok pi -> index parents j = Ok pj ->
        distance mem_size parents i j
        = Ok (euclid (genes_of mem_size pi) (genes_of mem_size pj)) /\
        (euclid (genes_of mem_size pi) (genes_of mem_size pj) <= d)%R) /\
     (2 <= mu -> exists i j pi pj,
        0 <= i < j /\ j < mu /\
        index parents i = Ok pi /\ index parents j = Ok pj /\
        d = euclid (genes_of mem_size pi) (genes_of mem_size pj)) /\
     (d = 0%R <-> forall p q, In p parents -> In q parents ->
                    genes_of mem_size p = genes_of mem_size q)).
Proof.
  intros HN [Hlen Hwf].
  assert (Hmember : forall i p, index parents i = Ok p ->
            In p parents /\ len p = mem_size + 1).
  { intros i p Hp. apply index_In in Hp. split; [exact Hp |].
    rewrite Forall_forall in Hwf. apply Hwf, Hp. }
  assert (Hparent : forall i, 0 <= i < mu -> exists pi, index parents i = Ok pi).
  { intros i Hi. destruct (index_nth _ parents i) as [pi [Hpi _]]; [lia |].
    exists pi. exact Hpi. }
  assert (Hfirst : diversity_of mu mem_size parents = Raise OverflowError
    \/ exists d,
      diversity_of mu mem_size parents = Ok d /\
      (0 <= d)%R /\
      (forall i j pi pj, 0 <= i < j -> j < mu ->
         index parents i = Ok pi -> index parents j = Ok pj ->
         exists dist,
           distance mem_size parents i j = Ok dist /\
           (0 <= dist <= d)%R /\
           (no_underflow (genes_of mem_size pi) (genes_of mem_size pj) ->
            dist = euclid (genes_of mem_size pi) (genes_of mem_size pj))) /\
      (2 <= mu -> exists i j,
         0 <= i < j /\ j < mu /\ distance mem_size parents i j = Ok d) /\
      ((forall p q, In p parents -> In q parents ->
          genes_of mem_size p = genes_of mem_size q) -> d = 0%R)).
  { pose proof (diversity_max mu mem_size parents HN Hlen Hwf) as Hmax.
    destruct (diversity_of mu mem_size parents) as [d | e] eqn:Hd;
      cbn [unless] in Hmax; [right | left; rewrite Hmax; reflexivity].
    destruct Hmax as [Hge [Hbound [Hatt [_ Hsame]]]].
    exists d. split; [reflexivity |]. split; [exact Hge |].
    split; [| split; [exact Hatt | exact Hsame]].
    intros i j pi pj Hi Hj Hpi Hpj.
    destruct (Hbound i j Hi Hj) as [dist [Hdist Hle]].
    exists dist. split; [exact Hdist |]. split; [exact Hle |].
    pose proof (distance_ok mem_size parents i j pi pj HN Hpi Hpj
                  (proj2 (Hmember i pi Hpi)) (proj2 (Hmember j pj Hpj))) as Hok.
    rewrite Hdist in Hok. cbn [unless] in Hok. apply Hok. }
  split.
  { destruct Hfirst as [Hraise | [d [Hd [Hge [Hpair [Hatt Hsame]]]]]];
      [left; exact Hraise | right].
    exists d. split; [exact Hd |]. split.
    { intros fitness_fn lambda_ tau n evals g line st' g' Hgen.
      apply generation_accounting in Hgen. destruct Hgen as [_ [_ [_ Hline]]].
      cbn [population] in Hline. rewrite Hd in Hline. injection Hline as ->.
      reflexivity. }
    split; [exact Hge |]. split; [| split; [exact Hatt | exact Hsame]].
    intros i j pi pj Hi Hj Hpi Hpj.
    destruct (Hpair i j pi pj Hi Hj Hpi Hpj) as [dist [Hdist [Hle Heq]]].
    exists dist. split; [exact Hdist |]. split; [exact Hle |].
    intros _. exact Heq. }
  intros Hfar.
  destruct (diversity_computed mu mem_size parents) as [d Hd].
  { intros i j Hi Hj.
    destruct (Hparent i) as [pi Hpi]; [lia |].
    destruct (Hparent j) as [pj Hpj]; [lia |].
    apply (distance_computed mem_size parents i j pi pj HN Hpi Hpj
             (proj2 (Hmember i pi Hpi)) (proj2 (Hmember j pj Hpj))).
    apply Hfar; [apply (Hmember i pi Hpi) | apply (Hmember j pj Hpj)]. }
  destruct Hfirst as [Hraise | [d' [Hd' [Hge [Hpair [Hatt Hsame]]]]]];
    [rewrite Hd in Hraise; discriminate |].
  rewrite Hd in Hd'. injection Hd' as <-.
  assert (Hexact : forall i j pi pj, 0 <= i < j -> j < mu ->
            index parents i = Ok pi -> index parents j = Ok pj ->
            distance mem_size parents i j
            = Ok (euclid (genes_of mem_size pi) (genes_of mem_size pj))
            /\ (euclid (genes_of mem_size pi) (genes_of mem_size pj) <= d)%R).
  { intros i j pi pj Hi Hj Hpi Hpj.
    destruct (Hpair i j pi pj Hi Hj Hpi Hpj) as [dist [Hdist [Hle Heq]]].
    rewrite <- Heq
      by (apply Hfar; [apply (Hmember i pi Hpi) | apply (Hmember j pj Hpj)]).
    split; [exact Hdist | lra]. }
  exists d. split; [exact Hd |]. split; [exact Hexact |]. split.
  - intros Hmu. destruct (Hatt Hmu) as [i [j [Hi [Hj Hdist]]]].
    destruct (Hparent i) as [pi Hpi]; [lia |].
    destruct (Hparent j) as [pj Hpj]; [lia |].
    exists i, j, pi, pj. repeat (split; [assumption |]).
    destruct (Hexact i j pi pj Hi Hj Hpi Hpj) as [Hdist' _].
    rewrite Hdist in Hdist'. injection Hdist' as ->. reflexivity.
  - split; [| exact Hsame].
    intros Hzero p q Hp Hq.
    assert (Hlt : forall i j pi pj, 0 <= i < j -> j < mu ->
              index parents i = Ok pi -> index parents j = Ok pj ->
              genes_of mem_size pi = genes_of mem_size pj).
    { intros i j pi pj Hi Hj Hpi Hpj.
      destruct (Hexact i j pi pj Hi Hj Hpi Hpj) as [_ Hle].
      apply euclid_zero.
      - rewrite !(len_genes mem_size)
          by first [assumption | apply (Hmember i pi Hpi)
                   | apply (Hmember j pj Hpj)].
        reflexivity.
      - pose proof (euclid_nonneg (genes_of mem_size pi) (genes_of mem_size pj)).
        lra. }
    destruct (In_nth_error _ _ Hp) as [i Hi].
    destruct (In_nth_error _ _ Hq) as [j Hj].
    pose proof (nth_error_index _ _ _ _ Hi) as Hpi.
    pose proof (nth_error_index _ _ _ _ Hj) as Hpj.
    assert (Hib : (i < length parents)%nat) by (apply nth_error_Some; congruence).
    assert (Hjb : (j < length parents)%nat) by (apply nth_error_Some; congruence).
    unfold len in Hlen.
    destruct (Nat.lt_trichotomy i j) as [Hij | [Heq | Hji]].
    + apply (Hlt (Z.of_nat i) (Z.of_nat j)); first [assumption | lia].
    + subst j. congruence.
    + symmetry. apply (Hlt (Z.of_nat j) (Z.of_nat i)); first [assumption | lia].
Qed.

Lemma diversity_reported_witness :
  exists d,
    diversity_of 2 1 [[1; 0.5]; [2; 0.5]]%R = Ok d /\
    d = 1%R /\
    (forall i j pi pj, 0 <= i < j -> j < 2 ->
       index [[1; 0.5]; [2; 0.5]]%R i = Ok pi ->
       index [[1; 0.5]; [2; 0.5]]%R j = Ok pj ->
       exists dist,
         distance 1 [[1; 0.5]; [2; 0.5]]%R i j = Ok dist /\
         (0 <= dist <= d)%R /\
         (no_overflow (genes_of 1 pi) (genes_of 1 pj) ->
          no_underflow (genes_of 1 pi) (genes_of 1 pj) ->
          dist = euclid (genes_of 1 pi) (genes_of 1 pj))).
Proof.
  assert (Hd : diversity_of 2 1 [[1; 0.5]; [2; 0.5]]%R = Ok 1%R)
    by (run; reflexivity).
  exists 1%R. split; [exact Hd |]. split; [reflexivity |].
  destruct (diversity_reported (G := tape) 2 1 [[1; 0.5]; [2; 0.5]]%R)
    as [[Hraise | [d [Hd' [_ [_ [Hpair _]]]]]] _].
  - lia.
  - split; [reflexivity | repeat constructor].
  - rewrite Hd in Hraise. discriminate.
  - rewrite Hd in Hd'. injection Hd' as <-. exact Hpair.
Defined.

(** The claim as stated fails: two parents whose genes differ by [2^-600]
    do not have the same gene vector, and the diversity computed for them is
    0, because the square of the difference is too small for a double. *)
Lemma diversity_reported_counterexample :
  well_formed 2 1 close_parents /\
  diversity_of 2 1 close_parents = Ok 0%R /\
  ~ (forall p q, In p close_parents -> In q close_parents ->
       genes_of 1 p = genes_of 1 q).
Proof.
  split; [split; [reflexivity | repeat constructor] |]. split.
  - assert (Hsq : py_pow (/ 2 ^ 600 - 0) 2 = Ok 0%R).
    { unfold py_pow.
      assert (Hpos : (0 <= (/ 2 ^ 600 - 0) ^ 2)%R) by apply pow2_ge_0.
      assert (Hsmall : ((/ 2 ^ 600 - 0) ^ 2 <= double_underflow)%R).
      { unfold double_underflow. rewrite Rminus_0_r, pow_inv, <- pow_mult.
        apply Rinv_le_contravar; [apply IZR_lt; reflexivity |].
        rewrite pow_IZR. apply IZR_le. apply Z.leb_le. vm_compute. reflexivity. }
      pose proof double_overflow_big. pose proof double_underflow_small.
      destruct (libm_result_cases _ Hpos) as [[_ Ho] | [[Hz _] | [_ Hm]]];
        [lra | exact Hz | lra]. }
    unfold diversity_of, close_parents. crunch.
    change (libm_result ((/ 2 ^ 600 - 0) ^ 2)) with (py_pow (/ 2 ^ 600 - 0) 2).
    rewrite Hsq. run. reflexivity.
  - intros Hsame.
    specialize (Hsame [/ 2 ^ 600; 0.5]%R [0; 0.5]%R
                  (or_introl eq_refl) (or_intror (or_introl eq_refl))).
    cbv [genes_of slice_to Z.leb Z.compare Z.to_nat Pos.to_nat Pos.iter_op
         Nat.add firstn] in Hsame.
    injection Hsame as Hsame.
    assert (Hpos : (0 < / 2 ^ 600)%R) by (apply Rinv_0_lt_compat, pow_lt; lra).
    lra.
Qed.

(** The diversity of two parents at distance 1, computed. *)
Example diversity_example :
  diversity_of 2 1 [[1; 0.5]; [2; 0.5]]%R = Ok 1%R.
Proof. run. reflexivity. Qed.

(** * Further properties of the code *)

(** ** Initialisation ([init_population], lines 5-14) *)

Section Initialisation.

Context {G : Type} `{Random G}.
Variables (lo hi sigma : R).

Lemma after_uniform_add (a b : nat) (g : G) :
  after_uniform lo hi b (after_uniform lo hi a g) = after_uniform lo hi (a + b) g.
Proof.
  unfold after_uniform. rewrite Nat.add_comm. symmetry. apply Nat.iter_add.
Qed.

(** The inner loop (lines 9-11): [n] genes, drawn one after the other. *)
Lemma init_genes (mem_size : Z) (g : G) :
  for_eachM (range 0 mem_size) (fun _ member =>
      gene <~ draw (uniform lo hi) ;;
      ret (member ++ [gene])) [] g
  = Ok (map (uniform_draw lo hi g) (seq 0 (Z.to_nat mem_size)),
        after_uniform lo hi (Z.to_nat mem_size) g).
Proof.
  destruct (for_eachM_rule G Z (list R)
    (fun pre member g' =>
       member = map (uniform_draw lo hi g) (seq 0 (length pre)) /\
       g' = after_uniform lo hi (length pre) g)
    (fun _ member =>
       gene <~ draw (uniform lo hi) ;;
       ret (member ++ [gene]))
    (range 0 mem_size)) with (s := @nil R) (g := g)
    as [member [g' [Hrun [Hmember Hg']]]].
  - intros pre x post member g0 _ [-> ->]. unfold bindM, draw, ret.
    destruct (uniform lo hi (after_uniform lo hi (length pre) g))
      as [gene g1] eqn:Hu.
    eexists _, _. split; [reflexivity |].
    rewrite length_app, Nat.add_1_r, seq_S, map_app. cbn [map Nat.add].
    unfold uniform_draw at 3. rewrite Hu. split; [reflexivity |].
    change (after_uniform lo hi (S (length pre)) g)
      with (snd (uniform lo hi (after_uniform lo hi (length pre) g))).
    rewrite Hu. reflexivity.
  - split; reflexivity.
  - rewrite Hrun, Hmember, Hg'.
    replace (length (range 0 mem_size)) with (Z.to_nat mem_size); [reflexivity |].
    pose proof (len_range 0 mem_size) as Hl. unfold len in Hl. lia.
Qed.

(** The member that initialisation builds at position [i]. *)
Let member_at (mem_size : Z) (g : G) (i : nat) : individual :=
  map (fun k => uniform_draw lo hi g (i * Z.to_nat mem_size + k))
      (seq 0 (Z.to_nat mem_size)) ++ [sigma].

(** Lines 5-14 in closed form. *)
Lemma init_population_closed (pop_size mem_size : Z) (g : G) :
  init_population pop_size mem_size (lo, hi) sigma g
  = Ok (map (fun i =>
               map (fun k => uniform_draw lo hi g (i * Z.to_nat mem_size + k))
                 (seq 0 (Z.to_nat mem_size)) ++ [sigma])
          (seq 0 (Z.to_nat pop_size)),
        after_uniform lo hi (Z.to_nat pop_size * Z.to_nat mem_size) g).
Proof.
  unfold init_population. cbn [fst snd].
  destruct (for_eachM_rule G Z (list individual)
    (fun pre members g' =>
       members = map (member_at mem_size g) (seq 0 (length pre)) /\
       g' = after_uniform lo hi (length pre * Z.to_nat mem_size) g)
    (fun _ members =>
       member <~ for_eachM (range 0 mem_size) (fun _ member =>
                   gene <~ draw (uniform lo hi) ;;
                   ret (member ++ [gene])) [] ;;
       ret (members ++ [member ++ [sigma]]))
    (range 0 pop_size)) with (s := @nil individual) (g := g)
    as [members [g' [Hrun [Hmembers Hg']]]].
  - intros pre x post members g0 _ [-> ->].
    unfold bindM at 1. rewrite init_genes. unfold ret.
    eexists _, _. split; [reflexivity |].
    rewrite length_app, Nat.add_1_r, seq_S, map_app. cbn [map Nat.add].
    split.
    + f_equal. unfold member_at. apply (f_equal (fun m => [m])).
      apply (f_equal (fun l => l ++ [sigma])). apply map_ext. intros k.
      unfold uniform_draw. rewrite after_uniform_add. reflexivity.
    + rewrite after_uniform_add. f_equal. lia.
  - split; reflexivity.
  - etransitivity; [exact Hrun |]. rewrite Hmembers, Hg'.
    replace (length (range 0 pop_size)) with (Z.to_nat pop_size); [reflexivity |].
    pose proof (len_range 0 pop_size) as Hl. unfold len in Hl. lia.
Qed.

Lemma after_uniform_inv (Inv : G -> Prop) :
  (forall g, Inv g -> Inv (snd (uniform lo hi g))) ->
  forall k g, Inv g -> Inv (after_uniform lo hi k g).
Proof.
  intros Hstep k g Hg. induction k as [| k IH]; [exact Hg |].
  change (after_uniform lo hi (S k) g)
    with (snd (uniform lo hi (after_uniform lo hi k g))).
  apply Hstep, IH.
Qed.

Lemma genes_of_member (mem_size : Z) (genes : list R) :
  length genes = Z.to_nat mem_size ->
  genes_of mem_size (genes ++ [sigma]) = genes.
Proof.
  intros Hlen. unfold genes_of, slice_to.
  destruct (Z.leb_spec 0 mem_size).
  - rewrite <- Hlen, firstn_app, Nat.sub_diag, firstn_all. cbn. apply app_nil_r.
  - destruct genes; [| cbn [length] in Hlen; lia].
    rewrite len_app. cbn [app]. change (len [sigma]) with 1.
    change (len (@nil R)) with 0.
    replace (Z.to_nat (0 + 1 + mem_size)) with 0%nat by lia. reflexivity.
Qed.

(** X1. Initialisation never raises. It builds [pop_size] members (none for
    a non-positive size), each made of [mem_size] genes followed by the
    initial sigma; the genes are the successive draws [uniform(lo, hi)] of
    the generator, member after member and gene after gene, and the
    generator is left after [pop_size * mem_size] draws. *)
Theorem init_population_draws (pop_size mem_size : Z) (g : G) :
  exists members g',
    init_population pop_size mem_size (lo, hi) sigma g = Ok (members, g') /\
    len members = Z.max 0 pop_size /\
    (forall i member, nth_error members i = Some member ->
       len member = Z.max 0 mem_size + 1 /\
       index member (-1) = Ok sigma /\
       forall k, (k < Z.to_nat mem_size)%nat ->
         nth_error member k
         = Some (uniform_draw lo hi g (i * Z.to_nat mem_size + k))) /\
    g' = after_uniform lo hi (Z.to_nat pop_size * Z.to_nat mem_size) g.
Proof.
  eexists _, _. split; [apply init_population_closed |].
  split; [unfold len; rewrite length_map, length_seq; lia |].
  split; [| reflexivity].
  intros i member Hi. rewrite nth_error_map in Hi.
  destruct (nth_error (seq 0 (Z.to_nat pop_size)) i) as [i' |] eqn:Hseq;
    [| discriminate].
  assert (i' = i) as ->.
  { rewrite nth_error_seq in Hseq.
    destruct (Nat.ltb_spec i (Z.to_nat pop_size)); [| discriminate].
    injection Hseq as <-. reflexivity. }
  cbn [option_map] in Hi. injection Hi as <-. split; [| split].
  - rewrite len_app. unfold len. rewrite length_map, length_seq.
    cbn [length]. lia.
  - apply index_last.
  - intros k Hk. rewrite nth_error_app1 by (rewrite length_map, length_seq; exact Hk).
    rewrite nth_error_map, nth_error_seq.
    destruct (Nat.ltb_spec k (Z.to_nat mem_size)); [reflexivity | lia].
Qed.

(** X2. If every draw [uniform(lo, hi)] of the generator lies between [lo]
    and [hi] (the documented range of [random.uniform] for [lo <= hi]; [Inv]
    is what the generator states must satisfy for it), then every gene of
    every initial member lies in the gene range. *)
Theorem init_population_in_range (Inv : G -> Prop) (pop_size mem_size : Z)
  (g g' : G) (members : list individual) :
  (forall g0, Inv g0 ->
     (lo <= fst (uniform lo hi g0) <= hi)%R /\ Inv (snd (uniform lo hi g0))) ->
  Inv g ->
  init_population pop_size mem_size (lo, hi) sigma g = Ok (members, g') ->
  Forall (fun member =>
            Forall (fun gene => (lo <= gene <= hi)%R)
              (genes_of mem_size member)) members /\
  Inv g'.
Proof.
  intros Hdraw Hg Hinit. rewrite init_population_closed in Hinit.
  injection Hinit as <- <-.
  assert (Hinv : forall k, Inv (after_uniform lo hi k g)).
  { intros k. apply after_uniform_inv; [| exact Hg].
    intros g0 Hg0. apply Hdraw, Hg0. }
  split; [| apply Hinv].
  rewrite Forall_forall. intros member Hin. apply in_map_iff in Hin.
  destruct Hin as [i [<- _]].
  rewrite genes_of_member by (rewrite length_map, length_seq; reflexivity).
  rewrite Forall_forall. intros gene Hgene. apply in_map_iff in Hgene.
  destruct Hgene as [k [<- _]]. unfold uniform_draw. apply Hdraw, Hinv.
Qed.

End Initialisation.

Lemma unit_tape_uniform (lo hi : R) (t : tape) :
  (lo <= hi)%R -> unit_tape t ->
  (lo <= fst (uniform lo hi t) <= hi)%R /\ unit_tape (snd (uniform lo hi t)).
Proof.
  intros Hle Ht. unfold unit_tape in *. cbn. unfold next_unit.
  destruct (units t) as [| u us] eqn:Hu; cbn [fst snd].
  - rewrite Hu. split; [lra | constructor].
  - inversion Ht as [| ? ? Hu0 Hus]; subst. cbn [units].
    split; [nra | exact Hus].
Qed.

Lemma init_population_in_range_witness :
  exists members g',
    init_population 2 2 (-10, 10)%R 0.1%R optimum_tape = Ok (members, g') /\
    Forall (fun member =>
              Forall (fun gene => (-10 <= gene <= 10)%R) (genes_of 2 member))
      members /\
    unit_tape g'.
Proof.
  eexists _, _. split; [reflexivity |].
  apply (init_population_in_range (-10) 10 0.1%R unit_tape 2 2 optimum_tape).
  - intros t Ht. apply unit_tape_uniform; [lra | exact Ht].
  - unfold unit_tape, optimum_tape. cbn [units]. repeat constructor; lra.
  - reflexivity.
Defined.

(** ** What every individual of a run keeps *)

Lemma select_best_members (mu : Z) (offspring : list individual)
  (offspring_fitnesses : list R) (chosen : list individual) :
  select_best mu offspring offspring_fitnesses = Ok chosen ->
  Forall (fun member => In member offspring) chosen.
Proof.
  unfold select_best. intros Hsel. apply comprehension_inv in Hsel.
  induction Hsel as [| idx m idxs ms Hm _ IH]; constructor.
  - eapply index_In, Hm.
  - exact IH.
Qed.

Section Kept.

Context {G : Type} `{Random G}.
Variable fitness_fn : Fitness.
Variables (mu lambda_ mem_size : Z) (mem_range : R * R) (sigma tau : R).
Variable max_gens : Z.

(** A property of individuals that the initial members have and that
    mutation hands from a parent to its child. *)
Variable Q : individual -> Prop.
Hypothesis mem_size_nonneg : 0 <= mem_size.
Hypothesis Q_initial : forall m,
  len m = mem_size + 1 -> index m (-1) = Ok sigma -> Q m.
Hypothesis Q_child : forall parent child (g g' : G),
  len parent = mem_size + 1 -> Q parent ->
  mutation_of mem_size tau parent child g g' -> Q child.

Let kept (m : individual) : Prop := len m = mem_size + 1 /\ Q m.

Lemma offspring_kept (parents : list individual) (fitnesses : list R)
  (g g' : G) (offspring : list individual) :
  Forall kept parents ->
  make_offspring mu lambda_ mem_size tau parents fitnesses g
    = Ok (offspring, g') ->
  Forall kept offspring.
Proof.
  intros Hparents Hrun.
  assert (Hwf : Forall (fun p => len p = mem_size + 1) parents).
  { eapply Forall_impl; [| exact Hparents]. intros m [Hm _]. exact Hm. }
  destruct (make_offspring_bred mu lambda_ mem_size tau parents fitnesses
              g g' offspring mem_size_nonneg Hwf Hrun) as [_ Hbred].
  eapply Forall_impl; [| exact Hbred].
  intros child [parent_idx [parent [g0 [g1 [g2 [_ [Hp Hm]]]]]]].
  apply index_In in Hp. rewrite Forall_forall in Hparents.
  destruct (Hparents parent Hp) as [Hlen HQ]. split.
  - destruct Hm as [s [_ [Hcl _]]]. exact Hcl.
  - eapply Q_child; eassumption.
Qed.

Lemma generation_kept (n : Z) (st st' : run_state) (g g' : G) (line : telemetry) :
  Forall kept (population st) ->
  generation fitness_fn mu lambda_ mem_size tau n st g = Continue line st' g' ->
  Forall kept (population st').
Proof.
  intros Hpop Hgen. apply generation_Continue in Hgen.
  destruct Hgen as [offspring [offspring_fitnesses [average [Hrep [_ Hsel]]]]].
  apply breed_and_report_inv in Hrep.
  destruct Hrep as [fs [m [d [_ [Ho _]]]]].
  pose proof (offspring_kept _ _ _ _ _ Hpop Ho) as Hoff.
  apply select_best_members in Hsel.
  rewrite Forall_forall in *. intros member Hin. apply Hoff, Hsel, Hin.
Qed.

Lemma start_kept (g g' : G) (st : run_state) :
  start mu mem_size mem_range sigma g = Ok (st, g') ->
  Forall kept (population st).
Proof.
  intros Hstart. unfold start in Hstart.
  destruct (init_population_ok mem_size mem_range sigma mu g)
    as [members [g1 [Hinit [[_ Hwf] Hsig]]]].
  rewrite Hinit in Hstart. cbn [bind fst snd] in Hstart.
  injection Hstart as <- <-. cbn [population].
  rewrite Forall_forall in *. intros m Hm.
  specialize (Hwf m Hm). specialize (Hsig m Hm).
  replace (Z.max 0 mem_size) with mem_size in Hwf by lia.
  split; [exact Hwf | apply Q_initial; assumption].
Qed.

Lemma at_top_kept (rng0 : G) (n : Z) (st : run_state) (g : G) :
  at_top fitness_fn mu lambda_ mem_size mem_range sigma tau max_gens rng0 n st g ->
  Forall kept (population st).
Proof.
  induction 1 as [st g Hstart _ | n st g line st' g' _ IH Hgen _].
  - eapply start_kept, Hstart.
  - eapply generation_kept; eassumption.
Qed.

Lemma generations_kept (numbers : list Z) (st st' : run_state) (g g' : G)
  (lines : list telemetry) :
  Forall kept (population st) ->
  generations fitness_fn mu lambda_ mem_size tau numbers st g
    = (lines, Ok (st', g')) ->
  Forall kept (population st').
Proof.
  revert st g lines. induction numbers as [| n rest IH];
    intros st g lines Hpop Hrun; cbn [generations] in Hrun.
  - injection Hrun as _ <- _. exact Hpop.
  - destruct (generation fitness_fn mu lambda_ mem_size tau n st g)
      as [line st1 g1 | line st1 g1 | printed e] eqn:Hgen.
    + destruct (generations _ _ _ _ _ rest st1 g1) as [lines1 r1] eqn:Hrest.
      injection Hrun as _ ->. eapply IH; [| exact Hrest].
      eapply generation_kept; eassumption.
    + injection Hrun as _ <- _. apply generation_Break in Hgen.
      destruct Hgen as [_ [_ [_ [_ [_ Hsame]]]]]. rewrite Hsame. exact Hpop.
    + discriminate.
Qed.

Lemma returned_kept (rng0 : G) (lines : list telemetry)
  (members : list individual) :
  evolution_strategy fitness_fn mu lambda_ mem_size mem_range sigma tau
    max_gens rng0 = (lines, Ok members) ->
  Forall kept members.
Proof.
  intros Hrun. unfold evolution_strategy in Hrun.
  destruct (start mu mem_size mem_range sigma rng0) as [[st0 g0] | e] eqn:Hstart;
    [| discriminate].
  destruct (generations _ _ _ _ _ _ st0 g0) as [lines' [[st' g'] | e]] eqn:Hgens;
    [| discriminate].
  cbn [bind fst] in Hrun. injection Hrun as _ <-.
  eapply generations_kept; [| exact Hgens]. eapply start_kept, Hstart.
Qed.

End Kept.

(** X3. For a non-negative gene count and whatever the sizes [mu] and
    [lambda_] are, every individual of a run has exactly [mem_size] genes
    and a sigma: the parents at the top of every generation, the offspring
    bred from them, and the members of the population returned. *)
Theorem member_length_invariant {G : Type} `{Random G} (fitness_fn : Fitness)
  (mu lambda_ mem_size : Z) (mem_range : R * R) (sigma tau : R) (max_gens : Z)
  (rng0 : G) :
  0 <= mem_size ->
  (forall n st g,
     at_top fitness_fn mu lambda_ mem_size mem_range sigma tau max_gens rng0
       n st g ->
     Forall (fun m => len m = mem_size + 1) (population st) /\
     forall fitnesses offspring g',
       make_offspring mu lambda_ mem_size tau (population st) fitnesses g
         = Ok (offspring, g') ->
       Forall (fun m => len m = mem_size + 1) offspring) /\
  (forall lines members,
     evolution_strategy fitness_fn mu lambda_ mem_size mem_range sigma tau
       max_gens rng0 = (lines, Ok members) ->
     Forall (fun m => len m = mem_size + 1) members).
Proof.
  intros HN.
  assert (Hweak : forall l : list individual,
            Forall (fun m => len m = mem_size + 1 /\ True) l ->
            Forall (fun m => len m = mem_size + 1) l).
  { intros l Hl. eapply Forall_impl; [| exact Hl]. intros m [Hm _]. exact Hm. }
  split.
  - intros n st g Htop.
    pose proof (at_top_kept fitness_fn mu lambda_ mem_size mem_range sigma tau
                  max_gens (fun _ => True) HN (fun _ _ _ => I)
                  (fun _ _ _ _ _ _ _ => I) rng0 n st g Htop) as Hpop.
    split; [apply Hweak, Hpop |].
    intros fitnesses offspring g' Ho. apply Hweak.
    eapply (offspring_kept mu lambda_ mem_size tau (fun _ => True) HN
              (fun _ _ _ _ _ _ _ => I)); eassumption.
  - intros lines members Hrun. apply Hweak.
    eapply (returned_kept fitness_fn mu lambda_ mem_size mem_range sigma tau
              max_gens (fun _ => True) HN (fun _ _ _ => I)
              (fun _ _ _ _ _ _ _ => I)); eassumption.
Qed.

Lemma member_length_invariant_witness :
  exists lines members,
    evolution_strategy MaxOnes 3 2 1 (-10, 10)%R 0.1%R 0.1%R 1 zero_tape
      = (lines, Ok members) /\
    Forall (fun m => len m = 1 + 1) members.
Proof.
  assert (Hrun : exists lines members,
            evolution_strategy MaxOnes 3 2 1 (-10, 10)%R 0.1%R 0.1%R 1 zero_tape
            = (lines, Ok members)).
  { eexists _, _. run. reflexivity. }
  destruct Hrun as [lines [members Hrun]]. exists lines, members.
  split; [exact Hrun |].
  refine (proj2 (member_length_invariant MaxOnes 3 2 1 (-10, 10)%R 0.1%R 0.1%R
                   1 zero_tape _) lines members Hrun).
  lia.
Defined.

(** X4. A sigma is never negative: in a run with a non-negative gene count
    and a non-negative initial sigma, the sigma (last entry) of every parent
    at the top of every generation and of every member of the population
    returned is not below 0, since a sigma is only ever multiplied by what
    [math.exp] returns. (It can become 0: see [sigma_collapse].) *)
Theorem sigma_never_negative {G : Type} `{Random G} (fitness_fn : Fitness)
  (mu lambda_ mem_size : Z) (mem_range : R * R) (sigma tau : R) (max_gens : Z)
  (rng0 : G) :
  0 <= mem_size -> ~ (sigma < 0)%R ->
  (forall n st g,
     at_top fitness_fn mu lambda_ mem_size mem_range sigma tau max_gens rng0
       n st g ->
     Forall (fun m => exists s, index m (-1) = Ok s /\ ~ (s < 0)%R)
       (population st)) /\
  (forall lines members,
     evolution_strategy fitness_fn mu lambda_ mem_size mem_range sigma tau
       max_gens rng0 = (lines, Ok members) ->
     Forall (fun m => exists s, index m (-1) = Ok s /\ ~ (s < 0)%R) members).
Proof.
  intros HN Hsigma.
  set (Q := fun m : individual => exists s, index m (-1) = Ok s /\ ~ (s < 0)%R).
  assert (Hinit : forall m, len m = mem_size + 1 -> index m (-1) = Ok sigma -> Q m).
  { intros m _ Hm. exists sigma. split; assumption. }
  assert (Hchild : forall parent child (g g' : G),
            len parent = mem_size + 1 -> Q parent ->
            mutation_of mem_size tau parent child g g' -> Q child).
  { intros parent child g g' _ [s [Hs Hpos]]
      [sv [Hsv [_ [_ [[e [Hexp Hc]] [Hlast _]]]]]].
    rewrite Hs in Hsv. injection Hsv as <-.
    eexists. split; [rewrite Hlast; exact Hc |].
    pose proof (py_exp_value
      (tau * fst (gauss 0 1 (after_gauss s (Z.to_nat mem_size) g)))) as Hval.
    rewrite Hexp in Hval. cbn [unless] in Hval. destruct Hval as [[He _] _].
    nra. }
  assert (Hweak : forall l : list individual,
            Forall (fun m => len m = mem_size + 1 /\ Q m) l -> Forall Q l).
  { intros l Hl. eapply Forall_impl; [| exact Hl]. intros m [_ Hm]. exact Hm. }
  split.
  - intros n st g Htop. apply Hweak.
    eapply (at_top_kept fitness_fn mu lambda_ mem_size mem_range sigma tau
              max_gens Q HN Hinit Hchild); eassumption.
  - intros lines members Hrun. apply Hweak.
    eapply (returned_kept fitness_fn mu lambda_ mem_size mem_range sigma tau
              max_gens Q HN Hinit Hchild); eassumption.
Qed.

Lemma sigma_never_negative_witness :
  exists lines members,
    evolution_strategy MaxOnes 2 3 1 (0, 4)%R 0.1%R 0.1%R 1 mixed_tape
      = (lines, Ok members) /\
    Forall (fun m => exists s, index m (-1) = Ok s /\ ~ (s < 0)%R) members.
Proof.
  assert (Hrun : exists lines members,
            evolution_strategy MaxOnes 2 3 1 (0, 4)%R 0.1%R 0.1%R 1 mixed_tape
            = (lines, Ok members)).
  { eexists _, _. run. reflexivity. }
  destruct Hrun as [lines [members Hrun]]. exists lines, members.
  split; [exact Hrun |].
  refine (proj2 (sigma_never_negative MaxOnes 2 3 1 (0, 4)%R 0.1%R 0.1%R
                   1 mixed_tape _ _) lines members Hrun); [lia | lra].
Defined.

(** A positive sigma does not stay positive: with tau = 2000 and a draw
    [gauss(0, 1)] of -1, [math.exp] returns 0 and the first child has
    sigma 0. *)
Example sigma_collapse :
  exists offspring g',
    make_offspring 2 1 1 2000%R [[0; 0.1]; [0; 0.1]]%R [0; 0]%R
      {| units := [0; -1]%R; picks := [] |} = Ok (offspring, g') /\
    offspring = [[0 + (0 + 0 * 0.1); 0.1 * 0]]%R.
Proof. eexists _, _. split; [run; reflexivity | reflexivity]. Qed.

(** ** The statistics of a generation (lines 47-48) *)

Lemma max_from_greatest (best : R) (rest : list R) (m : R) :
  max_from (fun x => Ok x) best best rest = Ok m ->
  In m (best :: rest) /\ forall x, In x (best :: rest) -> (x <= m)%R.
Proof.
  revert best. induction rest as [| y rest IH]; intros best Hmax;
    cbn [max_from bind] in Hmax.
  - injection Hmax as <-. split; [left; reflexivity |].
    intros x [<- | []]. lra.
  - destruct (Rgtb_spec y best) as [Hgt | Hle]; apply IH in Hmax;
      destruct Hmax as [Hin Hall]; split.
    + destruct Hin as [<- | Hin]; [right; left; reflexivity | right; right; exact Hin].
    + intros x [<- | [<- | Hx]].
      * specialize (Hall y (or_introl eq_refl)). lra.
      * apply Hall. left. reflexivity.
      * apply Hall. right. exact Hx.
    + destruct Hin as [<- | Hin]; [left; reflexivity | right; right; exact Hin].
    + intros x [<- | [<- | Hx]].
      * apply Hall. left. reflexivity.
      * specialize (Hall best (or_introl eq_refl)). lra.
      * apply Hall. right. exact Hx.
Qed.

Lemma py_max_greatest (xs : list R) (m : R) :
  py_max xs = Ok m -> In m xs /\ forall x, In x xs -> (x <= m)%R.
Proof.
  destruct xs as [| x xs]; [discriminate |].
  unfold py_max, max_by. cbn [bind]. apply max_from_greatest.
Qed.

(** X5. The best fitness a generation prints is the fitness of one of its
    parents and no parent's fitness is greater; the mean it prints is what
    the division of the sum of the parents' fitnesses by [mu] returned. *)
Theorem best_and_mean {G : Type} `{Random G} (fitness_fn : Fitness)
  (mu lambda_ mem_size : Z) (tau : R) (n : Z) (st st' : run_state) (g g' : G)
  (line : telemetry) :
  generation fitness_fn mu lambda_ mem_size tau n st g = Continue line st' g'
  \/ generation fitness_fn mu lambda_ mem_size tau n st g = Break line st' g' ->
  exists fitnesses,
    evaluate fitness_fn mem_size (population st) = Ok fitnesses /\
    In (t_best line) fitnesses /\
    (forall f, In f fitnesses -> (f <= t_best line)%R) /\
    truediv (sum fitnesses) (IZR mu) = Ok (t_mean line).
Proof.
  intros Hgen.
  assert (Hrep : exists offspring offspring_fitnesses evals average,
            breed_and_report fitness_fn mu lambda_ mem_size tau n st g
            = Ok (offspring, offspring_fitnesses, evals, average, line, g')).
  { destruct Hgen as [Hgen | Hgen];
      [apply generation_Continue in Hgen | apply generation_Break in Hgen];
      destruct Hgen as [o [f [a [Hrep _]]]]; eexists _, _, _, _; exact Hrep. }
  destruct Hrep as [offspring [offspring_fitnesses [evals [average Hrep]]]].
  apply breed_and_report_inv in Hrep.
  destruct Hrep as [fitnesses [m [d [He [_ [_ [Hmax [Hdiv [_ [_ ->]]]]]]]]]].
  cbn [t_best t_mean]. exists fitnesses. split; [exact He |].
  apply py_max_greatest in Hmax. destruct Hmax as [Hin Hall].
  split; [exact Hin |]. split; [exact Hall | exact Hdiv].
Qed.

Lemma best_and_mean_witness :
  exists line st' g' fitnesses,
    generation Himmelblau 2 3 2 0.1%R 1
      {| population := [[3; 2; 0.1]; [3; 2; 0.1]]%R; cumulative_evals := 0 |}
      zero_tape = Break line st' g' /\
    evaluate Himmelblau 2 [[3; 2; 0.1]; [3; 2; 0.1]]%R = Ok fitnesses /\
    In (t_best line) fitnesses /\
    (forall f, In f fitnesses -> (f <= t_best line)%R) /\
    truediv (sum fitnesses) (IZR 2) = Ok (t_mean line).
Proof.
  assert (Hgen : exists line st' g',
            generation Himmelblau 2 3 2 0.1%R 1
              {| population := [[3; 2; 0.1]; [3; 2; 0.1]]%R;
                 cumulative_evals := 0 |} zero_tape = Break line st' g').
  { eexists _, _, _. run. reflexivity. }
  destruct Hgen as [line [st' [g' Hgen]]].
  destruct (best_and_mean Himmelblau 2 3 2 0.1%R 1 _ st' zero_tape g' line
              (or_intror Hgen)) as [fitnesses Hspec].
  exists line, st', g', fitnesses. split; [exact Hgen | exact Hspec].
Defined.

(** ** Who survives truncation (lines 61-66) *)

Lemma StronglySorted_across (A : Type) (RA : A -> A -> Prop) (l1 l2 : list A) :
  StronglySorted RA (l1 ++ l2) ->
  forall a b, In a l1 -> In b l2 -> RA a b.
Proof.
  induction l1 as [| x l1 IH]; intros Hs a b Ha Hb; [destruct Ha |].
  cbn [app] in Hs. apply StronglySorted_inv in Hs. destruct Hs as [Hs Hx].
  destruct Ha as [<- | Ha].
  - rewrite Forall_forall in Hx. apply Hx, in_or_app. right. exact Hb.
  - apply IH; assumption.
Qed.

(** X6. The strategy is a comma strategy: when a generation goes on, every
    next parent is a child bred in this generation from one of the current
    parents by tournament and mutation (no current parent is carried over
    as such), and the next parents are children at pairwise distinct
    positions of the offspring list. *)
Theorem survivors_are_offspring {G : Type} `{Random G} (fitness_fn : Fitness)
  (mu lambda_ mem_size : Z) (tau : R) (n : Z) (st st' : run_state) (g g' : G)
  (line : telemetry) :
  0 <= mu -> 0 <= mem_size ->
  Forall (fun p => len p = mem_size + 1) (population st) ->
  generation fitness_fn mu lambda_ mem_size tau n st g = Continue line st' g' ->
  exists fitnesses offspring positions,
    evaluate fitness_fn mem_size (population st) = Ok fitnesses /\
    make_offspring mu lambda_ mem_size tau (population st) fitnesses g
      = Ok (offspring, g') /\
    NoDup positions /\
    Forall2 (fun idx member => index offspring idx = Ok member)
      positions (population st') /\
    Forall (bred_from mu mem_size tau (population st) fitnesses)
      (population st').
Proof.
  intros Hmu HN Hwf Hgen. apply generation_Continue in Hgen.
  destruct Hgen as [offspring [offspring_fitnesses [average [Hrep [_ Hsel]]]]].
  apply breed_and_report_inv in Hrep.
  destruct Hrep as [fitnesses [m [d [He [Ho [Heo _]]]]]].
  pose proof (evaluate_len _ _ _ _ Heo) as Hlen.
  destruct (select_best_ok mu offspring offspring_fitnesses Hlen Hmu)
    as [ranking [chosen [Hsel' [Hperm [_ [Hall [_ Hin]]]]]]].
  rewrite Hsel in Hsel'. injection Hsel' as <-.
  exists fitnesses, offspring, (firstn (Z.to_nat mu) ranking).
  split; [exact He |]. split; [exact Ho |]. split; [| split].
  - apply firstn_NoDup.
    eapply Permutation_NoDup; [symmetry; exact Hperm | apply NoDup_range].
  - exact Hall.
  - destruct (make_offspring_bred mu lambda_ mem_size tau (population st)
                fitnesses g g' offspring HN Hwf Ho) as [_ Hbred].
    rewrite Forall_forall in *. intros member Hm. apply Hbred, Hin, Hm.
Qed.

Lemma survivors_are_offspring_witness :
  exists line st' g' fitnesses offspring positions,
    generation MaxOnes 2 3 1 0.1%R 1
      {| population := [[1; 0.5]; [2; 0.5]]%R; cumulative_evals := 0 |}
      mixed_tape = Continue line st' g' /\
    evaluate MaxOnes 1 [[1; 0.5]; [2; 0.5]]%R = Ok fitnesses /\
    make_offspring 2 3 1 0.1%R [[1; 0.5]; [2; 0.5]]%R fitnesses mixed_tape
      = Ok (offspring, g') /\
    NoDup positions /\
    Forall2 (fun idx member => index offspring idx = Ok member)
      positions (population st') /\
    Forall (bred_from 2 1 0.1%R [[1; 0.5]; [2; 0.5]]%R fitnesses)
      (population st').
Proof.
  assert (Hgen : exists line st' g',
            generation MaxOnes 2 3 1 0.1%R 1
              {| population := [[1; 0.5]; [2; 0.5]]%R; cumulative_evals := 0 |}
              mixed_tape = Continue line st' g').
  { eexists _, _, _. run. reflexivity. }
  destruct Hgen as [line [st' [g' Hgen]]].
  assert (Hwf : Forall (fun p : individual => len p = 1 + 1)
                  [[1; 0.5]; [2; 0.5]]%R) by repeat constructor.
  destruct (survivors_are_offspring MaxOnes 2 3 1 0.1%R 1
              {| population := [[1; 0.5]; [2; 0.5]]%R; cumulative_evals := 0 |}
              st' mixed_tape g' line ltac:(lia) ltac:(lia) Hwf Hgen)
    as [fitnesses [offspring [positions Hspec]]].
  exists line, st', g', fitnesses, offspring, positions.
  split; [exact Hgen | exact Hspec].
Defined.

(** X7. Truncation never discards a child that is strictly fitter than a
    child it keeps: the positions of the offspring split into the kept ones,
    whose children are the next parents, and the discarded ones, and the
    fitness of a discarded child is at most the fitness of any kept
    child. *)
Theorem kept_at_least_as_fit {G : Type} `{Random G} (fitness_fn : Fitness)
  (mu lambda_ mem_size : Z) (tau : R) (n : Z) (st st' : run_state) (g g' : G)
  (line : telemetry) :
  0 <= mu ->
  generation fitness_fn mu lambda_ mem_size tau n st g = Continue line st' g' ->
  exists fitnesses offspring offspring_fitnesses kept discarded,
    make_offspring mu lambda_ mem_size tau (population st) fitnesses g
      = Ok (offspring, g') /\
    evaluate fitness_fn mem_size offspring = Ok offspring_fitnesses /\
    Permutation (kept ++ discarded) (range 0 (len offspring)) /\
    Forall2 (fun idx member => index offspring idx = Ok member)
      kept (population st') /\
    forall i j fi fj,
      In i kept -> In j discarded ->
      index offspring_fitnesses i = Ok fi ->
      index offspring_fitnesses j = Ok fj ->
      (fj <= fi)%R.
Proof.
  intros Hmu Hgen. apply generation_Continue in Hgen.
  destruct Hgen as [offspring [offspring_fitnesses [average [Hrep [_ Hsel]]]]].
  apply breed_and_report_inv in Hrep.
  destruct Hrep as [fitnesses [m [d [_ [Ho [Heo _]]]]]].
  pose proof (evaluate_len _ _ _ _ Heo) as Hlen.
  destruct (select_best_ok mu offspring offspring_fitnesses Hlen Hmu)
    as [ranking [chosen [Hsel' [Hperm [Hsorted [Hall _]]]]]].
  rewrite Hsel in Hsel'. injection Hsel' as <-.
  exists fitnesses, offspring, offspring_fitnesses,
    (firstn (Z.to_nat mu) ranking), (skipn (Z.to_nat mu) ranking).
  split; [exact Ho |]. split; [exact Heo |].
  rewrite firstn_skipn. split; [exact Hperm |]. split; [exact Hall |].
  intros i j fi fj Hi Hj Hfi Hfj.
  rewrite <- (firstn_skipn (Z.to_nat mu) ranking) in Hsorted.
  destruct (StronglySorted_across _ _ _ _ Hsorted i j Hi Hj)
    as [fi' [fj' [Hfi' [Hfj' Horder]]]].
  rewrite Hfi in Hfi'. rewrite Hfj in Hfj'.
  injection Hfi' as <-. injection Hfj' as <-. lra.
Qed.

Lemma kept_at_least_as_fit_witness :
  exists line st' g' fitnesses offspring offspring_fitnesses kept discarded,
    generation Rosenbrock 2 3 2 0.1%R 1
      {| population := [[1; 1; 1]; [1; 0; 1]]%R; cumulative_evals := 0 |}
      mixed_tape = Continue line st' g' /\
    make_offspring 2 3 2 0.1%R [[1; 1; 1]; [1; 0; 1]]%R fitnesses mixed_tape
      = Ok (offspring, g') /\
    evaluate Rosenbrock 2 offspring = Ok offspring_fitnesses /\
    Permutation (kept ++ discarded) (range 0 (len offspring)) /\
    Forall2 (fun idx member => index offspring idx = Ok member)
      kept (population st') /\
    forall i j fi fj,
      In i kept -> In j discarded ->
      index offspring_fitnesses i = Ok fi ->
      index offspring_fitnesses j = Ok fj ->
      (fj <= fi)%R.
Proof.
  assert (Hgen : exists line st' g',
            generation Rosenbrock 2 3 2 0.1%R 1
              {| population := [[1; 1; 1]; [1; 0; 1]]%R; cumulative_evals := 0 |}
              mixed_tape = Continue line st' g').
  { eexists _, _, _. run. reflexivity. }
  destruct Hgen as [line [st' [g' Hgen]]].
  destruct (kept_at_least_as_fit Rosenbrock 2 3 2 0.1%R 1 _ st' mixed_tape g'
              line ltac:(lia) Hgen)
    as [fitnesses [offspring [offspring_fitnesses [kept [discarded Hspec]]]]].
  exists line, st', g', fitnesses, offspring, offspring_fitnesses, kept, discarded.
  split; [exact Hgen | exact Hspec].
Defined.

(** ** Population sizes the loop cannot run on *)

Lemma index_beyond (A : Type) (l : list A) (i : Z) :
  len l <= i -> index l i = Raise IndexError.
Proof.
  intros Hi. unfold index. pose proof (len_nonneg A l).
  destruct (Z.ltb_spec i 0); [lia |].
  destruct (Z.ltb_spec i (len l)); [lia |].
  rewrite andb_false_r. reflexivity.
Qed.

Lemma range_app (lo mid hi : Z) :
  lo <= mid <= hi -> range lo hi = range lo mid ++ range mid hi.
Proof.
  intros Hmid. remember (Z.to_nat (mid - lo)) as n eqn:Hn.
  revert lo Hmid Hn. induction n as [| n IH]; intros lo Hmid Hn.
  - assert (lo = mid) as -> by lia. rewrite (range_empty mid mid) by lia.
    reflexivity.
  - rewrite (range_cons lo hi), (range_cons lo mid) by lia.
    cbn [app]. f_equal. apply IH; lia.
Qed.

Lemma for_each_app (A S : Type) (xs ys : list A) (body : A -> S -> result S)
  (s : S) :
  for_each (xs ++ ys) body s = (s' <- for_each xs body s ;; for_each ys body s').
Proof.
  revert s. induction xs as [| x xs IH]; intros s; cbn [app for_each bind].
  - reflexivity.
  - destruct (body x s) as [s1 | e]; cbn [bind]; [apply IH | reflexivity].
Qed.

Section WrongSizes.

Context {G : Type} `{RandomSpec G}.
Variable fitness_fn : Fitness.
Variables (mu lambda_ mem_size : Z) (mem_range : R * R) (sigma tau : R).
Variable max_gens : Z.

(** With fewer than two parents to sample from, the first tournament of a
    generation raises. *)
Lemma make_offspring_unsampled (parents : list individual)
  (fitnesses : list R) (g : G) :
  mu < 2 -> 1 <= lambda_ ->
  make_offspring mu lambda_ mem_size tau parents fitnesses g = Raise ValueError.
Proof.
  intros Hmu Hlambda. unfold make_offspring.
  rewrite (range_cons 0) by lia. cbn [for_eachM].
  unfold bindM at 1. unfold bindM at 1. unfold tournament at 1.
  unfold bindM at 1. rewrite sample_raises; [reflexivity |].
  right. rewrite len_range. lia.
Qed.

(** The exceptions of a generation that starts from too few parents. *)
Let missing (e : exn) : Prop := e = IndexError \/ e = OverflowError.

(** A tournament among [mu] indices over fewer fitnesses raises
    [IndexError] or picks an index that has a fitness. *)
Lemma tournament_short (fitnesses : list R) (g : G) :
  len fitnesses < mu -> 2 <= mu ->
  unless missing (tournament mu fitnesses g)
    (fun r => 0 <= fst r < len fitnesses).
Proof.
  intros Hshort Hmu.
  destruct (sample_two mu g Hmu) as [a [b [g' [Hs [_ [Ha Hb]]]]]].
  unfold tournament, bindM. rewrite Hs. unfold lift, max_by.
  destruct (Z.lt_ge_cases a (len fitnesses)) as [Hae | Hae].
  - destruct (index_nth R fitnesses a) as [fa [Hfa _]]; [lia |].
    rewrite Hfa. cbn [bind max_from].
    destruct (Z.lt_ge_cases b (len fitnesses)) as [Hbe | Hbe].
    + destruct (index_nth R fitnesses b) as [fb [Hfb _]]; [lia |].
      rewrite Hfb. cbn [bind].
      destruct (Rgtb fb fa); cbn; lia.
    + rewrite (index_beyond R fitnesses b) by lia. left. reflexivity.
  - rewrite (index_beyond R fitnesses a) by lia. left. reflexivity.
Qed.

Lemma make_offspring_short (parents : list individual) (fitnesses : list R)
  (g : G) :
  0 <= mem_size -> 2 <= mu ->
  len fitnesses = len parents -> len parents < mu ->
  Forall (fun p => len p = mem_size + 1) parents ->
  unless missing (make_offspring mu lambda_ mem_size tau parents fitnesses g)
    (fun r => Forall (fun c => len c = mem_size + 1) (fst r)).
Proof.
  intros HN Hmu Hfl Hshort Hwf. unfold make_offspring.
  apply (for_eachM_unless G Z (list individual) missing
    (fun _ offspring _ => Forall (fun c => len c = mem_size + 1) offspring)).
  - intros pre x post offspring g0 _ Hall.
    eapply unless_bindM; [apply (tournament_short fitnesses g0); lia |].
    intros w g1 Hw. cbn [fst] in Hw.
    destruct (index_nth _ parents w) as [parent [Hidx _]]; [lia |].
    assert (Hplen : len parent = mem_size + 1).
    { apply index_In in Hidx. rewrite Forall_forall in Hwf. apply Hwf, Hidx. }
    unfold bindM at 1, lift. rewrite Hidx.
    eapply unless_bindM.
    + eapply unless_weaken;
        [intros r Hr; exact Hr | | apply (mutate_spec mem_size tau parent g1 HN Hplen)].
      intros e He. right. exact He.
    + intros child g2 Hspec. cbn [fst snd] in Hspec. cbn.
      apply Forall_app. split; [exact Hall |]. constructor; [| constructor].
      destruct Hspec as [s [_ [Hcl _]]]. exact Hcl.
  - constructor.
Qed.

(** Lines 49-54 on fewer parents than [mu]: the first row of the loop
    reaches a parent that does not exist, unless a square overflows
    before. *)
Lemma diversity_short (parents : list individual) :
  1 <= mem_size -> 1 <= len parents < mu ->
  Forall (fun p => len p = mem_size + 1) parents ->
  exists e, diversity_of mu mem_size parents = Raise e /\ missing e.
Proof.
  intros HN Hlen Hwf. unfold diversity_of.
  rewrite (range_cons 0 mu) by lia. cbn [for_each].
  rewrite (range_app (0 + 1) (len parents) mu) by lia.
  rewrite for_each_app.
  pose proof (inner_loop (len parents) mem_size parents ltac:(lia) eq_refl Hwf
                0 0%R ltac:(lia)) as Hprefix.
  destruct (for_each (range (0 + 1) (len parents)) _ 0%R) as [d | e];
    cbn [unless bind] in *.
  - rewrite (range_cons (len parents) mu) by lia. cbn [for_each].
    assert (Hdist : distance mem_size parents 0 (len parents) = Raise IndexError).
    { unfold distance. rewrite (range_cons 0 mem_size) by lia.
      cbn [comprehension].
      destruct (index_nth _ parents 0) as [p0 [Hp0 _]]; [lia |].
      rewrite Hp0. cbn [bind].
      assert (Hp0len : len p0 = mem_size + 1).
      { apply index_In in Hp0. rewrite Forall_forall in Hwf. apply Hwf, Hp0. }
      destruct (index_nth _ p0 0) as [x [Hx _]]; [lia |].
      rewrite Hx. cbn [bind]. rewrite index_beyond by lia. reflexivity. }
    rewrite Hdist. exists IndexError. split; [reflexivity | left; reflexivity].
  - exists e. split; [reflexivity | right; exact Hprefix].
Qed.

(** The loop body on fewer parents than [mu]: it raises before it
    prints. *)
Lemma generation_short (n : Z) (st : run_state) (g : G) :
  1 <= mem_size -> total_unless_overflow fitness_fn mem_size ->
  1 <= len (population st) < mu ->
  Forall (fun p => len p = mem_size + 1) (population st) ->
  exists e, generation fitness_fn mu lambda_ mem_size tau n st g = Abort [] e /\
            missing e.
Proof.
  intros HN Htotal Hlen Hwf.
  assert (Hrep : exists e,
            breed_and_report fitness_fn mu lambda_ mem_size tau n st g = Raise e
            /\ missing e).
  { unfold breed_and_report.
    pose proof (evaluate_may fitness_fn mem_size (population st) ltac:(lia)
                  Htotal Hwf) as He.
    unfold bindM at 1. unfold lift at 1.
    destruct (evaluate fitness_fn mem_size (population st)) as [fitnesses | e];
      cbn [unless] in He; [| exists e; split; [reflexivity | right; exact He]].
    pose proof (make_offspring_short (population st) fitnesses g
                  ltac:(lia) ltac:(lia) He (proj2 Hlen) Hwf) as Ho.
    unfold bindM at 1.
    destruct (make_offspring mu lambda_ mem_size tau (population st) fitnesses g)
      as [[offspring g'] | e]; cbn [unless fst] in Ho;
      [| exists e; split; [reflexivity | exact Ho]].
    pose proof (evaluate_may fitness_fn mem_size offspring ltac:(lia)
                  Htotal Ho) as Heo.
    unfold bindM at 1. unfold lift at 1.
    destruct (evaluate fitness_fn mem_size offspring) as [offspring_fitnesses | e];
      cbn [unless] in Heo; [| exists e; split; [reflexivity | right; exact Heo]].
    destruct (py_max_ok fitnesses) as [m Hmax]; [lia |].
    unfold bindM at 1. unfold lift at 1. rewrite Hmax.
    unfold bindM at 1. unfold lift at 1.
    rewrite truediv_ok by (apply not_0_IZR; lia).
    destruct (diversity_short (population st) HN Hlen Hwf) as [e [Hd He']].
    unfold bindM at 1. unfold lift at 1. rewrite Hd.
    exists e. split; [reflexivity | exact He']. }
  destruct Hrep as [e [Hrep He]]. exists e. split; [| exact He].
  unfold generation. rewrite Hrep. reflexivity.
Qed.

End WrongSizes.

(** X8. With fewer than two parents ([mu < 2]), at least one child per
    generation and at least one generation, the engine raises the
    [ValueError] of its first tournament sample and prints nothing (the
    gene count being non-negative and the evaluator total, so that nothing
    else raises before). *)
Theorem too_few_parents {G : Type} `{RandomSpec G} (fitness_fn : Fitness)
  (mu lambda_ mem_size : Z) (mem_range : R * R) (sigma tau : R) (max_gens : Z)
  (rng : G) :
  mu < 2 -> 1 <= lambda_ -> 1 <= max_gens ->
  0 <= mem_size -> total_on fitness_fn mem_size ->
  evolution_strategy fitness_fn mu lambda_ mem_size mem_range sigma tau
    max_gens rng = ([], Raise ValueError).
Proof.
  intros Hmu Hlambda Hgens HN Htotal.
  destruct (start_ok mu mem_size mem_range sigma rng)
    as [st0 [g0 [Hstart [_ [_ Hwf]]]]].
  replace (Z.max 0 mem_size) with mem_size in Hwf by lia.
  destruct (evaluate_ok fitness_fn mem_size (population st0) HN Htotal Hwf)
    as [fitnesses He].
  unfold evolution_strategy. rewrite Hstart, (range_cons 1) by lia.
  cbn [generations]. unfold generation, breed_and_report.
  unfold bindM at 1. unfold lift at 1. rewrite He. unfold bindM at 1.
  rewrite make_offspring_unsampled by assumption. reflexivity.
Qed.

Lemma too_few_parents_witness :
  evolution_strategy MaxOnes 1 100 2 (-10, 10)%R 0.1%R 0.1%R 1000 zero_tape
  = ([], Raise ValueError).
Proof.
  apply too_few_parents; try lia. apply maxones_total.
Defined.

(** X9. With fewer offspring than parents ([1 <= lambda_ < mu]), at least
    one gene, at least two generations and an evaluator that keeps its
    contract on floats, a run does not get past its second generation and
    prints at most one line: either the first generation ends the loop
    (mean above 0.99) and the initial population is returned; or it goes
    on, and the second generation, which starts from [lambda_] parents only,
    raises [IndexError] (or [OverflowError], if a float result is out of
    range before) without printing; or the first generation raises
    [OverflowError], and nothing is printed. *)
Theorem too_few_offspring {G : Type} `{RandomSpec G} (fitness_fn : Fitness)
  (mu lambda_ mem_size : Z) (mem_range : R * R) (sigma tau : R) (max_gens : Z)
  (rng : G) :
  1 <= lambda_ < mu -> 1 <= mem_size -> 2 <= max_gens ->
  total_unless_overflow fitness_fn mem_size ->
  exists members rng',
    init_population mu mem_size mem_range sigma rng = Ok (members, rng') /\
    ((exists line,
        (t_mean line > 0.99)%R /\
        evolution_strategy fitness_fn mu lambda_ mem_size mem_range sigma tau
          max_gens rng = ([line], Ok members))
     \/ (exists line,
           ~ (t_mean line > 0.99)%R /\
           (evolution_strategy fitness_fn mu lambda_ mem_size mem_range sigma
              tau max_gens rng = ([line], Raise IndexError)
            \/ evolution_strategy fitness_fn mu lambda_ mem_size mem_range
                 sigma tau max_gens rng = ([line], Raise OverflowError)))
     \/ evolution_strategy fitness_fn mu lambda_ mem_size mem_range sigma tau
          max_gens rng = ([], Raise OverflowError)).
Proof.
  intros Hlambda HN Hgens Htotal.
  destruct (init_population_ok mem_size mem_range sigma mu rng)
    as [members [g0 [Hinit [Hwf _]]]].
  replace (Z.max 0 mu) with mu in Hwf by lia.
  replace (Z.max 0 mem_size) with mem_size in Hwf by lia.
  set (st0 := {| population := members; cumulative_evals := 0 |}).
  assert (Hstart : start mu mem_size mem_range sigma rng = Ok (st0, g0)).
  { unfold start. rewrite Hinit. reflexivity. }
  exists members, g0. split; [exact Hinit |].
  unfold evolution_strategy. rewrite Hstart, (range_cons 1) by lia.
  cbn [generations].
  destruct (generation_ok fitness_fn mu lambda_ mem_size tau 1 st0 g0)
    as [[line [st1 [g1 [Hgen Hpop]]]]
       | [[line [st1 [g1 [Hgen Hwf1]]]] | Hgen]];
    try assumption; try lia; rewrite Hgen.
  - left. exists line.
    destruct (generation_mean fitness_fn mu lambda_ mem_size tau 1 st0 st1 g0 g1
                line) as [Hbreak _].
    split; [apply Hbreak, Hgen |]. cbn [bind fst]. rewrite Hpop. reflexivity.
  - right. left. exists line.
    destruct (generation_mean fitness_fn mu lambda_ mem_size tau 1 st0 st1 g0 g1
                line) as [_ Hcont].
    split; [apply Hcont, Hgen |].
    replace (Z.min mu (Z.max 0 lambda_)) with lambda_ in Hwf1 by lia.
    destruct Hwf1 as [Hlen1 Hwf1].
    rewrite (range_cons (1 + 1)) by lia. cbn [generations].
    destruct (generation_short fitness_fn mu lambda_ mem_size tau (1 + 1) st1 g1
                HN Htotal ltac:(lia) Hwf1) as [e [Habort [-> | ->]]];
      rewrite Habort; [left | right]; reflexivity.
  - right. right. reflexivity.
Qed.

Lemma too_few_offspring_witness :
  exists members rng',
    init_population 15 2 (-10, 10)%R 0.1%R zero_tape = Ok (members, rng') /\
    ((exists line,
        (t_mean line > 0.99)%R /\
        evolution_strategy Himmelblau 15 10 2 (-10, 10)%R 0.1%R 0.1%R 1000
          zero_tape = ([line], Ok members))
     \/ (exists line,
           ~ (t_mean line > 0.99)%R /\
           (evolution_strategy Himmelblau 15 10 2 (-10, 10)%R 0.1%R 0.1%R 1000
              zero_tape = ([line], Raise IndexError)
            \/ evolution_strategy Himmelblau 15 10 2 (-10, 10)%R 0.1%R 0.1%R
                 1000 zero_tape = ([line], Raise OverflowError)))
     \/ evolution_strategy Himmelblau 15 10 2 (-10, 10)%R 0.1%R 0.1%R 1000
          zero_tape = ([], Raise OverflowError)).
Proof.
  apply too_few_offspring; try lia. apply himmelblau_total.
Defined.

(** ** When a run stops *)

Lemma sum_nonpositive (xs : list R) :
  (forall x, In x xs -> (x <= 0)%R) -> (sum xs <= 0)%R.
Proof.
  rewrite sum_fold_right. induction xs as [| x xs IH]; intros Hall;
    cbn [fold_right]; [lra |].
  specialize (Hall x (or_introl eq_refl)) as Hx.
  assert (Hrest : (fold_right Rplus 0 xs <= 0)%R).
  { apply IH. intros y Hy. apply Hall. right. exact Hy. }
  lra.
Qed.

Section Stopping.

Context {G : Type} `{RandomSpec G}.
Variable fitness_fn : Fitness.
Variables (mu lambda_ mem_size : Z) (mem_range : R * R) (sigma tau : R).
Variable max_gens : Z.

Lemma generations_means (numbers : list Z) (st : run_state) (g : G)
  (lines : list telemetry) (r : result (run_state * G)) :
  generations fitness_fn mu lambda_ mem_size tau numbers st g = (lines, r) ->
  (forall k line, nth_error lines k = Some line -> (S k < length lines)%nat ->
     ~ (t_mean line > 0.99)%R) /\
  (forall st' g', r = Ok (st', g') -> (length lines < length numbers)%nat ->
     exists init last, lines = init ++ [last] /\ (t_mean last > 0.99)%R).
Proof.
  revert st g lines r. induction numbers as [| n rest IH];
    intros st g lines r Hrun; cbn [generations] in Hrun.
  - injection Hrun as <- <-. split.
    + intros k line Hk. destruct k; discriminate.
    + intros st' g' _ Hlt. cbn in Hlt. lia.
  - destruct (generation fitness_fn mu lambda_ mem_size tau n st g)
      as [line st1 g1 | line st1 g1 | printed e] eqn:Hgen.
    + destruct (generations _ _ _ _ _ rest st1 g1) as [lines1 r1] eqn:Hrest.
      injection Hrun as <- <-. destruct (IH _ _ _ _ Hrest) as [Hmeans Hlast].
      split.
      * intros [| k] l Hk Hlt; cbn [nth_error length] in *.
        -- injection Hk as <-.
           apply (generation_mean fitness_fn mu lambda_ mem_size tau n st st1
                    g g1 line), Hgen.
        -- apply (Hmeans k l Hk). lia.
      * intros st' g' Hr Hlt. cbn [length] in Hlt.
        destruct (Hlast st' g' Hr ltac:(lia)) as [init [last [-> Hmean]]].
        exists (line :: init), last. split; [reflexivity | exact Hmean].
    + injection Hrun as <- <-. split.
      * intros [| [| k]] l Hk Hlt; cbn [nth_error length] in *;
          try discriminate; lia.
      * intros st' g' _ _. exists [], line. split; [reflexivity |].
        apply (generation_mean fitness_fn mu lambda_ mem_size tau n st st1
                 g g1 line), Hgen.
    + injection Hrun as <- <-. split; [| discriminate].
      intros k l Hk Hlt. unfold generation in Hgen.
      destruct (breed_and_report _ _ _ _ _ _ _ _)
        as [[[[[[o f] ev] av] l0] g2] | e'].
      * destruct (Rgtb av 0.99); [discriminate |].
        destruct (select_best _ _ _); [discriminate |].
        injection Hgen as <- <-.
        destruct k as [| [| k]]; cbn [nth_error length] in *;
          try discriminate; lia.
      * injection Hgen as <- <-. destruct k; discriminate.
Qed.

(** X10. In the lines a run prints, only the last one can show a mean
    above 0.99; and a run that returns after fewer than [max_gens] lines
    ended on a line whose mean is above 0.99. *)
Theorem only_last_line_stops (rng : G) :
  (forall k line,
     nth_error (fst (evolution_strategy fitness_fn mu lambda_ mem_size
                       mem_range sigma tau max_gens rng)) k = Some line ->
     (S k < length (fst (evolution_strategy fitness_fn mu lambda_ mem_size
                           mem_range sigma tau max_gens rng)))%nat ->
     ~ (t_mean line > 0.99)%R) /\
  (forall members,
     snd (evolution_strategy fitness_fn mu lambda_ mem_size mem_range sigma
            tau max_gens rng) = Ok members ->
     len (fst (evolution_strategy fitness_fn mu lambda_ mem_size mem_range
                 sigma tau max_gens rng)) < max_gens ->
     exists init last,
       fst (evolution_strategy fitness_fn mu lambda_ mem_size mem_range sigma
              tau max_gens rng) = init ++ [last] /\
       (t_mean last > 0.99)%R).
Proof.
  unfold evolution_strategy.
  destruct (start mu mem_size mem_range sigma rng) as [[st0 g0] | e].
  - destruct (generations _ _ _ _ _ _ st0 g0) as [lines r] eqn:Hgens.
    cbn [fst snd]. destruct (generations_means _ _ _ _ _ Hgens) as [Hmeans Hlast].
    split; [exact Hmeans |].
    intros members Hr Hlt. destruct r as [[st' g'] | e]; [| discriminate].
    apply (Hlast st' g' eq_refl).
    pose proof (len_range 1 (max_gens + 1)) as Hl. unfold len in *. lia.
  - cbn [fst snd]. split; [| discriminate].
    intros k line Hk. destruct k; discriminate.
Qed.

(** With no fitness value above 0, the loop body goes on, unless a float
    result is out of range. *)
Lemma generation_goes_on (n : Z) (st : run_state) (g : G) :
  2 <= mu -> 0 <= mem_size -> total_unless_overflow fitness_fn mem_size ->
  (forall v f, fitness fitness_fn v = Ok f -> (f <= 0)%R) ->
  well_formed mu mem_size (population st) ->
  (exists line st' g',
     generation fitness_fn mu lambda_ mem_size tau n st g = Continue line st' g'
     /\ well_formed (Z.min mu (Z.max 0 lambda_)) mem_size (population st'))
  \/ generation fitness_fn mu lambda_ mem_size tau n st g
     = Abort [] OverflowError.
Proof.
  intros Hmu HN Htotal Hbound Hwf.
  destruct (generation_ok fitness_fn mu lambda_ mem_size tau n st g
              Hmu HN Htotal Hwf)
    as [[line [st' [g' [Hgen _]]]] | [[line [st' [g' [Hgen Hwf']]]] | Hgen]].
  - exfalso. pose proof Hgen as Hmean.
    apply (generation_mean fitness_fn mu lambda_ mem_size tau n st st' g g' line)
      in Hmean. destruct Hmean as [Hmean _].
    apply generation_Break in Hgen.
    destruct Hgen as [o [f [a [Hrep _]]]]. apply breed_and_report_inv in Hrep.
    destruct Hrep as [fs [m [d [He [_ [_ [_ [Hdiv [_ [_ ->]]]]]]]]]].
    cbn [t_mean] in Hmean.
    rewrite truediv_ok in Hdiv by (apply not_0_IZR; lia). injection Hdiv as <-.
    assert (Hall : forall x, In x fs -> (x <= 0)%R).
    { intros x Hx. unfold evaluate in He. apply comprehension_inv in He.
      clear - He Hx Hbound. induction He as [| p y ps ys Hp _ IH].
      - destruct Hx.
      - destruct Hx as [<- | Hx]; [eapply Hbound, Hp | apply IH, Hx]. }
    pose proof (sum_nonpositive fs Hall) as Hsum.
    assert (Hpos : (0 < IZR mu)%R) by (apply IZR_lt; lia).
    assert (Hle : (sum fs / IZR mu <= 0)%R).
    { apply (Rmult_le_reg_l (IZR mu)); [exact Hpos |].
      replace (IZR mu * (sum fs / IZR mu))%R with (sum fs); [lra | field; lra]. }
    lra.
  - left. exists line, st', g'. split; assumption.
  - right. exact Hgen.
Qed.

Lemma generations_go_on (numbers : list Z) (st : run_state) (g : G) :
  2 <= mu <= lambda_ -> 0 <= mem_size ->
  total_unless_overflow fitness_fn mem_size ->
  (forall v f, fitness fitness_fn v = Ok f -> (f <= 0)%R) ->
  well_formed mu mem_size (population st) ->
  exists lines r,
    generations fitness_fn mu lambda_ mem_size tau numbers st g = (lines, r) /\
    ((exists p, r = Ok p /\ length lines = length numbers)
     \/ (r = Raise OverflowError /\ (length lines < length numbers)%nat)).
Proof.
  intros Hmu HN Htotal Hbound. revert st g.
  induction numbers as [| n rest IH]; intros st g Hwf; cbn [generations].
  - eexists _, _. split; [reflexivity |]. left. eexists. split; reflexivity.
  - destruct (generation_goes_on n st g)
      as [[line [st1 [g1 [Hgen Hwf1]]]] | Hgen];
      try assumption; try lia; rewrite Hgen.
    + replace (Z.min mu (Z.max 0 lambda_)) with mu in Hwf1 by lia.
      destruct (IH st1 g1 Hwf1) as [lines [r [Hrun Hcases]]].
      rewrite Hrun. eexists _, _. split; [reflexivity |]. cbn [length].
      destruct Hcases as [[p [-> Hlen]] | [-> Hlen]].
      * left. exists p. split; [reflexivity | lia].
      * right. split; [reflexivity | lia].
    + eexists _, _. split; [reflexivity |]. right.
      split; [reflexivity | cbn [length]; lia].
Qed.

(** X11. If the evaluator never yields a fitness above 0, as the MaxOnes
    evaluator with its constant 0 (and there are at least two parents, at
    least as many offspring, a non-negative gene count and an evaluator that
    keeps its contract on floats), a run never stops early: it returns
    after printing exactly [max_gens] lines (none for a non-positive
    [max_gens]), unless a float result is out of range; then it raises
    [OverflowError] after fewer lines. *)
Theorem no_early_stop (rng : G) :
  2 <= mu <= lambda_ -> 0 <= mem_size ->
  total_unless_overflow fitness_fn mem_size ->
  (forall v f, fitness fitness_fn v = Ok f -> (f <= 0)%R) ->
  exists lines,
    fst (evolution_strategy fitness_fn mu lambda_ mem_size mem_range sigma tau
           max_gens rng) = lines /\
    ((exists members,
        snd (evolution_strategy fitness_fn mu lambda_ mem_size mem_range sigma
               tau max_gens rng) = Ok members /\
        len lines = Z.max 0 max_gens)
     \/ (snd (evolution_strategy fitness_fn mu lambda_ mem_size mem_range sigma
                tau max_gens rng) = Raise OverflowError /\
         len lines < max_gens)).
Proof.
  intros Hmu HN Htotal Hbound.
  destruct (start_ok mu mem_size mem_range sigma rng)
    as [st0 [g0 [Hstart [_ Hwf]]]].
  replace (Z.max 0 mu) with mu in Hwf by lia.
  replace (Z.max 0 mem_size) with mem_size in Hwf by lia.
  destruct (generations_go_on (range 1 (max_gens + 1)) st0 g0
              Hmu HN Htotal Hbound Hwf) as [lines [r [Hrun Hcases]]].
  exists lines. unfold evolution_strategy. rewrite Hstart, Hrun. cbn [fst snd].
  split; [reflexivity |].
  pose proof (len_range 1 (max_gens + 1)) as Hl. unfold len in *.
  destruct Hcases as [[p [-> Hlen]] | [-> Hlen]]; cbn [bind].
  - left. eexists. split; [reflexivity | lia].
  - right. split; [reflexivity | lia].
Qed.

End Stopping.

Lemma only_last_line_stops_witness :
  exists init last,
    fst (evolution_strategy Himmelblau 2 3 2 (-10, 10)%R 0.1%R 0.1%R 10
           optimum_tape) = init ++ [last] /\
    (t_mean last > 0.99)%R.
Proof.
  assert (Hrun : exists line members,
            evolution_strategy Himmelblau 2 3 2 (-10, 10)%R 0.1%R 0.1%R 10
              optimum_tape = ([line], Ok members)).
  { eexists _, _. run. reflexivity. }
  destruct Hrun as [line [members Hrun]].
  apply (proj2 (only_last_line_stops Himmelblau 2 3 2 (-10, 10)%R 0.1%R 0.1%R 10
                  optimum_tape) members).
  - rewrite Hrun. reflexivity.
  - rewrite Hrun. cbn. lia.
Defined.

Lemma no_early_stop_witness :
  exists lines,
    fst (evolution_strategy MaxOnes 15 100 2 (-10, 10)%R 0.1%R 0.1%R 1000
           zero_tape) = lines /\
    ((exists members,
        snd (evolution_strategy MaxOnes 15 100 2 (-10, 10)%R 0.1%R 0.1%R 1000
               zero_tape) = Ok members /\
        len lines = Z.max 0 1000)
     \/ (snd (evolution_strategy MaxOnes 15 100 2 (-10, 10)%R 0.1%R 0.1%R 1000
                zero_tape) = Raise OverflowError /\
         len lines < 1000)).
Proof.
  apply no_early_stop.
  - lia.
  - lia.
  - apply total_on_unless, maxones_total.
  - intros v f [= <-]. lra.
Defined.

(** ** The evaluators ([himmelblau.py], [rosenbrock.py]) *)

Lemma inverse_fitness (v : R) :
  (0 <= v)%R ->
  truediv 1 (1 + v) = Ok (1 / (1 + v))%R /\
  (0 < 1 / (1 + v) <= 1)%R.
Proof.
  intros Hv. split; [apply truediv_ok; lra |].
  assert (Hpos : (0 < 1 + v)%R) by lra.
  assert (Hinv : (0 < / (1 + v))%R) by (apply Rinv_0_lt_compat, Hpos).
  assert (Hone : ((1 + v) * / (1 + v) = 1)%R) by (apply Rinv_r; lra).
  unfold Rdiv. rewrite Rmult_1_l. split; nra.
Qed.

Lemma himmelblau_short (member : list R) :
  len member < 2 -> fitness Himmelblau member = Raise IndexError.
Proof.
  intros Hlen. destruct member as [| x [| y rest]]; [reflexivity | reflexivity |].
  unfold len in Hlen. cbn [length] in Hlen. lia.
Qed.

Lemma rosenbrock_short (member : list R) :
  len member < 2 -> fitness Rosenbrock member = Raise IndexError.
Proof.
  intros Hlen. destruct member as [| x [| y rest]]; [reflexivity | reflexivity |].
  unfold len in Hlen. cbn [length] in Hlen. lia.
Qed.

(** The value of the evaluators on two genes. *)
Lemma himmelblau_value (x y : R) :
  unless overflow (fitness Himmelblau [x; y]) (fun f => (0 <= f <= 1)%R).
Proof.
  unfold fitness, Himmelblau. rewrite index_head, index_second. cbn [bind].
  eapply unless_bind; [apply py_pow_square |]. intros x2 _.
  eapply unless_bind; [apply py_pow_square |]. intros a [[Ha _] _].
  eapply unless_bind; [apply py_pow_square |]. intros y2 _.
  eapply unless_bind; [apply py_pow_square |]. intros b [[Hb _] _].
  cbn zeta.
  destruct (inverse_fitness (a + b)) as [Hdiv Hrange]; [lra |].
  rewrite Hdiv. cbn [unless]. lra.
Qed.

Lemma rosenbrock_value (x y : R) :
  unless overflow (fitness Rosenbrock [x; y]) (fun f => (0 <= f <= 1)%R).
Proof.
  unfold fitness, Rosenbrock. rewrite index_head, index_second. cbn [bind].
  eapply unless_bind; [apply py_pow_square |]. intros a [[Ha _] _].
  eapply unless_bind; [apply py_pow_square |]. intros x2 _.
  eapply unless_bind; [apply py_pow_square |]. intros b [[Hb _] _].
  cbn zeta.
  destruct (inverse_fitness (a + 100 * b)) as [Hdiv Hrange]; [lra |].
  rewrite Hdiv. cbn [unless]. lra.
Qed.

(** X12. [Himmelblau.fitness] raises [IndexError] on fewer than two
    entries and reads only the first two of a longer member. On two entries
    it returns a value between 0 and 1, unless a power is too large for a
    double; then it raises [OverflowError]. At (3, 2), a zero of
    Himmelblau's function, the value is 1. *)
Theorem himmelblau_fitness_range :
  (forall member, len member < 2 ->
     fitness Himmelblau member = Raise IndexError) /\
  (forall x y rest,
     fitness Himmelblau (x :: y :: rest) = fitness Himmelblau [x; y]) /\
  (forall x y,
     (exists f, fitness Himmelblau [x; y] = Ok f /\ (0 <= f <= 1)%R)
     \/ fitness Himmelblau [x; y] = Raise OverflowError) /\
  fitness Himmelblau [3; 2]%R = Ok 1%R.
Proof.
  split; [exact himmelblau_short |]. split; [| split].
  - intros x y rest. unfold fitness, Himmelblau.
    rewrite !index_head, !index_second. reflexivity.
  - intros x y. pose proof (himmelblau_value x y) as Hfit.
    destruct (fitness Himmelblau [x; y]) as [f | e]; cbn [unless] in Hfit.
    + left. exists f. split; [reflexivity | lra].
    + right. rewrite Hfit. reflexivity.
  - run. f_equal. lra.
Qed.

(** X13. [Rosenbrock.fitness] raises [IndexError] on fewer than two
    entries and reads only the first two of a longer member. On two entries
    it returns a value between 0 and 1, unless a power is too large for a
    double; then it raises [OverflowError]. At (1, 1), the zero of
    Rosenbrock's function, the value is 1. *)
Theorem rosenbrock_fitness_range :
  (forall member, len member < 2 ->
     fitness Rosenbrock member = Raise IndexError) /\
  (forall x y rest,
     fitness Rosenbrock (x :: y :: rest) = fitness Rosenbrock [x; y]) /\
  (forall x y,
     (exists f, fitness Rosenbrock [x; y] = Ok f /\ (0 <= f <= 1)%R)
     \/ fitness Rosenbrock [x; y] = Raise OverflowError) /\
  fitness Rosenbrock [1; 1]%R = Ok 1%R.
Proof.
  split; [exact rosenbrock_short |]. split; [| split].
  - intros x y rest. unfold fitness, Rosenbrock.
    rewrite !index_head, !index_second. reflexivity.
  - intros x y. pose proof (rosenbrock_value x y) as Hfit.
    destruct (fitness Rosenbrock [x; y]) as [f | e]; cbn [unless] in Hfit.
    + left. exists f. split; [reflexivity | lra].
    + right. rewrite Hfit. reflexivity.
  - run. f_equal. lra.
Qed.

Lemma himmelblau_fitness_range_witness :
  fitness Himmelblau [] = Raise IndexError.
Proof.
  apply (proj1 himmelblau_fitness_range). reflexivity.
Defined.

Lemma rosenbrock_fitness_range_witness :
  fitness Rosenbrock [0.5%R] = Raise IndexError.
Proof.
  apply (proj1 rosenbrock_fitness_range). reflexivity.
Defined.

(** X14. The two benchmark evaluators need two genes: with a gene count
    of at most 1, at least one parent and at least one generation, the
    engine raises the [IndexError] of the first fitness evaluation and
    prints nothing. *)
Theorem two_genes_needed {G : Type} `{Random G} (fitness_fn : Fitness)
  (mu lambda_ mem_size : Z) (mem_range : R * R) (sigma tau : R) (max_gens : Z)
  (rng : G) :
  fitness_fn = Himmelblau \/ fitness_fn = Rosenbrock ->
  mem_size <= 1 -> 1 <= mu -> 1 <= max_gens ->
  evolution_strategy fitness_fn mu lambda_ mem_size mem_range sigma tau
    max_gens rng = ([], Raise IndexError).
Proof.
  intros Hfn HN Hmu Hgens.
  destruct (start_ok mu mem_size mem_range sigma rng)
    as [st0 [g0 [Hstart [_ [Hlen Hwf]]]]].
  unfold evolution_strategy. rewrite Hstart, (range_cons 1) by lia.
  cbn [generations]. unfold generation, breed_and_report.
  unfold bindM at 1. unfold lift at 1.
  destruct (population st0) as [| m members] eqn:Hpop.
  { unfold len in Hlen. cbn [length] in Hlen. lia. }
  inversion Hwf as [| ? ? Hm _]; subst.
  assert (Hshort : len (slice_to m mem_size) < 2).
  { unfold slice_to. destruct (Z.leb_spec 0 mem_size); unfold len in *;
      rewrite length_firstn; lia. }
  assert (Hraise : fitness fitness_fn (slice_to m mem_size) = Raise IndexError).
  { destruct Hfn as [-> | ->];
      [apply himmelblau_short | apply rosenbrock_short]; exact Hshort. }
  unfold evaluate. cbn [comprehension]. rewrite Hraise. reflexivity.
Qed.

Lemma two_genes_needed_witness :
  evolution_strategy Rosenbrock 15 100 1 (-2, 2)%R 0.1%R 0.1%R 1000 zero_tape
  = ([], Raise IndexError).
Proof.
  apply two_genes_needed; [right; reflexivity | lia | lia | lia].
Defined.

(** ** The bit-string methods *)

Lemma ones_sum (l : list ascii) (a : Z) :
  fold_left Z.add (map (fun _ => 1) l) a = a + len l.
Proof.
  revert a. induction l as [| c l IH]; intros a; cbn [map fold_left].
  - unfold len. cbn. lia.
  - rewrite IH. unfold len. cbn [length]. lia.
Qed.

Lemma filter_all (A : Type) (p : A -> bool) (l : list A) :
  (length (filter p l) <= length l)%nat /\
  (length (filter p l) = length l <-> Forall (fun x => p x = true) l) /\
  (length (filter p l) = 0%nat <-> Forall (fun x => p x = false) l).
Proof.
  induction l as [| x l [IHle [IHall IHnone]]]; cbn [filter length].
  - split; [lia |]. split; split; intros _; first [reflexivity | constructor].
  - destruct (p x) eqn:Hp; cbn [length].
    + split; [lia |]. split; split.
      * intros Hlen. constructor; [exact Hp | apply IHall; lia].
      * intros Hall. inversion Hall; subst. f_equal. apply IHall. assumption.
      * discriminate.
      * intros Hall. inversion Hall; subst. congruence.
    + split; [lia |]. split; split.
      * lia.
      * intros Hall. inversion Hall; subst. congruence.
      * intros Hlen. constructor; [exact Hp | apply IHnone, Hlen].
      * intros Hall. inversion Hall; subst. apply IHnone. assumption.
Qed.

(** X15. [MaxOnes.fitness_bitstring] raises [ZeroDivisionError] on the
    empty string. On any other string it returns the share of characters
    that are ['1'], a value in [0, 1] that is 1 exactly when every character
    is ['1'] and 0 exactly when none is; every other character, digit or
    not, counts as not a one. *)
Theorem maxones_bitstring_share :
  MaxOnes_fitness_bitstring [] = Raise ZeroDivisionError /\
  (forall bitstring, bitstring <> [] ->
     exists f,
       MaxOnes_fitness_bitstring bitstring = Ok f /\
       f = (IZR (len (filter (fun c => Ascii.eqb c "1") bitstring))
            / IZR (len bitstring))%R /\
       (0 <= f <= 1)%R /\
       (f = 1%R <-> Forall (fun c => c = "1"%char) bitstring) /\
       (f = 0%R <-> Forall (fun c => c <> "1"%char) bitstring)).
Proof.
  split.
  - unfold MaxOnes_fitness_bitstring, truediv. cbn.
    destruct (Req_dec_T 0 0); [reflexivity | contradiction].
  - intros bitstring Hne. unfold MaxOnes_fitness_bitstring.
    rewrite ones_sum, Z.add_0_l.
    set (ones := filter (fun c => Ascii.eqb c "1") bitstring).
    assert (Hlen : 0 < len bitstring).
    { destruct bitstring; [contradiction | unfold len; cbn [length]; lia]. }
    assert (Hpos : (0 < IZR (len bitstring))%R) by (apply IZR_lt; exact Hlen).
    destruct (filter_all ascii (fun c => Ascii.eqb c "1") bitstring)
      as [Hle [Hall Hnone]]. fold ones in Hle, Hall, Hnone.
    assert (Hones : (0 <= IZR (len ones) <= IZR (len bitstring))%R).
    { split; apply IZR_le; unfold len; lia. }
    eexists. split; [apply truediv_ok; lra |]. split; [reflexivity |].
    assert (Hinv : (0 < / IZR (len bitstring))%R) by (apply Rinv_0_lt_compat, Hpos).
    assert (Hone : (IZR (len bitstring) * / IZR (len bitstring) = 1)%R)
      by (apply Rinv_r; lra).
    unfold Rdiv. split; [split; nra |]. split; split.
    + intros Hf. assert (Heq : IZR (len ones) = IZR (len bitstring)) by nra.
      apply eq_IZR in Heq. unfold len in Heq.
      assert (Hl : length ones = length bitstring) by lia.
      apply Hall in Hl. eapply Forall_impl; [| exact Hl].
      intros c Hc. apply Ascii.eqb_eq, Hc.
    + intros Hbits.
      assert (Hl : length ones = length bitstring).
      { apply Hall. eapply Forall_impl; [| exact Hbits].
        intros c ->. reflexivity. }
      unfold len. rewrite Hl. exact Hone.
    + intros Hf. assert (Heq : IZR (len ones) = 0%R) by nra.
      apply eq_IZR in Heq. unfold len in Heq.
      assert (Hl : length ones = 0%nat) by lia.
      apply Hnone in Hl. eapply Forall_impl; [| exact Hl].
      intros c Hc Heqc. subst c. discriminate.
    + intros Hbits.
      assert (Hl : length ones = 0%nat).
      { apply Hnone. eapply Forall_impl; [| exact Hbits].
        intros c Hc. apply Ascii.eqb_neq, Hc. }
      unfold len. rewrite Hl. cbn. lra.
Qed.

Lemma maxones_bitstring_share_witness :
  exists f,
    MaxOnes_fitness_bitstring (list_ascii_of_string "1011") = Ok f /\
    f = (IZR (len (filter (fun c => Ascii.eqb c "1")
                     (list_ascii_of_string "1011")))
         / IZR (len (list_ascii_of_string "1011")))%R /\
    (0 <= f <= 1)%R /\
    (f = 1%R <-> Forall (fun c => c = "1"%char) (list_ascii_of_string "1011")) /\
    (f = 0%R <-> Forall (fun c => c <> "1"%char) (list_ascii_of_string "1011")).
Proof.
  apply (proj2 maxones_bitstring_share). discriminate.
Defined.

(** The share of ones of ["1011"], computed. *)
Example maxones_example :
  MaxOnes_fitness_bitstring (list_ascii_of_string "1011") = Ok (3 / 4)%R.
Proof.
  unfold MaxOnes_fitness_bitstring. cbn -[truediv IZR].
  apply truediv_ok. lra.
Qed.

#[export] Instance digits_only_spec : BinaryIntSpec.
Proof.
  split; [reflexivity |].
  intros s Hne Hbits. cbn. destruct s as [| c s]; [contradiction |].
  replace (forallb (fun c0 => Ascii.eqb c0 "0" || Ascii.eqb c0 "1") (c :: s))
    with true; [reflexivity |].
  symmetry. apply forallb_forall. intros d Hd.
  rewrite Forall_forall in Hbits. destruct (Hbits d Hd) as [-> | ->]; reflexivity.
Qed.

Lemma bits_fold_bounds (s : list ascii) (acc : Z) :
  0 <= acc ->
  acc * 2 ^ len s
  <= fold_left (fun a c => 2 * a + (if Ascii.eqb c "1" then 1 else 0)) s acc
  <= (acc + 1) * 2 ^ len s - 1.
Proof.
  revert acc. induction s as [| c s IH]; intros acc Hacc; cbn [fold_left].
  - change (len (@nil ascii)) with 0. lia.
  - replace (len (c :: s)) with (len s + 1) by (unfold len; cbn [length]; lia).
    rewrite Z.pow_add_r by (first [apply len_nonneg | lia]).
    change (2 ^ 1) with 2.
    assert (Hpow : 0 < 2 ^ len s) by (apply Z.pow_pos_nonneg; [lia | apply len_nonneg]).
    destruct (Ascii.eqb c "1").
    + specialize (IH (2 * acc + 1) ltac:(lia)). nia.
    + specialize (IH (2 * acc + 0) ltac:(lia)). nia.
Qed.

Lemma bits_value_bounds (s : list ascii) : 0 <= bits_value s <= 2 ^ len s - 1.
Proof.
  pose proof (bits_fold_bounds s 0 ltac:(lia)) as Hb. unfold bits_value. lia.
Qed.

Lemma bits_value_zeros (n : nat) : bits_value (repeat "0"%char n) = 0.
Proof.
  unfold bits_value.
  assert (Hgen : forall acc,
            fold_left (fun a c => 2 * a + (if Ascii.eqb c "1" then 1 else 0))
              (repeat "0"%char n) acc = acc * 2 ^ Z.of_nat n).
  { induction n as [| n IH]; intros acc; cbn [repeat fold_left].
    - change (2 ^ Z.of_nat 0) with 1. lia.
    - change (if Ascii.eqb "0" "1" then 1 else 0) with 0.
      rewrite IH, Nat2Z.inj_succ, Z.pow_succ_r by lia. ring. }
  rewrite Hgen. lia.
Qed.

Lemma bits_value_ones (n : nat) :
  bits_value (repeat "1"%char n) = 2 ^ Z.of_nat n - 1.
Proof.
  unfold bits_value.
  assert (Hgen : forall acc,
            fold_left (fun a c => 2 * a + (if Ascii.eqb c "1" then 1 else 0))
              (repeat "1"%char n) acc = (acc + 1) * 2 ^ Z.of_nat n - 1).
  { induction n as [| n IH]; intros acc; cbn [repeat fold_left].
    - change (2 ^ Z.of_nat 0) with 1. lia.
    - change (if Ascii.eqb "1" "1" then 1 else 0) with 1.
      rewrite IH, Nat2Z.inj_succ, Z.pow_succ_r by lia. ring. }
  rewrite Hgen. lia.
Qed.

(** The two halves of a string made of two parts of equal length. *)
Lemma halves (A : Type) (xs ys : list A) :
  len xs = len ys ->
  len (xs ++ ys) mod 2 = 0 /\
  slice_to (xs ++ ys) (len (xs ++ ys) / 2) = xs /\
  slice_from (xs ++ ys) (len (xs ++ ys) / 2) = ys.
Proof.
  intros Hlen. rewrite len_app, <- Hlen.
  replace (len xs + len xs) with (len xs * 2) by lia.
  rewrite Z.mod_mul, Z.div_mul by lia. pose proof (len_nonneg _ xs) as Hx.
  split; [reflexivity |]. unfold slice_to, slice_from.
  destruct (Z.leb_spec 0 (len xs)); [| lia].
  unfold len. rewrite Nat2Z.id. split.
  - rewrite firstn_app, Nat.sub_diag, firstn_all. cbn. apply app_nil_r.
  - rewrite skipn_app, Nat.sub_diag, skipn_all. reflexivity.
Qed.

Section Decoding.

Context `{BinaryIntSpec}.

(** What both [decode_bitstring] methods compute before they scale: the two
    halves are parsed and divided by the largest value a half can have. *)
Lemma decode_parts (xs ys : list ascii) :
  xs <> [] -> len xs = len ys -> Forall is_bit xs -> Forall is_bit ys ->
  int_base2 xs = Ok (bits_value xs) /\
  int_base2 ys = Ok (bits_value ys) /\
  truediv (IZR (bits_value xs)) (IZR (2 ^ len xs - 1))
    = Ok (IZR (bits_value xs) / IZR (2 ^ len xs - 1))%R /\
  truediv (IZR (bits_value ys)) (IZR (2 ^ len xs - 1))
    = Ok (IZR (bits_value ys) / IZR (2 ^ len xs - 1))%R /\
  (0 <= IZR (bits_value xs) / IZR (2 ^ len xs - 1) <= 1)%R /\
  (0 <= IZR (bits_value ys) / IZR (2 ^ len xs - 1) <= 1)%R.
Proof.
  intros Hne Hlen Hxs Hys.
  assert (Hyne : ys <> []).
  { intros ->. destruct xs; [contradiction | unfold len in Hlen; cbn in Hlen; lia]. }
  assert (Hpos : 1 <= len xs).
  { destruct xs; [contradiction | unfold len; cbn [length]; lia]. }
  assert (Hmax : 1 <= 2 ^ len xs - 1).
  { assert (2 ^ 1 <= 2 ^ len xs) by (apply Z.pow_le_mono_r; lia). lia. }
  assert (HmaxR : (1 <= IZR (2 ^ len xs - 1))%R) by (apply IZR_le; exact Hmax).
  pose proof (bits_value_bounds xs) as Hbx.
  pose proof (bits_value_bounds ys) as Hby. rewrite <- Hlen in Hby.
  split; [apply int_base2_bits; assumption |].
  split; [apply int_base2_bits; assumption |].
  split; [apply truediv_ok; lra |]. split; [apply truediv_ok; lra |].
  assert (Hinv : (0 < / IZR (2 ^ len xs - 1))%R) by (apply Rinv_0_lt_compat; lra).
  assert (Hone : (IZR (2 ^ len xs - 1) * / IZR (2 ^ len xs - 1) = 1)%R)
    by (apply Rinv_r; lra).
  assert (Hx : (0 <= IZR (bits_value xs) <= IZR (2 ^ len xs - 1))%R)
    by (split; apply IZR_le; lia).
  assert (Hy : (0 <= IZR (bits_value ys) <= IZR (2 ^ len xs - 1))%R)
    by (split; apply IZR_le; lia).
  unfold Rdiv. split; split; nra.
Qed.

(** X16. [Himmelblau.decode_bitstring] raises [ValueError] on a string of
    odd length and on the empty string. A string made of two non-empty
    halves of binary digits of the same length [h] decodes to the pair whose
    components are the value of each half divided by [2^h - 1], scaled to
    the range [-10, 10]: both components lie in that range, the halves of
    zeros decode to -10 and the halves of ones to 10. *)
Theorem himmelblau_decode_range :
  (forall bitstring, len bitstring mod 2 <> 0 ->
     Himmelblau_decode_bitstring bitstring = Raise ValueError) /\
  Himmelblau_decode_bitstring [] = Raise ValueError /\
  (forall xs ys,
     xs <> [] -> len xs = len ys -> Forall is_bit xs -> Forall is_bit ys ->
     exists x y,
       Himmelblau_decode_bitstring (xs ++ ys) = Ok (x, y) /\
       x = (IZR (bits_value xs) / IZR (2 ^ len xs - 1) * 20 - 10)%R /\
       y = (IZR (bits_value ys) / IZR (2 ^ len xs - 1) * 20 - 10)%R /\
       (-10 <= x <= 10)%R /\ (-10 <= y <= 10)%R) /\
  (forall h, (0 < h)%nat ->
     Himmelblau_decode_bitstring (repeat "0"%char h ++ repeat "0"%char h)
       = Ok ((-10)%R, (-10)%R) /\
     Himmelblau_decode_bitstring (repeat "1"%char h ++ repeat "1"%char h)
       = Ok (10%R, 10%R)).
Proof.
  assert (Hdecode : forall xs ys,
            xs <> [] -> len xs = len ys -> Forall is_bit xs -> Forall is_bit ys ->
            Himmelblau_decode_bitstring (xs ++ ys)
            = Ok ((IZR (bits_value xs) / IZR (2 ^ len xs - 1) * 20 - 10)%R,
                  (IZR (bits_value ys) / IZR (2 ^ len xs - 1) * 20 - 10)%R)).
  { intros xs ys Hne Hlen Hxs Hys.
    destruct (halves _ xs ys Hlen) as [Hmod [Hx Hy]].
    destruct (decode_parts xs ys Hne Hlen Hxs Hys)
      as [Hpx [Hpy [Hdx [Hdy _]]]].
    unfold Himmelblau_decode_bitstring. rewrite Hmod. cbn [Z.eqb negb].
    cbn zeta. rewrite Hx, Hy, Hpx, Hpy. cbn [bind]. rewrite Hdx. cbn [bind].
    rewrite Hdy. reflexivity. }
  split; [| split; [| split]].
  - intros bitstring Hodd. unfold Himmelblau_decode_bitstring.
    destruct (Z.eqb_spec (len bitstring mod 2) 0); [contradiction | reflexivity].
  - unfold Himmelblau_decode_bitstring. cbn -[int_base2].
    rewrite int_base2_empty. reflexivity.
  - intros xs ys Hne Hlen Hxs Hys. eexists _, _.
    split; [apply Hdecode; assumption |]. split; [reflexivity |].
    split; [reflexivity |].
    destruct (decode_parts xs ys Hne Hlen Hxs Hys) as [_ [_ [_ [_ [Hqx Hqy]]]]].
    split; lra.
  - intros h Hh.
    assert (Hne : forall c : ascii, repeat c h <> []).
    { intros c. destruct h; [lia | discriminate]. }
    assert (Hbits : forall c, is_bit c -> Forall is_bit (repeat c h)).
    { intros c Hc. rewrite Forall_forall. intros d Hd.
      apply repeat_spec in Hd. subst d. exact Hc. }
    assert (Hlen : forall c : ascii, len (repeat c h) = Z.of_nat h).
    { intros c. unfold len. rewrite repeat_length. reflexivity. }
    assert (Hmax : (1 <= IZR (2 ^ Z.of_nat h - 1))%R).
    { apply IZR_le. assert (2 ^ 1 <= 2 ^ Z.of_nat h)
        by (apply Z.pow_le_mono_r; lia). lia. }
    split.
    + rewrite Hdecode; [| apply Hne | rewrite !Hlen; reflexivity
                        | apply Hbits; left; reflexivity
                        | apply Hbits; left; reflexivity].
      rewrite bits_value_zeros. f_equal. f_equal; field; rewrite Hlen; lra.
    + rewrite Hdecode; [| apply Hne | rewrite !Hlen; reflexivity
                        | apply Hbits; right; reflexivity
                        | apply Hbits; right; reflexivity].
      rewrite bits_value_ones, Hlen. f_equal. f_equal; field; lra.
Qed.

(** X17. [Rosenbrock.decode_bitstring] raises [ValueError] on a string of
    odd length and on the empty string. A string made of two non-empty
    halves of binary digits of the same length [h] decodes to the pair whose
    components are the value of each half divided by [2^h - 1], scaled to
    the range [-2, 2]: both components lie in that range, the halves of
    zeros decode to -2 and the halves of ones to 2. *)
Theorem rosenbrock_decode_range :
  (forall bitstring, len bitstring mod 2 <> 0 ->
     Rosenbrock_decode_bitstring bitstring = Raise ValueError) /\
  Rosenbrock_decode_bitstring [] = Raise ValueError /\
  (forall xs ys,
     xs <> [] -> len xs = len ys -> Forall is_bit xs -> Forall is_bit ys ->
     exists x y,
       Rosenbrock_decode_bitstring (xs ++ ys) = Ok (x, y) /\
       x = (IZR (bits_value xs) / IZR (2 ^ len xs - 1) * 4 - 2)%R /\
       y = (IZR (bits_value ys) / IZR (2 ^ len xs - 1) * 4 - 2)%R /\
       (-2 <= x <= 2)%R /\ (-2 <= y <= 2)%R) /\
  (forall h, (0 < h)%nat ->
     Rosenbrock_decode_bitstring (repeat "0"%char h ++ repeat "0"%char h)
       = Ok ((-2)%R, (-2)%R) /\
     Rosenbrock_decode_bitstring (repeat "1"%char h ++ repeat "1"%char h)
       = Ok (2%R, 2%R)).
Proof.
  assert (Hdecode : forall xs ys,
            xs <> [] -> len xs = len ys -> Forall is_bit xs -> Forall is_bit ys ->
            Rosenbrock_decode_bitstring (xs ++ ys)
            = Ok ((IZR (bits_value xs) / IZR (2 ^ len xs - 1) * 4 - 2)%R,
                  (IZR (bits_value ys) / IZR (2 ^ len xs - 1) * 4 - 2)%R)).
  { intros xs ys Hne Hlen Hxs Hys.
    destruct (halves _ xs ys Hlen) as [Hmod [Hx Hy]].
    destruct (decode_parts xs ys Hne Hlen Hxs Hys)
      as [Hpx [Hpy [Hdx [Hdy _]]]].
    unfold Rosenbrock_decode_bitstring. rewrite Hmod. cbn [Z.eqb negb].
    cbn zeta. rewrite Hx, Hy, Hpx, Hpy. cbn [bind]. rewrite Hdx. cbn [bind].
    rewrite Hdy. reflexivity. }
  split; [| split; [| split]].
  - intros bitstring Hodd. unfold Rosenbrock_decode_bitstring.
    destruct (Z.eqb_spec (len bitstring mod 2) 0); [contradiction | reflexivity].
  - unfold Rosenbrock_decode_bitstring. cbn -[int_base2].
    rewrite int_base2_empty. reflexivity.
  - intros xs ys Hne Hlen Hxs Hys. eexists _, _.
    split; [apply Hdecode; assumption |]. split; [reflexivity |].
    split; [reflexivity |].
    destruct (decode_parts xs ys Hne Hlen Hxs Hys) as [_ [_ [_ [_ [Hqx Hqy]]]]].
    split; lra.
  - intros h Hh.
    assert (Hne : forall c : ascii, repeat c h <> []).
    { intros c. destruct h; [lia | discriminate]. }
    assert (Hbits : forall c, is_bit c -> Forall is_bit (repeat c h)).
    { intros c Hc. rewrite Forall_forall. intros d Hd.
      apply repeat_spec in Hd. subst d. exact Hc. }
    assert (Hlen : forall c : ascii, len (repeat c h) = Z.of_nat h).
    { intros c. unfold len. rewrite repeat_length. reflexivity. }
    assert (Hmax : (1 <= IZR (2 ^ Z.of_nat h - 1))%R).
    { apply IZR_le. assert (2 ^ 1 <= 2 ^ Z.of_nat h)
        by (apply Z.pow_le_mono_r; lia). lia. }
    split.
    + rewrite Hdecode; [| apply Hne | rewrite !Hlen; reflexivity
                        | apply Hbits; left; reflexivity
                        | apply Hbits; left; reflexivity].
      rewrite bits_value_zeros. f_equal. f_equal; field; rewrite Hlen; lra.
    + rewrite Hdecode; [| apply Hne | rewrite !Hlen; reflexivity
                        | apply Hbits; right; reflexivity
                        | apply Hbits; right; reflexivity].
      rewrite bits_value_ones, Hlen. f_equal. f_equal; field; lra.
Qed.

End Decoding.

Lemma himmelblau_decode_range_witness :
  exists x y,
    Himmelblau_decode_bitstring
      (list_ascii_of_string "10" ++ list_ascii_of_string "01") = Ok (x, y) /\
    x = (IZR (bits_value (list_ascii_of_string "10"))
         / IZR (2 ^ len (list_ascii_of_string "10") - 1) * 20 - 10)%R /\
    y = (IZR (bits_value (list_ascii_of_string "01"))
         / IZR (2 ^ len (list_ascii_of_string "10") - 1) * 20 - 10)%R /\
    (-10 <= x <= 10)%R /\ (-10 <= y <= 10)%R.
Proof.
  apply (proj1 (proj2 (proj2 himmelblau_decode_range))).
  - discriminate.
  - reflexivity.
  - repeat constructor; first [left; reflexivity | right; reflexivity].
  - repeat constructor; first [left; reflexivity | right; reflexivity].
Defined.

Lemma rosenbrock_decode_range_witness :
  Rosenbrock_decode_bitstring (list_ascii_of_string "101") = Raise ValueError.
Proof.
  apply (proj1 rosenbrock_decode_range). discriminate.
Defined.

(** ["1001"] decodes to 2/3 and 1/3 of the way from -10 to 10. *)
Example himmelblau_decode_example :
  Himmelblau_decode_bitstring (list_ascii_of_string "1001")
  = Ok ((2 / 3 * 20 - 10)%R, (1 / 3 * 20 - 10)%R).
Proof.
  run. reflexivity.
Qed.

(** X18. The two fitness entry points of each benchmark evaluator agree:
    [fitness_bitstring] of a string is [fitness] of the pair that
    [decode_bitstring] yields for it, and it raises what decoding raises;
    so whenever it returns, its value lies in (0, 1]. *)
Theorem fitness_bitstring_agrees `{BinaryInt} (bitstring : list ascii) :
  Himmelblau_fitness_bitstring bitstring
  = (p <- Himmelblau_decode_bitstring bitstring ;;
     fitness Himmelblau [fst p; snd p]) /\
  Rosenbrock_fitness_bitstring bitstring
  = (p <- Rosenbrock_decode_bitstring bitstring ;;
     fitness Rosenbrock [fst p; snd p]) /\
  (forall f, Himmelblau_fitness_bitstring bitstring = Ok f -> (0 < f <= 1)%R) /\
  (forall f, Rosenbrock_fitness_bitstring bitstring = Ok f -> (0 < f <= 1)%R).
Proof.
  unfold Himmelblau_fitness_bitstring, Rosenbrock_fitness_bitstring.
  split; [| split; [| split]].
  - destruct (Himmelblau_decode_bitstring bitstring) as [[x y] | e];
      [| reflexivity].
    cbn [bind fst snd]. unfold fitness, Himmelblau.
    rewrite index_head, index_second. reflexivity.
  - destruct (Rosenbrock_decode_bitstring bitstring) as [[x y] | e];
      [| reflexivity].
    cbn [bind fst snd]. unfold fitness, Rosenbrock.
    rewrite index_head, index_second. reflexivity.
  - intros f Hf.
    destruct (Himmelblau_decode_bitstring bitstring) as [[x y] | e];
      [| discriminate].
    cbn [bind fst snd] in Hf.
    apply bind_Ok in Hf. destruct Hf as [x2 [_ Hf]].
    apply bind_Ok in Hf. destruct Hf as [a [Ha Hf]].
    apply bind_Ok in Hf. destruct Hf as [y2 [_ Hf]].
    apply bind_Ok in Hf. destruct Hf as [b [Hb Hf]].
    apply py_pow_nonneg in Ha, Hb. cbn zeta in Hf.
    destruct (inverse_fitness (a + b)) as [Hdiv Hrange]; [lra |].
    rewrite Hdiv in Hf. injection Hf as <-. exact Hrange.
  - intros f Hf.
    destruct (Rosenbrock_decode_bitstring bitstring) as [[x y] | e];
      [| discriminate].
    cbn [bind fst snd] in Hf.
    apply bind_Ok in Hf. destruct Hf as [a [Ha Hf]].
    apply bind_Ok in Hf. destruct Hf as [x2 [_ Hf]].
    apply bind_Ok in Hf. destruct Hf as [b [Hb Hf]].
    apply py_pow_nonneg in Ha, Hb. cbn zeta in Hf.
    destruct (inverse_fitness (a + 100 * b)) as [Hdiv Hrange]; [lra |].
    rewrite Hdiv in Hf. injection Hf as <-. exact Hrange.
Qed.

Lemma fitness_bitstring_agrees_witness :
  exists f,
    Rosenbrock_fitness_bitstring (list_ascii_of_string "1111") = Ok f /\
    (0 < f <= 1)%R.
Proof.
  assert (Hf : exists f,
            Rosenbrock_fitness_bitstring (list_ascii_of_string "1111") = Ok f).
  { eexists. run. reflexivity. }
  destruct Hf as [f Hf]. exists f. split; [exact Hf |].
  apply (proj2 (proj2 (proj2 (fitness_bitstring_agrees
                                (list_ascii_of_string "1111")))) f Hf).
Defined.

(** ** The driver ([main.py]) *)

(** Lines 19-21 on members of two genes and a sigma: a line for every
    member, unless a fitness raises [OverflowError]; then the lines of the
    members before. *)
Lemma print_members_ok (members : list individual) :
  Forall (fun m => len m = 2 + 1) members ->
  exists printed r,
    print_members members = (printed, r) /\
    ((r = Ok tt /\ map fst printed = members)
     \/ (r = Raise OverflowError /\ (length printed < length members)%nat)) /\
    Forall (fun p => In (fst p) members /\
                     fitness Himmelblau (genes_of 2 (fst p)) = Ok (snd p) /\
                     (0 <= snd p <= 1)%R) printed.
Proof.
  induction 1 as [| m members Hm _ [printed [r [Hrest [Hcases Hall]]]]].
  - exists [], (Ok tt). split; [reflexivity |].
    split; [left; split; reflexivity | constructor].
  - destruct m as [| x [| y [| s [| z m]]]];
      try (unfold len in Hm; cbn [length] in Hm; lia).
    cbn [print_members]. change (slice_to [x; y; s] 2) with [x; y].
    pose proof (himmelblau_value x y) as Hf.
    destruct (fitness Himmelblau [x; y]) as [f | e] eqn:Hfit;
      cbn [unless] in Hf.
    + rewrite Hrest. exists (([x; y; s], f) :: printed), r.
      split; [reflexivity |]. split.
      * destruct Hcases as [[-> Hfst] | [-> Hlen]].
        -- left. split; [reflexivity |]. cbn [map fst]. rewrite Hfst. reflexivity.
        -- right. split; [reflexivity | cbn [length]; lia].
      * constructor.
        -- cbn [fst snd]. split; [left; reflexivity |].
           split; [exact Hfit | lra].
        -- eapply Forall_impl; [| exact Hall].
           intros p [Hin Hp]. split; [right; exact Hin | exact Hp].
    + exists [], (Raise e). split; [reflexivity |].
      split; [right; split; [rewrite Hf; reflexivity | cbn [length]; lia] |].
      constructor.
Qed.

Lemma run_lines_bound {G : Type} `{Random G} (fitness_fn : Fitness)
  (mu lambda_ mem_size : Z) (mem_range : R * R) (sigma tau : R) (max_gens : Z)
  (rng : G) :
  len (fst (evolution_strategy fitness_fn mu lambda_ mem_size mem_range sigma
              tau max_gens rng)) <= Z.max 0 max_gens.
Proof.
  unfold evolution_strategy.
  destruct (start mu mem_size mem_range sigma rng) as [[st0 g0] | e];
    [| cbn [fst]; rewrite len_nil; lia].
  destruct (generations _ _ _ _ _ _ st0 g0) as [lines r] eqn:Hgens.
  cbn [fst].
  destruct (generations_accounting _ _ _ _ _ _ _ _ _ _ Hgens) as [Hlen _].
  pose proof (len_range 1 (max_gens + 1)) as Hr. unfold len in *. lia.
Qed.

(** X19. On a generator that keeps the contract of [sample], the driver
    either runs to its end or is left by an [OverflowError] (of [math.exp]
    or [**]), and by no other exception. It prints at most 1000 telemetry
    lines; every member line it prints is for a member of two genes and a
    sigma, and the fitness printed with it is the Himmelblau fitness of its
    genes, a value between 0 and 1. When it runs to its end, it has printed
    exactly 15 member lines, one per member of the population the engine
    returned and in its order. *)
Theorem main_outcome {G : Type} `{RandomSpec G} (rng : G) :
  exists lines printed r,
    main rng = (lines, printed, r) /\
    (r = Ok tt \/ r = Raise OverflowError) /\
    len lines <= 1000 /\
    Forall (fun p => len (fst p) = 3 /\
                     fitness Himmelblau (genes_of 2 (fst p)) = Ok (snd p) /\
                     (0 <= snd p <= 1)%R) printed /\
    (r = Ok tt ->
     evolution_strategy Himmelblau 15 100 2 (-10, 10)%R 0.1%R 0.1%R 1000 rng
       = (lines, Ok (map fst printed)) /\
     len printed = 15).
Proof.
  pose proof (run_ok Himmelblau 15 100 2 (-10, 10)%R 0.1%R 0.1%R 1000 rng
                ltac:(lia) ltac:(lia) himmelblau_total) as Hrun.
  pose proof (run_lines_bound Himmelblau 15 100 2 (-10, 10)%R 0.1%R 0.1%R
                1000 rng) as Hbound.
  unfold main.
  destruct (evolution_strategy Himmelblau 15 100 2 (-10, 10)%R 0.1%R 0.1%R
              1000 rng) as [lines [members | e]];
    cbn [fst snd unless] in Hrun, Hbound.
  - destruct Hrun as [Hlen Hwf].
    destruct (print_members_ok members Hwf)
      as [printed [r [Hprint [Hcases Hall]]]].
    rewrite Hprint. exists lines, printed, r. split; [reflexivity |].
    split; [destruct Hcases as [[-> _] | [-> _]]; auto |].
    split; [lia |]. split.
    + rewrite Forall_forall in *. intros p Hp.
      destruct (Hall p Hp) as [Hin Hfit]. split; [| exact Hfit].
      apply (Hwf (fst p) Hin).
    + intros ->. destruct Hcases as [[_ Hfst] | [Hr _]]; [| discriminate].
      rewrite Hfst. split; [reflexivity |].
      rewrite <- Hlen, <- Hfst. unfold len. rewrite length_map. reflexivity.
  - exists lines, [], (Raise e). split; [reflexivity |].
    split; [right; rewrite Hrun; reflexivity |].
    split; [lia |]. split; [constructor | discriminate].
Qed.

Lemma main_outcome_witness :
  exists lines printed r,
    main optimum_tape = (lines, printed, r) /\
    (r = Ok tt \/ r = Raise OverflowError) /\
    len lines <= 1000 /\
    Forall (fun p => len (fst p) = 3 /\
                     fitness Himmelblau (genes_of 2 (fst p)) = Ok (snd p) /\
                     (0 <= snd p <= 1)%R) printed /\
    (r = Ok tt ->
     evolution_strategy Himmelblau 15 100 2 (-10, 10)%R 0.1%R 0.1%R 1000
       optimum_tape = (lines, Ok (map fst printed)) /\
     len printed = 15).
Proof.
  apply (main_outcome optimum_tape).
Defined.
